(** * dice: the generic store, the linked list and the skip-list sorted set

  A shallow embedding of three packages of the repository,

  - [internal/store/store.go]                         (module [Store]),
  - [internal/datastructures/list/list.go]            (module [DList]),
  - [internal/datastructures/sortedsets/sortedset.go] (module [SortedSet]),

  together with the properties of them that the specification states.

  Conventions.  Go pointers are addresses ([addr], natural numbers) into an
  explicit heap; [nil] is [None].  A Go [int]/[int64] is a [Z]; a [uint64]
  is a [Z] reduced modulo [2^64].  A [float64] is a primitive float.  A
  function that can panic (nil dereference, index out of range) returns in
  [option], [None] standing for the panic. *)

From Stdlib Require Import ZArith Floats.
From stdpp Require Import gmap strings list fin_maps sorting.

Local Open Scope Z_scope.

Definition addr := nat.

(** ** The store: [internal/store/store.go] *)
Module Store.

(** The store is instantiated at [T = ds.DSInterface]; every implementer
    has pointer receivers, so a value of type [T] is a handle on a
    collection living in the heap.  The handle is never nil when it is
    stored; the zero value of [T] that [Get] returns on a miss is [None]. *)
Definition T := nat.

Definition uint64 (z : Z) : Z := z mod 2 ^ 64.

(** The memory the store works on.
    - [store], [expires]: the two swiss maps of the struct.  [expires] has
      keys of type [*T]: addresses of variables of type [T].
    - [cells]: the variables of type [T] that are alive because their
      address is a key of [expires], with their contents.
    - [lastAccessedAt]: the timestamp field embedded in each collection. *)
Record Store := mkStore {
  store : gmap string T;
  expires : gmap addr Z;
  cells : gmap addr T;
  lastAccessedAt : gmap T Z
}.

(** [swiss.New] twice; nothing allocated yet. *)
Definition NewStore : Store :=
  {| store := ∅; expires := ∅; cells := ∅; lastAccessedAt := ∅ |}.

(** The address of a variable that comes to life now: distinct from the
    address of every variable that is still alive. *)
Definition newVar (s : Store) : addr := fresh (dom (cells s)).

(** Modelled from the spec: [UpdateLastAccessedAt] of
    [ds.BaseDataStructure], whose file is not part of the sources at hand;
    the spec has it stamp the value's last-accessed time to now. *)
Definition UpdateLastAccessedAt (now : Z) (v : T) (la : gmap T Z) : gmap T Z :=
  <[v := now]> la.

(** [func (s *Store[T]) Put(key string, Value T, expDurationMs int64)].
    The parameter [Value] is a variable of its own; when its address goes
    into [expires] it stays alive, at the address [a]. *)
Definition Put (s : Store) (key : string) (Value : T) (expDurationMs : Z)
    (now : Z) : Store :=
  let a := newVar s in
  let la := UpdateLastAccessedAt now Value (lastAccessedAt s) in
  let st := <[key := Value]> (store s) in
  if 0 <? expDurationMs
  then {| store := st;
          expires := <[a := uint64 expDurationMs]> (expires s);
          cells := <[a := Value]> (cells s);
          lastAccessedAt := la |}
  else {| store := st; expires := expires s; cells := cells s;
          lastAccessedAt := la |}.

(** [func (s *Store[T]) setExpiry(Value *T, expDurationMs int64)] *)
Definition setExpiry (s : Store) (Value : addr) (expDurationMs : Z)
    (now : Z) : Store :=
  {| store := store s;
     expires := <[Value := uint64 (uint64 now + uint64 expDurationMs)]> (expires s);
     cells := cells s; lastAccessedAt := lastAccessedAt s |}.

(** [func (s *Store[T]) Get(key string) (T, bool)] *)
Definition Get (s : Store) (key : string) (now : Z) : Store * (option T * bool) :=
  match store s !! key with
  | Some value =>
      ({| store := store s; expires := expires s; cells := cells s;
          lastAccessedAt := UpdateLastAccessedAt now value (lastAccessedAt s) |},
       (Some value, true))
  | None => (s, (None, false))
  end.

(** [func (s *Store[T]) Delete(key string) bool] *)
Definition Delete (s : Store) (key : string) : Store * bool :=
  match store s !! key with
  | Some _ =>
      ({| store := delete key (store s); expires := expires s;
          cells := cells s; lastAccessedAt := lastAccessedAt s |}, true)
  | None => (s, false)
  end.

(** [func (s *Store[T]) GetExpiry(key string) (uint64, bool)].  The lookup
    key is [&val], the address of the local [val] declared by the [if]:
    a variable that comes to life in this call.  It is dead again when the
    call returns, so the memory is left as it was.  A miss of the swiss map
    yields the zero value and [false]. *)
Definition GetExpiry (s : Store) (key : string) : Z * bool :=
  match store s !! key with
  | Some val =>
      let a := newVar s in
      match expires s !! a with
      | Some deadline => (deadline, true)
      | None => (0, false)
      end
  | None => (0, false)
  end.

(** [func (s *Store[T]) SetExpiry(key string, expDurationMs int64)].  The
    local [obj] is kept alive by the map, as [Value] is in [Put]. *)
Definition SetExpiry (s : Store) (key : string) (expDurationMs : Z)
    (now : Z) : Store :=
  match store s !! key with
  | Some obj =>
      let a := newVar s in
      {| store := store s;
         expires := <[a := uint64 (uint64 now + uint64 expDurationMs)]> (expires s);
         cells := <[a := obj]> (cells s);
         lastAccessedAt := lastAccessedAt s |}
  | None => s
  end.

(** Every key of [expires] is the address of a variable that is alive:
    the map itself keeps it so. *)
Definition wf (s : Store) : Prop := dom (expires s) ⊆ dom (cells s).

(** The stores the public interface can build. *)
Inductive op :=
| OpPut (key : string) (Value : T) (expDurationMs : Z) (now : Z)
| OpGet (key : string) (now : Z)
| OpDelete (key : string)
| OpSetExpiry (key : string) (expDurationMs : Z) (now : Z).

Definition step (s : Store) (o : op) : Store :=
  match o with
  | OpPut k v d now => Put s k v d now
  | OpGet k now => (Get s k now).1
  | OpDelete k => (Delete s k).1
  | OpSetExpiry k d now => SetExpiry s k d now
  end.

Definition run (ops : list op) : Store := foldl step NewStore ops.

(** Whether the call [o] on [s] writes to [expires], and what it writes:
    [Put] under its guard [expDurationMs > 0], [SetExpiry] when the key
    is there. *)
Definition records (s : Store) (o : op) : bool :=
  match o with
  | OpPut _ _ d _ => 0 <? d
  | OpSetExpiry k _ _ => bool_decide (is_Some (store s !! k))
  | _ => false
  end.

Definition deadlineOf (o : op) : Z :=
  match o with
  | OpPut _ _ d _ => uint64 d
  | OpSetExpiry _ d now => uint64 (uint64 now + uint64 d)
  | _ => 0
  end.

(** An expiry record of the entry under [key]: a record of [expires]
    whose key points at a copy of the value the store holds for [key]. *)
Definition recordOf (s : Store) (key : string) (a : addr) (deadline : Z) : Prop :=
  ∃ v, store s !! key = Some v ∧ cells s !! a = Some v
       ∧ expires s !! a = Some deadline.

End Store.

(** ** The linked list: [internal/datastructures/list/list.go] *)
Module DList.
Section WithElement.

(** [T constraint]: an ordered primitive, a byte slice or a string. *)
Context {T : Type}.

Record ListNode := mkListNode {
  element : T;
  next : option addr;
  prev : option addr
}.

(** The struct [List] and, in [nodes], the heap its pointers lead into.
    [size] is an [int64]: it counts live nodes, of which a 64-bit address
    space holds fewer than [2^63], so it is kept as an unbounded [Z]. *)
Record List := mkList {
  size : Z;
  head : option addr;
  tail : option addr;
  nodes : gmap addr ListNode
}.

Definition NewLists : List :=
  {| size := 0; head := None; tail := None; nodes := ∅ |}.

(** [func (b *List[T]) newNode(el T) *ListNode[T]]: a fresh node, both
    links nil. *)
Definition newNode (b : List) (el : T) : addr * List :=
  let bn := fresh (dom (nodes b)) in
  (bn, {| size := size b; head := head b; tail := tail b;
          nodes := <[bn := mkListNode el None None]> (nodes b) |}).

Definition setNext (h : gmap addr ListNode) (a : addr) (v : option addr)
    : option (gmap addr ListNode) :=
  n ← h !! a; Some (<[a := mkListNode (element n) v (prev n)]> h).

Definition setPrev (h : gmap addr ListNode) (a : addr) (v : option addr)
    : option (gmap addr ListNode) :=
  n ← h !! a; Some (<[a := mkListNode (element n) (next n) v]> h).

(** [func (b *List[T]) append(bn *ListNode[T])] *)
Definition append (b : List) (bn : addr) : option List :=
  h1 ← setPrev (nodes b) bn (tail b);
  h2 ← match tail b with
       | Some t => setNext h1 t (Some bn)
       | None => Some h1
       end;
  Some {| size := size b + 1;
          head := match head b with None => Some bn | Some hd => Some hd end;
          tail := Some bn; nodes := h2 |}.

(** [func (b *List[T]) prepend(bn *ListNode[T])] *)
Definition prepend (b : List) (bn : addr) : option List :=
  h1 ← setNext (nodes b) bn (head b);
  h2 ← match head b with
       | Some hd => setPrev h1 hd (Some bn)
       | None => Some h1
       end;
  Some {| size := size b + 1; head := Some bn;
          tail := match tail b with None => Some bn | Some t => Some t end;
          nodes := h2 |}.

(** [func (b *List[T]) LPush(els ...T)]: each element goes through
    [append]. *)
Fixpoint LPush (b : List) (els : list T) : option List :=
  match els with
  | [] => Some b
  | el :: els' =>
      let '(bn, b1) := newNode b el in
      b2 ← append b1 bn; LPush b2 els'
  end.

(** [func (b *List[T]) RPush(els ...T)]: each element goes through
    [prepend]. *)
Fixpoint RPush (b : List) (els : list T) : option List :=
  match els with
  | [] => Some b
  | el :: els' =>
      let '(bn, b1) := newNode b el in
      b2 ← prepend b1 bn; RPush b2 els'
  end.

Definition LLen (b : List) : Z := size b.

(** [func (b *List[T]) delete(bn *ListNode[T])].  Each statement reads the
    heap as the statements before it left it. *)
Definition delete (b : List) (bn : addr) : option List :=
  n0 ← nodes b !! bn;
  let hd := if decide (Some bn = head b) then next n0 else head b in
  let tl := if decide (Some bn = tail b) then prev n0 else tail b in
  h1 ← match prev n0 with
       | Some p => setNext (nodes b) p (next n0)
       | None => Some (nodes b)
       end;
  n1 ← h1 !! bn;
  h2 ← match next n1 with
       | Some q => setPrev h1 q (prev n1)
       | None => Some h1
       end;
  Some {| size := size b - 1; head := hd; tail := tl; nodes := h2 |}.

(** The Go [error] interface; [None] is the nil error. *)
Definition error := option string.

(** [func (b *List[T]) LPop() (T, bool, error)].  [b.head.element]
    dereferences [b.head]: on nil the call panics. *)
Definition LPop (b : List) : option (List * (T * bool * error)) :=
  hd ← head b;
  n ← nodes b !! hd;
  let el := element n in
  b' ← delete b hd;
  Some (b', (el, bool_decide (size b' = 0), None)).

(** [func (b *List[T]) RPop() (T, bool, error)] *)
Definition RPop (b : List) : option (List * (T * bool * error)) :=
  tl ← tail b;
  n ← nodes b !! tl;
  let el := element n in
  b' ← delete b tl;
  Some (b', (el, bool_decide (size b' = 0), None)).

(** [*new(T)], the zero value of the element type, which goes with an
    error. *)
Variable zero : T.

(** [func equal[T any](a, b T) bool]: the comparison of two elements, by
    [bytes.Equal], by [==] on strings or by [reflect.DeepEqual], as the
    element type has it. *)
Variable equal : T → T → bool.

(** [current := b.head; for i := 0; i < index; i++ { current = current.next }],
    with [n] turns left; [current.next] on a nil [current] panics. *)
Fixpoint walkNext (h : gmap addr ListNode) (current : option addr) (n : nat)
    : option (option addr) :=
  match n with
  | O => Some current
  | S n' => c ← current; nd ← h !! c; walkNext h (next nd) n'
  end.

(** [func (b *List[T]) LIndex(index int) (T, error)].  [int(b.size) + index]
    is the sum of a size and a negative number: it does not overflow. *)
Definition LIndex (b : List) (index : Z) : option (T * error) :=
  let index := if index <? 0 then size b + index else index in
  if (index <? 0) || (size b <=? index)
  then Some (zero, Some "index out of range")
  else if index =? 0
  then hd ← head b; nd ← nodes b !! hd; Some (element nd, None)
  else
    current ← walkNext (nodes b) (head b) (Z.to_nat index);
    c ← current; nd ← nodes b !! c; Some (element nd, None).

(** The loop of [LRange] and of [LTrim],
    [for i := 0; i <= stop; i++ {
       if i >= start { els = append(els, current.element) }
       current = current.next }], with [n] turns left. *)
Fixpoint collect (h : gmap addr ListNode) (current : option addr) (i : Z)
    (n : nat) (start : Z) (els : list T) : option (list T) :=
  match n with
  | O => Some els
  | S n' =>
      c ← current; nd ← h !! c;
      collect h (next nd) (i + 1) n' start
        (if start <=? i then els ++ [element nd] else els)
  end.

(** [func (b *List[T]) LRange(start, stop int) ([]T, error)]; the nil
    slice is the empty list. *)
Definition LRange (b : List) (start stop : Z) : option (list T * error) :=
  if (start <? 0) || (stop <? 0) || (stop <? start)
  then Some ([], Some "invalid range")
  else
    let stop := if size b <=? stop then size b - 1 else stop in
    els ← collect (nodes b) (head b) 0 (Z.to_nat (stop + 1)) start [];
    Some (els, None).

(** [func (b *List[T]) LSet(index int, el T) error] *)
Definition LSet (b : List) (index : Z) (el : T) : option (List * error) :=
  if (index <? 0) || (size b <=? index)
  then Some (b, Some "index out of range")
  else
    current ← walkNext (nodes b) (head b) (Z.to_nat index);
    c ← current; nd ← nodes b !! c;
    Some ({| size := size b; head := head b; tail := tail b;
             nodes := <[c := mkListNode el (next nd) (prev nd)]> (nodes b) |},
          None).

(** [func (b *List[T]) clear()]: the nodes are left to the collector. *)
Definition clear (b : List) : List :=
  {| size := 0; head := None; tail := None; nodes := nodes b |}.

(** [func (b *List[T]) LTrim(start, stop int) error].  Its last loop,
    [for _, el := range els { bn := b.newNode(el); b.append(bn) }], is the
    loop of [LPush]. *)
Definition LTrim (b : List) (start stop : Z) : option (List * error) :=
  if (start <? 0) || (stop <? 0) || (stop <? start)
  then Some (b, Some "invalid range")
  else
    let stop := if size b <=? stop then size b - 1 else stop in
    els ← collect (nodes b) (head b) 0 (Z.to_nat (stop + 1)) start [];
    b' ← LPush (clear b) els;
    Some (b', None).

(** The loop of [LRem],
    [for i := 0; i < int(b.size); i++ {
       if equal(current.element, el) {
         b.delete(current); removed++
         if removed == int64(count) { break } }
       current = current.next }].
    The test reads [b.size] anew at each turn, after [delete] has counted
    it down.  [i] goes up and [b.size] does not: the loop makes at most
    [b.size] turns, and [fuel] is set to one more. *)
Fixpoint remLoop (fuel : nat) (b : List) (current : option addr) (i : Z)
    (count : Z) (el : T) (removed : Z) : option (List * Z) :=
  match fuel with
  | O => None
  | S f =>
      if i <? size b then
        c ← current; nd ← nodes b !! c;
        if equal (element nd) el then
          b' ← delete b c;
          if removed + 1 =? count then Some (b', removed + 1)
          else nd' ← nodes b' !! c;
               remLoop f b' (next nd') (i + 1) count el (removed + 1)
        else remLoop f b (next nd) (i + 1) count el removed
      else Some (b, removed)
  end.

(** [func (b *List[T]) LRem(count int, el T) int64] *)
Definition LRem (b : List) (count : Z) (el : T) : option (List * Z) :=
  remLoop (S (Z.to_nat (size b))) b (head b) 0 count el 0.

(** [func deepCopyElement[T constraint](el T) T]: a byte slice is copied
    byte by byte into a new slice, another element is returned as it is;
    as a value the result is [el]. *)
Definition deepCopyElement (el : T) : T := el.

(** [func (node *ListNode[T]) deepCopyNode(prevCopy *ListNode[T]) *ListNode[T]].
    The recursion follows [next]; on a list that is a cycle it does not
    end, and [fuel] runs out. *)
Fixpoint deepCopyNode (fuel : nat) (h : gmap addr ListNode) (node : option addr)
    (prevCopy : option addr) : option (gmap addr ListNode * option addr) :=
  match fuel with
  | O => None
  | S f =>
      match node with
      | None => Some (h, None)
      | Some n =>
          let newNode := fresh (dom h) in
          nd ← h !! n;
          let h1 := <[newNode := mkListNode (deepCopyElement (element nd))
                                   None prevCopy]> h in
          match next nd with
          | Some nx =>
              '(h2, r) ← deepCopyNode f h1 (Some nx) (Some newNode);
              h3 ← setNext h2 newNode r;
              Some (h3, Some newNode)
          | None => Some (h1, Some newNode)
          end
      end
  end.

(** [for current.next != nil { current = current.next }] *)
Fixpoint toLast (fuel : nat) (h : gmap addr ListNode) (current : addr)
    : option addr :=
  match fuel with
  | O => None
  | S f =>
      nd ← h !! current;
      match next nd with
      | Some nx => toLast f h nx
      | None => Some current
      end
  end.

(** [func (b *List[T]) DeepCopy() *List[T]].  The copy lives in the heap
    of [b], grown by the new nodes. *)
Definition DeepCopy (b : List) : option List :=
  match head b with
  | None => Some {| size := size b; head := None; tail := None;
                    nodes := nodes b |}
  | Some hd =>
      '(h, r) ← deepCopyNode (S (base.size (nodes b))) (nodes b) (Some hd) None;
      c ← r;
      t ← toLast (S (base.size h)) h c;
      Some {| size := size b; head := Some c; tail := Some t; nodes := h |}
  end.

(** *** Representation *)

(** [links h p as q]: in [h] the nodes [as], in this order, are linked in
    both directions, the first one having [prev = p] and the last one
    [next = q]. *)
Fixpoint links (h : gmap addr ListNode) (p : option addr) (l : list (addr * T))
    (q : option addr) : Prop :=
  match l with
  | [] => True
  | (a, x) :: l' =>
      let nx := match l' with [] => q | (a', _) :: _ => Some a' end in
      h !! a = Some (mkListNode x nx p) ∧ links h (Some a) l' q
  end.

(** [b] holds the elements [l.*2], in the nodes [l.*1]. *)
Definition Rep (b : List) (l : list (addr * T)) : Prop :=
  NoDup l.*1
  ∧ links (nodes b) None l None
  ∧ head b = fst <$> List.head l
  ∧ tail b = fst <$> last l
  ∧ size b = Z.of_nat (List.length l).

(** The address of the first node of [l], or [q]; of the last one, or
    [p]. *)
Definition firstAddr (q : option addr) (l : list (addr * T)) : option addr :=
  match l with [] => q | (a, _) :: _ => Some a end.

Definition lastAddr (p : option addr) (l : list (addr * T)) : option addr :=
  match last l with None => p | Some (a, _) => Some a end.

(** The loop of [LRem] on the sequence [l] of the nodes it has not yet
    visited, [removed] nodes being out already: the nodes of [l] that stay,
    and the number of nodes removed in the end.  The test [i < b.size]
    reads [removed < len(l)], [i] being the number of nodes visited and
    [b.size] the number of nodes left. *)
Fixpoint remSeq (count : Z) (el : T) (removed : Z) (l : list (addr * T))
    : list (addr * T) * Z :=
  match l with
  | [] => ([], removed)
  | (a, x) :: l' =>
      if removed <? Z.of_nat (List.length l) then
        if equal x el then
          if removed + 1 =? count then (l', removed + 1)
          else remSeq count el (removed + 1) l'
        else let '(k, r) := remSeq count el removed l' in ((a, x) :: k, r)
      else (l, removed)
  end.

End WithElement.
Global Arguments ListNode : clear implicits.
Global Arguments List : clear implicits.

(** The list of [LPush(10, 20)] on a new list. *)
Definition twoElements : List Z :=
  default NewLists (LPush NewLists [10; 20]).

(** The list of [LPush(7, 7, 7, 7)] on a new list. *)
Definition fourSevens : List Z :=
  default NewLists (LPush NewLists [7; 7; 7; 7]).

End DList.

(** ** The evaluator of the list commands

  The file of package [list] that holds [Eval] (among the sources under
  the name [bloom/error.go]): the commands and their helpers. *)
Module ListEval.
Section WithElement.

Context {T : Type}.

(** [convertArgToType[T]]: a call of [strconv] for the numeric types,
    which fails on a string that is not a numeral ([None]). *)
Variable convertArgToType : string → option T.

Definition defaultExpiry : Z := -1.

(** What a handle of the store stands for: a list of this element type,
    or a collection of another kind. *)
Inductive object :=
| ObjList (l : DList.List T)
| ObjOther.

(** The evaluator works on the store and on the collections the handles
    of the store point to. *)
Record Eval := mkEval {
  store : Store.Store;
  objects : gmap Store.T object
}.

Definition NewEval : Eval := {| store := Store.NewStore; objects := ∅ |}.

(** A value and a nil error, or an error. *)
Inductive result (A : Type) :=
| Ok (a : A)
| Err (msg : string).
Global Arguments Ok {A} a.
Global Arguments Err {A} msg.

(** [obj.( *List[T])] *)
Definition asList (e : Eval) (obj : option Store.T) : option (DList.List T) :=
  match obj with
  | Some h => match objects e !! h with
              | Some (ObjList l) => Some l
              | _ => None
              end
  | None => None
  end.

(** [func (e *Eval[T]) getList(key string) ( *List[T], error)] *)
Definition getList (e : Eval) (key : string) (now : Z)
    : Eval * result Store.T :=
  let '(s, (obj, found)) := Store.Get (store e) key now in
  let e' := {| store := s; objects := objects e |} in
  if negb found then (e', Err "no such key")
  else match obj, asList e obj with
       | Some h, Some _ => (e', Ok h)
       | _, _ => (e', Err "wrong type")
       end.

(** [func (e *Eval[T]) getOrCreateList(key string) ( *List[T], error)];
    [&List[T]{}] is a new list, at a new handle. *)
Definition getOrCreateList (e : Eval) (key : string) (now : Z)
    : Eval * result Store.T :=
  let '(s, (obj, found)) := Store.Get (store e) key now in
  if negb found then
    let h := fresh (dom (objects e)) in
    ({| store := Store.Put s key h defaultExpiry now;
        objects := <[h := ObjList DList.NewLists]> (objects e) |}, Ok h)
  else
    let e' := {| store := s; objects := objects e |} in
    match obj, asList e obj with
    | Some h, Some _ => (e', Ok h)
    | _, _ => (e', Err "wrong type")
    end.

(** The loop of [LPUSH]: convert, give up on the first string that does
    not convert, push. *)
Fixpoint pushLoop (e : Eval) (h : Store.T) (valueStrs : list string)
    : option (Eval * result unit) :=
  match valueStrs with
  | [] => Some (e, Ok tt)
  | valueStr :: rest =>
      match convertArgToType valueStr with
      | None => Some (e, Err "strconv")
      | Some value =>
          l ← asList e (Some h);
          l' ← DList.LPush l [value];
          pushLoop {| store := store e;
                      objects := <[h := ObjList l']> (objects e) |} h rest
      end
  end.

(** [func (e *Eval[T]) LPUSH(args []string) (int64, error)] *)
Definition LPUSH (e : Eval) (args : list string) (now : Z)
    : option (Eval * result Z) :=
  match args with
  | key :: ((_ :: _) as valueStrs) =>
      match getOrCreateList e key now with
      | (e1, Err msg) => Some (e1, Err msg)
      | (e1, Ok h) =>
          '(e2, r) ← pushLoop e1 h valueStrs;
          match r with
          | Err msg => Some (e2, Err msg)
          | Ok _ => l ← asList e2 (Some h); Some (e2, Ok (DList.LLen l))
          end
      end
  | _ => Some (e, Err "LPUSH")
  end.

(** [func (e *Eval[T]) LPOP(args []string) (T, error)] *)
Definition LPOP (e : Eval) (args : list string) (now : Z)
    : option (Eval * result T) :=
  match args with
  | [key] =>
      match getList e key now with
      | (e1, Err msg) => Some (e1, Err msg)
      | (e1, Ok h) =>
          l ← asList e1 (Some h);
          '(l', (value, empty, _)) ← DList.LPop l;
          let objs := <[h := ObjList l']> (objects e1) in
          let s := if empty : bool then (Store.Delete (store e1) key).1
                   else store e1 in
          Some ({| store := s; objects := objs |}, Ok value)
      end
  | _ => Some (e, Err "LPOP")
  end.

(** [func (e *Eval[T]) RPOP(args []string) (T, error)] *)
Definition RPOP (e : Eval) (args : list string) (now : Z)
    : option (Eval * result T) :=
  match args with
  | [key] =>
      match getList e key now with
      | (e1, Err msg) => Some (e1, Err msg)
      | (e1, Ok h) =>
          l ← asList e1 (Some h);
          '(l', (value, empty, _)) ← DList.RPop l;
          let objs := <[h := ObjList l']> (objects e1) in
          let s := if empty : bool then (Store.Delete (store e1) key).1
                   else store e1 in
          Some ({| store := s; objects := objs |}, Ok value)
      end
  | _ => Some (e, Err "RPOP")
  end.

(** The loop of [RPUSH]: as the loop of [LPUSH], with [RPush]. *)
Fixpoint rpushLoop (e : Eval) (h : Store.T) (valueStrs : list string)
    : option (Eval * result unit) :=
  match valueStrs with
  | [] => Some (e, Ok tt)
  | valueStr :: rest =>
      match convertArgToType valueStr with
      | None => Some (e, Err "strconv")
      | Some value =>
          l ← asList e (Some h);
          l' ← DList.RPush l [value];
          rpushLoop {| store := store e;
                       objects := <[h := ObjList l']> (objects e) |} h rest
      end
  end.

(** [func (e *Eval[T]) RPUSH(args []string) (int64, error)] *)
Definition RPUSH (e : Eval) (args : list string) (now : Z)
    : option (Eval * result Z) :=
  match args with
  | key :: ((_ :: _) as valueStrs) =>
      match getOrCreateList e key now with
      | (e1, Err msg) => Some (e1, Err msg)
      | (e1, Ok h) =>
          '(e2, r) ← rpushLoop e1 h valueStrs;
          match r with
          | Err msg => Some (e2, Err msg)
          | Ok _ => l ← asList e2 (Some h); Some (e2, Ok (DList.LLen l))
          end
      end
  | _ => Some (e, Err "RPUSH")
  end.

(** [strconv.Atoi]: the number a decimal numeral stands for, or a failure
    ([None]). *)
Variable Atoi : string → option Z.

(** [*new(T)] and [equal], as in the package of the list. *)
Variable zero : T.
Variable equal : T → T → bool.

(** [func (e *Eval[T]) LRANGE(args []string) ([]T, error)] *)
Definition LRANGE (e : Eval) (args : list string) (now : Z)
    : option (Eval * result (list T)) :=
  match args with
  | [key; startStr; stopStr] =>
      match Atoi startStr, Atoi stopStr with
      | Some start, Some stop =>
          match getList e key now with
          | (e1, Err msg) => Some (e1, Err msg)
          | (e1, Ok h) =>
              l ← asList e1 (Some h);
              '(values, err) ← DList.LRange l start stop;
              match err with
              | Some msg => Some (e1, Err msg)
              | None => Some (e1, Ok values)
              end
          end
      | _, _ => Some (e, Err "invalid index for 'LRANGE' command")
      end
  | _ => Some (e, Err "LRANGE")
  end.

(** [func (e *Eval[T]) LLEN(args []string) (int64, error)] *)
Definition LLEN (e : Eval) (args : list string) (now : Z)
    : option (Eval * result Z) :=
  match args with
  | [key] =>
      match getList e key now with
      | (e1, Err msg) => Some (e1, Err msg)
      | (e1, Ok h) => l ← asList e1 (Some h); Some (e1, Ok (DList.LLen l))
      end
  | _ => Some (e, Err "LLEN")
  end.

(** [func (e *Eval[T]) LINDEX(args []string) (T, error)] *)
Definition LINDEX (e : Eval) (args : list string) (now : Z)
    : option (Eval * result T) :=
  match args with
  | [key; indexStr] =>
      match Atoi indexStr with
      | Some index =>
          match getList e key now with
          | (e1, Err msg) => Some (e1, Err msg)
          | (e1, Ok h) =>
              l ← asList e1 (Some h);
              '(value, err) ← DList.LIndex zero l index;
              match err with
              | Some msg => Some (e1, Err msg)
              | None => Some (e1, Ok value)
              end
          end
      | None => Some (e, Err "invalid index for 'LINDEX' command")
      end
  | _ => Some (e, Err "LINDEX")
  end.

(** [func (e *Eval[T]) LSET(args []string) (string, error)] *)
Definition LSET (e : Eval) (args : list string) (now : Z)
    : option (Eval * result string) :=
  match args with
  | [key; indexStr; valueStr] =>
      match Atoi indexStr with
      | Some index =>
          match convertArgToType valueStr with
          | Some value =>
              match getList e key now with
              | (e1, Err msg) => Some (e1, Err msg)
              | (e1, Ok h) =>
                  l ← asList e1 (Some h);
                  '(l', err) ← DList.LSet l index value;
                  let e2 := {| store := store e1;
                               objects := <[h := ObjList l']> (objects e1) |} in
                  match err with
                  | Some msg => Some (e2, Err msg)
                  | None => Some (e2, Ok "OK")
                  end
              end
          | None => Some (e, Err "strconv")
          end
      | None => Some (e, Err "invalid index for 'LSET' command")
      end
  | _ => Some (e, Err "LSET")
  end.

(** [func (e *Eval[T]) LTRIM(args []string) (string, error)] *)
Definition LTRIM (e : Eval) (args : list string) (now : Z)
    : option (Eval * result string) :=
  match args with
  | [key; startStr; stopStr] =>
      match Atoi startStr, Atoi stopStr with
      | Some start, Some stop =>
          match getList e key now with
          | (e1, Err msg) => Some (e1, Err msg)
          | (e1, Ok h) =>
              l ← asList e1 (Some h);
              '(l', err) ← DList.LTrim l start stop;
              let e2 := {| store := store e1;
                           objects := <[h := ObjList l']> (objects e1) |} in
              match err with
              | Some msg => Some (e2, Err msg)
              | None => Some (e2, Ok "OK")
              end
          end
      | _, _ => Some (e, Err "invalid index for 'LTRIM' command")
      end
  | _ => Some (e, Err "LTRIM")
  end.

(** [func (e *Eval[T]) LREM(args []string) (int64, error)] *)
Definition LREM (e : Eval) (args : list string) (now : Z)
    : option (Eval * result Z) :=
  match args with
  | [key; countStr; valueStr] =>
      match Atoi countStr with
      | Some count =>
          match convertArgToType valueStr with
          | Some value =>
              match getList e key now with
              | (e1, Err msg) => Some (e1, Err msg)
              | (e1, Ok h) =>
                  l ← asList e1 (Some h);
                  '(l', removedCount) ← DList.LRem equal l count value;
                  Some ({| store := store e1;
                           objects := <[h := ObjList l']> (objects e1) |},
                        Ok removedCount)
              end
          | None => Some (e, Err "strconv")
          end
      | None => Some (e, Err "invalid count for 'LREM' command")
      end
  | _ => Some (e, Err "LREM")
  end.

(** The list the evaluator holds under [key], as the sequence of its
    elements. *)
Definition holds (e : Eval) (key : string) (vals : list T) : Prop :=
  ∃ h b l, Store.store (store e) !! key = Some h
           ∧ objects e !! h = Some (ObjList b)
           ∧ DList.Rep b l ∧ l.*2 = vals.

(** No entry under [key]. *)
Definition absent (e : Eval) (key : string) : Prop :=
  Store.store (store e) !! key = None.

End WithElement.

(** For the examples: a converter that reads the decimal numerals without
    a sign, and the evaluator that holds the list of [LPush(10, 20)] under
    the key ["k"]. *)
Fixpoint digits (acc : Z) (s : string) : option Z :=
  match s with
  | EmptyString => Some acc
  | String c s' =>
      let d := Z.of_nat (Ascii.nat_of_ascii c) - 48 in
      if (0 <=? d) && (d <=? 9) then digits (10 * acc + d) s' else None
  end.

Definition decimal (s : string) : option Z :=
  match s with
  | EmptyString => None
  | _ => digits 0 s
  end.

Definition twoPushed : Eval (T:=Z) :=
  {| store := Store.Put Store.NewStore "k" 0%nat defaultExpiry 100;
     objects := {[ 0%nat := ObjList DList.twoElements ]} |}.

End ListEval.

(** ** The set: package [set] (among the sources under the name
    [bloom/error.go]) *)
Module GoSet.

(** [map[T]struct{}]: nil ([None]), or the keys it holds, in the order
    they came in.  [eq] is the [==] of the key type. *)
Definition keys (A : Type) := option (list A).

(** [m[v] = struct{}{}]: an assignment to an entry in a nil map
    panics. *)
Definition mapPut {A} (eq : A → A → bool) (v : A) (m : keys A)
    : option (keys A) :=
  match m with
  | None => None
  | Some l => Some (Some (if existsb (eq v) l then l else l ++ [v]))
  end.

(** [delete(m, v)]: on a nil map it does nothing. *)
Definition mapDelete {A} (eq : A → A → bool) (v : A) (m : keys A) : keys A :=
  match m with
  | None => None
  | Some l => Some (List.filter (λ x, negb (eq v x)) l)
  end.

(** [_, exists := m[v]] *)
Definition mapHas {A} (eq : A → A → bool) (v : A) (m : keys A) : bool :=
  match m with
  | None => false
  | Some l => existsb (eq v) l
  end.

(** [func (s *Set[T]) Add(elements ...T)]; the struct has the one field
    [elements], and is modelled by it. *)
Fixpoint Add {A} (eq : A → A → bool) (s : keys A) (elements : list A)
    : option (keys A) :=
  match elements with
  | [] => Some s
  | elem :: rest => s' ← mapPut eq elem s; Add eq s' rest
  end.

(** [func (s *Set[T]) Remove(elements ...T)] *)
Fixpoint Remove {A} (eq : A → A → bool) (s : keys A) (elements : list A)
    : keys A :=
  match elements with
  | [] => s
  | elem :: rest => Remove eq (mapDelete eq elem s) rest
  end.

(** [func (s *Set[T]) Contains(element T) bool] *)
Definition Contains {A} (eq : A → A → bool) (s : keys A) (element : A) : bool :=
  mapHas eq element s.

(** [func (s *Set[T]) Size() int] *)
Definition Size {A} (s : keys A) : Z :=
  match s with
  | None => 0
  | Some l => Z.of_nat (List.length l)
  end.

(** The errors of [NewSet]: [fmt.Errorf("values slice is empty")] and
    [fmt.Errorf("error parsing %q as <type>: %v", s, err)]. *)
Inductive error :=
| ErrEmpty
| ErrParsing (s : string) (type : string).

(** The value [NewSet] returns as a [ds.DSInterface]: a set of integers
    of one of eight types, of floats of one of two, or of strings. *)
Inductive DSInterface :=
| IntSet (type : string) (elements : keys Z)
| FloatSet (type : string) (elements : keys float)
| StringSet (elements : keys string).

(** The conversions [int8(v)], ..., [uint32(v)] of 64-bit integers. *)
Definition toInt (bits : Z) (v : Z) : Z :=
  (v + 2 ^ (bits - 1)) mod 2 ^ bits - 2 ^ (bits - 1).

Definition toUint (bits : Z) (v : Z) : Z := v mod 2 ^ bits.

Section Strconv.

(** [strconv.ParseInt(s, 10, bitSize)], [strconv.ParseUint(s, 10, bitSize)]
    and [strconv.ParseFloat(s, bitSize)]: the value, or an error
    ([None]); and the conversion [float32(v)]. *)
Variable ParseInt : string → Z → option Z.
Variable ParseUint : string → Z → option Z.
Variable ParseFloat : string → Z → option float.
Variable float32 : float → float.

(** The loop of each branch of [NewSet],
    [for _, s := range values {
       v, err := parse(s); if err != nil { return nil, fmt.Errorf(...) }
       se.elements[conv(v)] = struct{}{} }]. *)
Fixpoint fill {A B} (parse : string → option B) (conv : B → A)
    (eq : A → A → bool) (type : string) (values : list string) (se : keys A)
    : option (error + keys A) :=
  match values with
  | [] => Some (inr se)
  | s :: rest =>
      match parse s with
      | None => Some (inl (ErrParsing s type))
      | Some v => se' ← mapPut eq (conv v) se; fill parse conv eq type rest se'
      end
  end.

(** [math.MaxFloat32] *)
Definition MaxFloat32 : float := 0x1.fffffep+127%float.

(** [se := &Set[T]{}; for ... ; set = se] of one branch: the struct
    literal leaves [elements] nil. *)
Definition branch {A B} (parse : string → option B) (conv : B → A)
    (eq : A → A → bool) (type : string) (wrap : keys A → DSInterface)
    (values : list string) : option (error + DSInterface) :=
  r ← fill parse conv eq type values None;
  match r with
  | inl e => Some (inl e)
  | inr se => Some (inr (wrap se))
  end.

(** [func NewSet(values []string) (ds.DSInterface, error)] *)
Definition NewSet (values : list string) : option (error + DSInterface) :=
  match values with
  | [] => Some (inl ErrEmpty)
  | s :: _ =>
      match ParseInt s 64 with
      | Some i =>
          if (-128 <=? i) && (i <=? 127) then
            branch (λ s, ParseInt s 8) (toInt 8) Z.eqb "int8"
              (IntSet "int8") values
          else if (-32768 <=? i) && (i <=? 32767) then
            branch (λ s, ParseInt s 16) (toInt 16) Z.eqb "int16"
              (IntSet "int16") values
          else if (-2147483648 <=? i) && (i <=? 2147483647) then
            branch (λ s, ParseInt s 32) (toInt 32) Z.eqb "int32"
              (IntSet "int32") values
          else
            branch (λ s, ParseInt s 64) id Z.eqb "int64"
              (IntSet "int64") values
      | None =>
          match ParseUint s 64 with
          | Some u =>
              if u <=? 255 then
                branch (λ s, ParseUint s 8) (toUint 8) Z.eqb "uint8"
                  (IntSet "uint8") values
              else if u <=? 65535 then
                branch (λ s, ParseUint s 16) (toUint 16) Z.eqb "uint16"
                  (IntSet "uint16") values
              else if u <=? 4294967295 then
                branch (λ s, ParseUint s 32) (toUint 32) Z.eqb "uint32"
                  (IntSet "uint32") values
              else
                branch (λ s, ParseUint s 64) id Z.eqb "uint64"
                  (IntSet "uint64") values
          | None =>
              match ParseFloat s 64 with
              | Some f =>
                  if ((- MaxFloat32 <=? f) && (f <=? MaxFloat32))%float then
                    branch (λ s, ParseFloat s 32) float32 PrimFloat.eqb
                      "float32" (FloatSet "float32") values
                  else
                    branch (λ s, ParseFloat s 64) id PrimFloat.eqb
                      "float64" (FloatSet "float64") values
              | None =>
                  branch Some id String.eqb "string" StringSet values
              end
          end
      end
  end.

End Strconv.
End GoSet.

(** ** The hash: [internal/datastructures/hash/hash.go] *)
Module Hash.

(** The hash at the instance the package declares, [Hash[string, any]].
    A value of type [any] holds a value of some dynamic type, of which
    [HIncrBy] and [HIncrByFloat] tell three apart. *)
Inductive any :=
| VInt64 (v : Z)
| VFloat64 (v : float)
| VString (v : string)
| VOther (dynamicType : nat).

(** The struct has the one field that matters here, [data map[K]V]. *)
Abbreviation Hash := (gmap string any).

(** [func NewHash[K, V]() *Hash[K, V]] *)
Definition NewHash : Hash := ∅.

(** [func (h *Hash[K, V]) HSet(field K, value V) int] *)
Definition HSet (h : Hash) (field : string) (value : any) : Hash * Z :=
  (<[field := value]> h,
   match h !! field with Some _ => 0 | None => 1 end).

(** [func (h *Hash[K, V]) HGet(field K) (V, bool)]; the zero value of
    [any] is nil ([None]). *)
Definition HGet (h : Hash) (field : string) : option any * bool :=
  match h !! field with
  | Some value => (Some value, true)
  | None => (None, false)
  end.

(** [func (h *Hash[K, V]) HDel(fields ...K) int] *)
Fixpoint HDelLoop (h : Hash) (deleted : Z) (fields : list string) : Hash * Z :=
  match fields with
  | [] => (h, deleted)
  | field :: rest =>
      match h !! field with
      | Some _ => HDelLoop (delete field h) (deleted + 1) rest
      | None => HDelLoop h deleted rest
      end
  end.

Definition HDel (h : Hash) (fields : list string) : Hash * Z :=
  HDelLoop h 0 fields.

(** [func (h *Hash[K, V]) HExists(field K) bool] *)
Definition HExists (h : Hash) (field : string) : bool :=
  match h !! field with Some _ => true | None => false end.

(** [func (h *Hash[K, V]) HLen() int] *)
Definition HLen (h : Hash) : Z := Z.of_nat (base.size h).

(** [func (h *Hash[K, V]) HGetAll() map[K]V]: a copy of the map. *)
Definition HGetAll (h : Hash) : gmap string any := h.

(** The sum of two [int64], as the machine computes it. *)
Definition int64 (z : Z) : Z := (z + 2 ^ 63) mod 2 ^ 64 - 2 ^ 63.

Definition error := option string.

Section Strconv.

(** [strconv.ParseInt(v, 10, 64)] and [strconv.ParseFloat(v, 64)]: the
    value, or an error ([None]). *)
Variable ParseInt : string → option Z.
Variable ParseFloat : string → option float.

(** [func (h *Hash[K, V]) HIncrBy(field K, increment int64) (int64, error)] *)
Definition HIncrBy (h : Hash) (field : string) (increment : Z)
    : Hash * (Z * error) :=
  let current : option Z :=
    match h !! field with
    | Some (VInt64 v) => Some v
    | Some (VString v) => ParseInt v
    | Some _ => None
    | None => Some 0
    end in
  match current with
  | None => (h, (0, Some "hash value is not an integer"))
  | Some current =>
      let current := int64 (current + increment) in
      (<[field := VInt64 current]> h, (current, None))
  end.

(** [func (h *Hash[K, V]) HIncrByFloat(field K, increment float64)
    (float64, error)] *)
Definition HIncrByFloat (h : Hash) (field : string) (increment : float)
    : Hash * (float * error) :=
  let current : option float :=
    match h !! field with
    | Some (VFloat64 v) => Some v
    | Some (VString v) => ParseFloat v
    | Some _ => None
    | None => Some 0%float
    end in
  match current with
  | None => (h, (0%float, Some "hash value is not a float"))
  | Some current =>
      let current := (current + increment)%float in
      (<[field := VFloat64 current]> h, (current, None))
  end.

End Strconv.
End Hash.

(** ** The sorted set: [internal/datastructures/sortedsets/sortedset.go] *)
Module SortedSet.

(** The element type is fixed at [string], the instance the package
    declares ([SortedSet[string]]); Go orders strings bytewise, as
    [String.ltb] does. *)
Definition maxLevel : nat := 32.

Record skipListNode := mkNode {
  member : string;
  score : float;
  forward : list (option addr)
}.

Definition newSkipListNode (lvl : nat) (sc : float) (m : string) : skipListNode :=
  {| member := m; score := sc; forward := replicate lvl None |}.

(** The struct and, in [heap], the nodes its pointers lead into.  [rnd]
    is the generator, seen as the stream of the outcomes of the test
    [ss.rnd.Float64() < probability] still to come.  [level] and [length]
    are Go [int]s; they count levels and live nodes and cannot wrap. *)
Record SortedSet := mkSortedSet {
  dict : gmap string addr;
  header : addr;
  level : nat;
  length : Z;
  rnd : nat → bool;
  heap : gmap addr skipListNode
}.

(** [NewSortedSet], seeded with the stream [r]; [*new(T)] is the empty
    string. *)
Definition NewSortedSet (r : nat → bool) : SortedSet :=
  let hdr : addr := fresh (∅ : gset addr) in
  {| dict := ∅; header := hdr; level := 1; length := 0; rnd := r;
     heap := {[ hdr := newSkipListNode maxLevel neg_infinity "" ]} |}.

(** [randomLevel]: the loop test draws first and looks at [level] second,
    so every test consumes one draw.  [level] grows at each turn and the
    test fails at [maxLevel] at the latest: [maxLevel] tests are enough. *)
Fixpoint randomLevelLoop (tests : nat) (r : nat → bool) (lvl : nat)
    : nat * (nat → bool) :=
  match tests with
  | O => (lvl, r)
  | S t =>
      let r' := λ n, r (S n) in
      if r O && bool_decide (lvl < maxLevel)%nat
      then randomLevelLoop t r' (S lvl)
      else (lvl, r')
  end.

Definition randomLevel (r : nat → bool) : nat * (nat → bool) :=
  randomLevelLoop maxLevel r 1.

(** The test of the three search loops:
    [n.score < score || (n.score == score && n.member < member)]. *)
Definition less (n : skipListNode) (sc : float) (m : string) : bool :=
  (score n <? sc)%float || ((score n =? sc)%float && String.ltb (member n) m).

(** [x.forward[i]]: panics when [x] is nil or dangling or [i] is out of
    range. *)
Definition getForward (h : gmap addr skipListNode) (x : addr) (i : nat)
    : option (option addr) :=
  n ← h !! x; forward n !! i.

(** [x.forward[i] = v] *)
Definition setForward (h : gmap addr skipListNode) (x : addr) (i : nat)
    (v : option addr) : option (gmap addr skipListNode) :=
  n ← h !! x;
  if decide (i < List.length (forward n))%nat
  then Some (<[x := mkNode (member n) (score n) (<[i := v]> (forward n))]> h)
  else None.

(** [update[i] = x] on a slice. *)
Definition setUpdate (update : list (option addr)) (i : nat) (x : addr)
    : option (list (option addr)) :=
  if decide (i < List.length update)%nat then Some (<[i := Some x]> update) else None.

(** [update[i]] about to be dereferenced. *)
Definition getUpdate (update : list (option addr)) (i : nat) : option addr :=
  u ← update !! i; u.

(** Every walk along one level visits a node at most once in a list
    without cycles, so it makes at most as many steps as the heap has
    nodes; the loops below carry that many units of fuel and give up
    ([None]) beyond. *)
Definition fuelOf (h : gmap addr skipListNode) : nat := S (base.size h).

(** The inner loop of the searches:
    [for x.forward[i] != nil && less(x.forward[i]) { x = x.forward[i] }]. *)
Fixpoint advance (fuel : nat) (h : gmap addr skipListNode) (i : nat)
    (sc : float) (m : string) (x : addr) : option addr :=
  match fuel with
  | O => None
  | S f =>
      nx ← getForward h x i;
      match nx with
      | None => Some x
      | Some y =>
          ny ← h !! y;
          if less ny sc m then advance f h i sc m y else Some x
      end
  end.

(** The outer loop of [insertNode] and [deleteNode], [k] being [i + 1]:
    [for i := ss.level - 1; i >= 0; i-- { ...; update[i] = x }]. *)
Fixpoint search (h : gmap addr skipListNode) (sc : float) (m : string)
    (k : nat) (x : addr) (update : list (option addr))
    : option (list (option addr)) :=
  match k with
  | O => Some update
  | S i =>
      x' ← advance (fuelOf h) h i sc m x;
      update' ← setUpdate update i x';
      search h sc m i x' update'
  end.

(** [for i := ss.level; i < level; i++ { update[i] = ss.header }],
    with [cnt] turns left. *)
Fixpoint raiseLoop (update : list (option addr)) (hdr : addr) (i cnt : nat)
    : option (list (option addr)) :=
  match cnt with
  | O => Some update
  | S c => update' ← setUpdate update i hdr; raiseLoop update' hdr (S i) c
  end.

(** [for i := 0; i < level; i++ {
       newNode.forward[i] = update[i].forward[i]
       update[i].forward[i] = newNode }], with [cnt] turns left. *)
Fixpoint linkLoop (h : gmap addr skipListNode) (update : list (option addr))
    (newNode : addr) (i cnt : nat) : option (gmap addr skipListNode) :=
  match cnt with
  | O => Some h
  | S c =>
      u ← getUpdate update i;
      v ← getForward h u i;
      h1 ← setForward h newNode i v;
      h2 ← setForward h1 u i (Some newNode);
      linkLoop h2 update newNode (S i) c
  end.

(** [func (ss *SortedSet[T]) insertNode(score float64, member T)] *)
Definition insertNode (ss : SortedSet) (sc : float) (m : string)
    : option SortedSet :=
  update ← search (heap ss) sc m (level ss) (header ss) (replicate maxLevel None);
  let '(lvl, rnd') := randomLevel (rnd ss) in
  update ← (if decide (level ss < lvl)%nat
            then raiseLoop update (header ss) (level ss) (lvl - level ss)
            else Some update);
  let level' := if decide (level ss < lvl)%nat then lvl else level ss in
  let newNode := fresh (dom (heap ss)) in
  let h := <[newNode := newSkipListNode lvl sc m]> (heap ss) in
  h' ← linkLoop h update newNode 0 lvl;
  Some {| dict := <[m := newNode]> (dict ss); header := header ss;
          level := level'; length := length ss + 1; rnd := rnd'; heap := h' |}.

(** [for i := 0; i < ss.level; i++ {
       if update[i].forward[i] == node {
         update[i].forward[i] = node.forward[i] } }], with [cnt] turns
    left. *)
Fixpoint unlinkLoop (h : gmap addr skipListNode) (update : list (option addr))
    (node : addr) (i cnt : nat) : option (gmap addr skipListNode) :=
  match cnt with
  | O => Some h
  | S c =>
      u ← getUpdate update i;
      f ← getForward h u i;
      h' ← (if decide (f = Some node)
            then v ← getForward h node i; setForward h u i v
            else Some h);
      unlinkLoop h' update node (S i) c
  end.

(** [for ss.level > 1 && ss.header.forward[ss.level-1] == nil {
       ss.level-- }] *)
Fixpoint shrinkLoop (h : gmap addr skipListNode) (hdr : addr) (lvl : nat)
    : option nat :=
  match lvl with
  | O => Some O
  | S p =>
      if decide (1 < S p)%nat
      then f ← getForward h hdr p;
           match f with
           | None => shrinkLoop h hdr p
           | Some _ => Some (S p)
           end
      else Some (S p)
  end.

(** [func (ss *SortedSet[T]) deleteNode(node *skipListNode[T])] *)
Definition deleteNode (ss : SortedSet) (node : addr) : option SortedSet :=
  nd ← heap ss !! node;
  update ← search (heap ss) (score nd) (member nd) (level ss) (header ss)
             (replicate maxLevel None);
  h ← unlinkLoop (heap ss) update node 0 (level ss);
  lvl ← shrinkLoop h (header ss) (level ss);
  nd' ← h !! node;
  Some {| dict := delete (member nd') (dict ss); header := header ss;
          level := lvl; length := length ss - 1; rnd := rnd ss; heap := h |}.

(** One turn of the loop of [ZAdd]; [node.score != score] is the negation
    of the floating-point [==]. *)
Definition ZAdd1 (st : SortedSet * Z) (p : string * float)
    : option (SortedSet * Z) :=
  let '(ss, added) := st in
  let '(m, sc) := p in
  match dict ss !! m with
  | Some node =>
      nd ← heap ss !! node;
      if negb (score nd =? sc)%float
      then ss1 ← deleteNode ss node;
           ss2 ← insertNode ss1 sc m;
           Some (ss2, added)
      else Some (ss, added)
  | None =>
      ss1 ← insertNode ss sc m; Some (ss1, added + 1)
  end.

(** [func (ss *SortedSet[T]) ZAdd(memberScores map[T]float64) int].
    Go walks a map in an order of its choosing: [memberScores] is the map
    as the list of its pairs in the order of this walk (the keys of a map
    are distinct). *)
Fixpoint ZAddLoop (st : SortedSet * Z) (memberScores : list (string * float))
    : option (SortedSet * Z) :=
  match memberScores with
  | [] => Some st
  | p :: rest => st' ← ZAdd1 st p; ZAddLoop st' rest
  end.

Definition ZAdd (ss : SortedSet) (memberScores : list (string * float))
    : option (SortedSet * Z) :=
  ZAddLoop (ss, 0) memberScores.

(** [func (ss *SortedSet[T]) ZRem(members ...T) int] *)
Fixpoint ZRemLoop (st : SortedSet * Z) (members : list string)
    : option (SortedSet * Z) :=
  match members with
  | [] => Some st
  | m :: rest =>
      let '(ss, removed) := st in
      match dict ss !! m with
      | Some node => ss1 ← deleteNode ss node; ZRemLoop (ss1, removed + 1) rest
      | None => ZRemLoop (ss, removed) rest
      end
  end.

Definition ZRem (ss : SortedSet) (members : list string)
    : option (SortedSet * Z) :=
  ZRemLoop (ss, 0) members.

(** [func (ss *SortedSet[T]) ZScore(member T) (float64, bool)] *)
Definition ZScore (ss : SortedSet) (m : string) : option (float * bool) :=
  match dict ss !! m with
  | None => Some (0%float, false)
  | Some node => nd ← heap ss !! node; Some (score nd, true)
  end.

(** The loops of [findNodeIndex]: as [advance] and [search], with [rank]
    counted up on level 0 only. *)
Fixpoint advanceRank (fuel : nat) (h : gmap addr skipListNode) (i : nat)
    (sc : float) (m : string) (x : addr) (rank : Z) : option (addr * Z) :=
  match fuel with
  | O => None
  | S f =>
      nx ← getForward h x i;
      match nx with
      | None => Some (x, rank)
      | Some y =>
          ny ← h !! y;
          if less ny sc m
          then advanceRank f h i sc m y (if decide (i = O) then rank + 1 else rank)
          else Some (x, rank)
      end
  end.

Fixpoint searchRank (h : gmap addr skipListNode) (sc : float) (m : string)
    (k : nat) (x : addr) (rank : Z) : option (addr * Z) :=
  match k with
  | O => Some (x, rank)
  | S i =>
      '(x', rank') ← advanceRank (fuelOf h) h i sc m x rank;
      searchRank h sc m i x' rank'
  end.

(** [func (ss *SortedSet[T]) findNodeIndex(node *skipListNode[T]) int] *)
Definition findNodeIndex (ss : SortedSet) (node : addr) : option Z :=
  nd ← heap ss !! node;
  '(x, rank) ← searchRank (heap ss) (score nd) (member nd) (level ss) (header ss) 0;
  f ← getForward (heap ss) x 0;
  if decide (f = Some node) then Some rank else Some (-1).

(** [func (ss *SortedSet[T]) ZRank(member T) (int, bool)] *)
Definition ZRank (ss : SortedSet) (m : string) : option (Z * bool) :=
  match dict ss !! m with
  | None => Some (0, false)
  | Some node =>
      index ← findNodeIndex ss node;
      if decide (index = -1) then Some (0, false) else Some (index, true)
  end.

(** [func (ss *SortedSet[T]) ZRevRank(member T) (int, bool)] *)
Definition ZRevRank (ss : SortedSet) (m : string) : option (Z * bool) :=
  match dict ss !! m with
  | None => Some (0, false)
  | Some node =>
      index ← findNodeIndex ss node;
      if decide (index = -1) then Some (0, false)
      else Some (length ss - index - 1, true)
  end.

(** [func (ss *SortedSet[T]) ZCard() int] *)
Definition ZCard (ss : SortedSet) : Z := length ss.

(** [func adjustRangeIndices(start, stop, length int) (int, int)].  With
    [length >= 0] and a negative index the one sum cannot overflow. *)
Definition adjustRangeIndices (start stop len : Z) : Z * Z :=
  let start := if start <? 0 then len + start else start in
  let stop := if stop <? 0 then len + stop else stop in
  let start := if start <? 0 then 0 else start in
  let stop := if len <=? stop then len - 1 else stop in
  (start, stop).

(** [func boolToInt(b bool) int] *)
Definition boolToInt (b : bool) : Z := if b then 1 else 0.

(** The loop of [ZRange],
    [for i := 0; x != nil && i <= stop; i++ { ... x = x.forward[0] }].
    It makes at most [stop + 1] turns; [fuel] is set to one more. *)
Fixpoint rangeLoop (fuel : nat) (h : gmap addr skipListNode) (x : option addr)
    (i start stop : Z) (withScores : bool) (result : list (string + float))
    : option (list (string + float)) :=
  match fuel with
  | O => None
  | S f =>
      match x with
      | None => Some result
      | Some a =>
          if i <=? stop then
            nd ← h !! a;
            let result :=
              if start <=? i
              then result ++ [inl (member nd)]
                          ++ (if withScores then [inr (score nd)] else [])
              else result in
            nx ← forward nd !! O;
            rangeLoop f h nx (i + 1) start stop withScores result
          else Some result
      end
  end.

(** [func (ss *SortedSet[T]) ZRange(start, stop int, withScores bool)
    []interface{}]; an element of the result is a member or a score.  The
    capacity that [make] is given, [(stop-start+1)*(1+boolToInt(withScores))],
    is positive past the test and does not show in the result. *)
Definition ZRange (ss : SortedSet) (start stop : Z) (withScores : bool)
    : option (list (string + float)) :=
  let len := length ss in
  let '(start, stop) := adjustRangeIndices start stop len in
  if bool_decide (start > stop) || bool_decide (start >= len) then Some []
  else
    x ← getForward (heap ss) (header ss) 0;
    rangeLoop (S (Z.to_nat (stop + 1))) (heap ss) x 0 start stop withScores [].

(** *** Observations and representation *)

(** The sort key of a node and the order the searches compare by. *)
Definition key := (float * string)%type.

Definition keyLt (k1 k2 : key) : bool :=
  (k1.1 <? k2.1)%float || ((k1.1 =? k2.1)%float && String.ltb k1.2 k2.2).

Definition keyOf (h : gmap addr skipListNode) (a : addr) : key :=
  match h !! a with
  | Some n => (score n, member n)
  | None => (nan, "")
  end.

(** The number of levels a node takes part in: [len(n.forward)]. *)
Definition height (h : gmap addr skipListNode) (a : addr) : nat :=
  match h !! a with
  | Some n => List.length (forward n)
  | None => O
  end.

(** The traversal of level [i] from [x] on: the nodes met, in order,
    until [nil]. *)
Fixpoint walk (fuel : nat) (h : gmap addr skipListNode) (i : nat)
    (x : option addr) : option (list addr) :=
  match fuel with
  | O => None
  | S f =>
      match x with
      | None => Some []
      | Some a => nx ← getForward h a i; l ← walk f h i nx; Some (a :: l)
      end
  end.

(** The in-order traversal of level 0, the header left out. *)
Definition traverse (ss : SortedSet) : option (list addr) :=
  x ← getForward (heap ss) (header ss) 0;
  walk (fuelOf (heap ss)) (heap ss) 0 x.

(** The same, as the list of the (score, member) pairs visited. *)
Definition entries (ss : SortedSet) : option (list key) :=
  match traverse ss with
  | Some l => Some (keyOf (heap ss) <$> l)
  | None => None
  end.

(** The same, as the list of the members visited. *)
Definition members (ss : SortedSet) : option (list string) :=
  match entries ss with
  | Some l => Some (snd <$> l)
  | None => None
  end.

(** The last node of [x :: l]. *)
Definition lastOr (x : addr) (l : list addr) : addr := foldl (λ _ y, y) x l.

(** [seg h i x l]: on level [i], the nodes after [x] are those of [l], in
    this order.  [chain] adds that the last one points to nil. *)
Fixpoint seg (h : gmap addr skipListNode) (i : nat) (x : addr) (l : list addr)
    : Prop :=
  match l with
  | [] => True
  | y :: l' => getForward h x i = Some (Some y) ∧ seg h i y l'
  end.

Fixpoint chain (h : gmap addr skipListNode) (i : nat) (x : addr) (l : list addr)
    : Prop :=
  match l with
  | [] => getForward h x i = Some None
  | y :: l' => getForward h x i = Some (Some y) ∧ chain h i y l'
  end.

(** The nodes of [l] that take part in level [i]. *)
Definition atLevel (h : gmap addr skipListNode) (i : nat) (l : list addr)
    : list addr :=
  filter (λ a, (i < height h a)%nat) l.

(** Keys that go up strictly. *)
Definition ascending (ks : list key) : Prop :=
  StronglySorted (λ k1 k2, keyLt k1 k2 = true) ks.

(** [Rep ss ns]: the sorted set is in order and holds the nodes [ns], in
    this order.
    - the header and the nodes are distinct; the header has [maxLevel]
      levels, a node between one and [level];
    - on every level, the list from the header is made of the nodes of
      [ns] that take part in the level, in the order of [ns];
    - the keys go up strictly along [ns], and no score is a NaN;
    - [dict] maps the member of each node of [ns] to the node, and holds
      nothing else;
    - [length] is the number of nodes. *)
Record Rep (ss : SortedSet) (ns : list addr) : Prop := mkRep {
  rep_nodup : NoDup (header ss :: ns);
  rep_header : height (heap ss) (header ss) = maxLevel;
  rep_level : (1 ≤ level ss ≤ maxLevel)%nat;
  rep_heights : ∀ a, a ∈ ns → (1 ≤ height (heap ss) a ≤ level ss)%nat;
  rep_chain : ∀ i, (i < maxLevel)%nat →
    chain (heap ss) i (header ss) (atLevel (heap ss) i ns);
  rep_sorted : ascending (keyOf (heap ss) <$> ns);
  rep_nan : ∀ a, a ∈ ns → is_nan (keyOf (heap ss) a).1 = false;
  rep_dict : ∀ m a, dict ss !! m = Some a ↔ a ∈ ns ∧ (keyOf (heap ss) a).2 = m;
  rep_length : length ss = Z.of_nat (List.length ns)
}.

(** The test of the searches, on the node at [a]. *)
Definition lessAt (h : gmap addr skipListNode) (sc : float) (m : string)
    (a : addr) : bool :=
  keyLt (keyOf h a) (sc, m).

(** The node a search stops at on level [i], when [lo] holds the nodes
    that pass the test: the last one of them on the level, or the
    header. *)
Definition predAt (h : gmap addr skipListNode) (hdr : addr) (lo : list addr)
    (i : nat) : addr :=
  lastOr hdr (atLevel h i lo).

(** Two heaps with the same nodes, up to their [forward] pointers. *)
Definition sameNodes (h h' : gmap addr skipListNode) : Prop :=
  dom h' = dom h
  ∧ ∀ a, keyOf h' a = keyOf h a ∧ height h' a = height h a.

(** From [ss], holding the nodes [ns], to [ss'], holding [ns']: the
    header stays, no node leaves the heap, no node of the heap of [ss] has
    its member or its score changed, and a node of [ns'] that is not one
    of [ns] is a node the heap of [ss] did not have. *)
Definition evolves (ss : SortedSet) (ns : list addr) (ss' : SortedSet)
    (ns' : list addr) : Prop :=
  header ss' = header ss
  ∧ dom (heap ss) ⊆ dom (heap ss')
  ∧ (∀ b, b ∈ dom (heap ss) → keyOf (heap ss') b = keyOf (heap ss) b)
  ∧ (∀ b, b ∈ ns' → b ∈ ns ∨ b ∉ dom (heap ss)).

(** What [ZAdd] does with one pair [(m, sc)], from [ss] to [ss']:
    - a member that is new is held by a new node, with the score [sc];
    - a member whose score is [sc] already keeps its node;
    - a member whose score differs is held by a new node, with the score
      [sc]; the node that held it is out of the list, and its score is
      what it was. *)
Definition addedTo (ss : SortedSet) (ss' : SortedSet) (ns' : list addr)
    (m : string) (sc : float) : Prop :=
  match dict ss !! m with
  | None =>
      ∃ n, dict ss' !! m = Some n ∧ (n ∉ dom (heap ss)) ∧ n ∈ ns'
           ∧ keyOf (heap ss') n = (sc, m)
  | Some a =>
      if ((keyOf (heap ss) a).1 =? sc)%float
      then dict ss' !! m = Some a ∧ a ∈ ns'
           ∧ keyOf (heap ss') a = keyOf (heap ss) a
      else ∃ n, dict ss' !! m = Some n ∧ (n ∉ dom (heap ss)) ∧ n ∈ ns'
                ∧ keyOf (heap ss') n = (sc, m)
                ∧ (a ∉ ns') ∧ keyOf (heap ss') a = keyOf (heap ss) a
  end.

(** The number of pairs whose member [ss] does not hold. *)
Definition newMembers (ss : SortedSet) (memberScores : list (string * float))
    : Z :=
  Z.of_nat (List.length (filter (λ p, dict ss !! p.1 = None) memberScores)).

(** Sequences of calls of the two mutators. *)
Inductive op :=
| OpZAdd (memberScores : list (string * float))
| OpZRem (members : list string).

Definition step (ss : SortedSet) (o : op) : option SortedSet :=
  match o with
  | OpZAdd ps => fst <$> ZAdd ss ps
  | OpZRem ms => fst <$> ZRem ss ms
  end.

Fixpoint run (ss : SortedSet) (ops : list op) : option SortedSet :=
  match ops with
  | [] => Some ss
  | o :: ops' => ss' ← step ss o; run ss' ops'
  end.

(** No score passed to [ZAdd] is a NaN. *)
Definition noNaN (o : op) : Prop :=
  match o with
  | OpZAdd ps => Forall (λ p, is_nan p.2 = false) ps
  | OpZRem _ => True
  end.

(** The (score, member) pairs a traversal of level 0 visits after the
    calls [ops] on a new set. *)
Definition entriesAfter (r : nat → bool) (ops : list op) : option (list key) :=
  match run (NewSortedSet r) ops with
  | Some ss => entries ss
  | None => None
  end.

(** The list and the index agree: the members a traversal of level 0
    visits are distinct, they are the keys of [dict], and [length] is
    their number and the number of keys. *)
Definition agree (ss : SortedSet) : Prop :=
  ∃ l, members ss = Some l
       ∧ NoDup l
       ∧ list_to_set l = dom (dict ss)
       ∧ length ss = Z.of_nat (List.length l)
       ∧ length ss = Z.of_nat (base.size (dict ss)).

(** [linked h x l]: from the pointer [x] on, level 0 is made of the nodes
    of [l], in this order, and ends with nil. *)
Fixpoint linked (h : gmap addr skipListNode) (x : option addr) (l : list addr)
    : Prop :=
  match l with
  | [] => x = None
  | y :: l' => x = Some y ∧ ∃ nx, getForward h y 0 = Some nx ∧ linked h nx l'
  end.

(** Sets for the examples.  [afterNaN] is the set after
    [ZAdd({"a": NaN})] and [ZAdd({"b": 2})]; [twoLevels] is the set after
    [ZAdd({"a": 1})] and [ZAdd({"b": 2})] when the generator gives the
    node of ["a"] two levels and the node of ["b"] one. *)
Definition afterNaN : SortedSet :=
  default (NewSortedSet (λ _, false))
    (run (NewSortedSet (λ _, false))
       [OpZAdd [("a", nan)]; OpZAdd [("b", 2%float)]]).

Definition twoLevels : SortedSet :=
  default (NewSortedSet (λ _, false))
    (run (NewSortedSet (λ n, bool_decide (n = O)))
       [OpZAdd [("a", 1%float)]; OpZAdd [("b", 2%float)]]).

(** [afterNaNTwice] is the set after [ZAdd({"a": NaN})],
    [ZAdd({"b": 1})] and [ZAdd({"a": NaN})] again. *)
Definition afterNaNTwice : SortedSet :=
  default (NewSortedSet (λ _, false))
    (run (NewSortedSet (λ _, false))
       [OpZAdd [("a", nan)]; OpZAdd [("b", 1%float)]; OpZAdd [("a", nan)]]).

(** The result of [ZRange] in the words of the specification: negative
    indices count from the end, [stop] is clamped to [length - 1], the
    result is empty when [start > stop] or [start >= length], and else it
    is made of the members at the positions from [start] to [stop], each
    followed by its score when [withScores] is set. *)
Definition render (withScores : bool) (k : key) : list (string + float) :=
  inl k.2 :: (if withScores then [inr k.1] else []).

Fixpoint between (lo hi : Z) (pos : Z) (l : list key) : list key :=
  match l with
  | [] => []
  | k :: l' =>
      (if bool_decide (lo ≤ pos ≤ hi) then [k] else [])
      ++ between lo hi (pos + 1) l'
  end.

Definition rangeByIndex (l : list key) (start stop : Z) (withScores : bool)
    : list (string + float) :=
  let len := Z.of_nat (List.length l) in
  let start := if bool_decide (start < 0) then len + start else start in
  let stop := if bool_decide (stop < 0) then len + stop else stop in
  let stop := Z.min stop (len - 1) in
  if bool_decide (stop < start ∨ len ≤ start) then []
  else between start stop 0 l ≫= render withScores.

End SortedSet.

(** * Properties of the store *)
Module StoreProofs.
Import Store.

Lemma newVar_fresh s : cells s !! newVar s = None.
Proof.
  apply not_elem_of_dom. unfold newVar. apply is_fresh.
Qed.

Lemma newVar_no_record s : wf s → expires s !! newVar s = None.
Proof.
  intros Hwf. apply not_elem_of_dom. intros Hin.
  apply Hwf in Hin. revert Hin. unfold newVar. apply is_fresh.
Qed.

Lemma wf_NewStore : wf NewStore.
Proof. unfold wf, NewStore; simpl. set_solver. Qed.

Lemma wf_Put s k v d now : wf s → wf (Put s k v d now).
Proof.
  unfold wf, Put; intros Hwf.
  destruct (0 <? d); simpl; rewrite ?dom_insert; set_solver.
Qed.

Lemma wf_Get s k now : wf s → wf (Get s k now).1.
Proof. unfold wf, Get; intros Hwf. by destruct (store s !! k). Qed.

Lemma wf_Delete s k : wf s → wf (Delete s k).1.
Proof. unfold wf, Delete; intros Hwf. by destruct (store s !! k). Qed.

Lemma wf_SetExpiry s k d now : wf s → wf (SetExpiry s k d now).
Proof.
  unfold wf, SetExpiry; intros Hwf.
  destruct (store s !! k); simpl; rewrite ?dom_insert; set_solver.
Qed.

Lemma wf_step s o : wf s → wf (step s o).
Proof.
  destruct o; simpl;
    auto using wf_Put, wf_Get, wf_Delete, wf_SetExpiry.
Qed.

Lemma wf_foldl ops s : wf s → wf (foldl step s ops).
Proof.
  revert s. induction ops as [|o ops IH]; simpl; intros s Hs; [done|].
  apply IH, wf_step, Hs.
Qed.

Lemma wf_run ops : wf (run ops).
Proof. apply wf_foldl, wf_NewStore. Qed.

(** [GetExpiry] looks a fresh address up: it finds nothing, whatever
    the key and whatever was recorded. *)
Lemma GetExpiry_miss s k : wf s → GetExpiry s k = (0, false).
Proof.
  intros Hwf. unfold GetExpiry.
  destruct (store s !! k); [|done].
  by rewrite newVar_no_record.
Qed.

(** C1, as the code has it.  After [Put(k, v, d)] with a positive [d],
    [GetExpiry(k)] answers [(0, false)], not [(now + d, true)]; and the
    record that [Put] wrote holds the duration [d] itself, where
    [SetExpiry] writes [now + d]. *)
Theorem Put_then_GetExpiry (s : Store) (k : string) (v : T) (d now : Z) :
  wf s → 0 < d < 2 ^ 63 →
  GetExpiry (Put s k v d now) k = (0, false)
  ∧ expires (Put s k v d now) !! newVar s = Some d.
Proof.
  intros Hwf [Hd1 Hd2]. split.
  - apply GetExpiry_miss, wf_Put, Hwf.
  - unfold Put.
    destruct (Z.ltb_spec 0 d) as [_|]; [|lia]. simpl.
    rewrite lookup_insert_eq. f_equal.
    unfold uint64. apply Z.mod_small. lia.
Qed.

(** Scenario 5, on a new store. *)
Lemma Put_then_GetExpiry_witness :
  GetExpiry (Put NewStore "k" 7%nat 1000 1700000000000) "k" = (0, false)
  ∧ expires (Put NewStore "k" 7%nat 1000 1700000000000) !! newVar NewStore
    = Some 1000.
Proof.
  apply (Put_then_GetExpiry NewStore "k" 7%nat 1000 1700000000000).
  - exact wf_NewStore.
  - lia.
Defined.

(** C2 as stated fails: a key whose recorded deadline has passed is still
    found. *)
Lemma Get_expired_counterexample :
  ¬ (∀ (ops : list op) (key : string) (now : Z) (a : addr) (deadline : Z),
       recordOf (run ops) key a deadline → deadline < now →
       (Get (run ops) key now).2.2 = false).
Proof.
  intros H.
  specialize (H [OpPut "k" 7%nat (-1) 100; OpSetExpiry "k" 1000 100]
                "k" 5000 0%nat 1100).
  assert (Hrec : recordOf (run [OpPut "k" 7%nat (-1) 100; OpSetExpiry "k" 1000 100])
                   "k" 0%nat 1100).
  { exists 7%nat. by vm_compute. }
  specialize (H Hrec ltac:(lia)). by vm_compute in H.
Qed.

(** C2, amended.  [Get] does not look at the expiry table.  A key of the
    table is found, with its value, whose last-accessed time becomes
    [now]; nothing else changes.  A key that is not in the table is not
    found, and nothing changes. *)
Theorem Get_spec (s : Store) (key : string) (now : Z) :
  match store s !! key with
  | Some v =>
      (Get s key now).2 = (Some v, true)
      ∧ lastAccessedAt (Get s key now).1 = <[v := now]> (lastAccessedAt s)
  | None =>
      (Get s key now).2 = (None, false)
      ∧ lastAccessedAt (Get s key now).1 = lastAccessedAt s
  end
  ∧ store (Get s key now).1 = store s
  ∧ expires (Get s key now).1 = expires s.
Proof.
  unfold Get. by destruct (store s !! key).
Qed.

(** C3 as stated fails: the expiry record of a deleted key stays in the
    table. *)
Lemma Delete_keeps_record_counterexample :
  ¬ (∀ (ops : list op) (key : string) (a : addr) (deadline : Z),
       recordOf (run ops) key a deadline →
       expires (Delete (run ops) key).1 !! a = None).
Proof.
  intros H.
  specialize (H [OpPut "k" 7%nat 1000 100] "k" 0%nat 1000).
  assert (Hrec : recordOf (run [OpPut "k" 7%nat 1000 100]) "k" 0%nat 1000).
  { exists 7%nat. by vm_compute. }
  specialize (H Hrec). by vm_compute in H.
Qed.

(** C3, amended.  [Delete] removes the key from the key table and leaves
    the expiry table as it is; it answers whether the key was there;
    [GetExpiry] does not find the key afterwards; a second [Delete]
    answers [false] and changes nothing. *)
Theorem Delete_spec (s : Store) (key : string) :
  (Delete s key).2 = bool_decide (is_Some (store s !! key))
  ∧ store (Delete s key).1 = delete key (store s)
  ∧ expires (Delete s key).1 = expires s
  ∧ GetExpiry (Delete s key).1 key = (0, false)
  ∧ Delete (Delete s key).1 key = ((Delete s key).1, false).
Proof.
  unfold Delete, GetExpiry.
  destruct (store s !! key) as [v|] eqn:Hk; simpl.
  - rewrite lookup_delete_eq. repeat split; try done.
  - rewrite Hk. repeat split; try done.
    symmetry. by apply delete_id.
Qed.

(** C4 as stated fails: a [Put] with a non-positive duration leaves the
    record of an earlier [Put] on the same key in the table. *)
Lemma Put_keeps_record_counterexample :
  ¬ (∀ (ops : list op) (key : string) (v : T) (d now : Z) (a : addr)
       (deadline : Z),
       d ≤ 0 → recordOf (run ops) key a deadline →
       expires (Put (run ops) key v d now) !! a = None).
Proof.
  intros H.
  specialize (H [OpPut "k" 7%nat 1000 100] "k" 7%nat 0 200 0%nat 1000).
  assert (Hrec : recordOf (run [OpPut "k" 7%nat 1000 100]) "k" 0%nat 1000).
  { exists 7%nat. by vm_compute. }
  specialize (H ltac:(lia) Hrec). by vm_compute in H.
Qed.

(** C4, amended.  A [Put] with a non-positive duration leaves the expiry
    table as it is: it adds no record and removes none.  When the table
    holds no record of the key afterwards, [GetExpiry] on the key answers
    [(0, false)]. *)
Theorem Put_no_expiry (s : Store) (k : string) (v : T) (d now : Z) :
  wf s → d ≤ 0 →
  expires (Put s k v d now) = expires s
  ∧ ((∀ a deadline, ¬ recordOf (Put s k v d now) k a deadline) →
     GetExpiry (Put s k v d now) k = (0, false)).
Proof.
  intros Hwf Hd. split.
  - unfold Put. by destruct (Z.ltb_spec 0 d) as [|_]; [lia|].
  - intros _. apply GetExpiry_miss, wf_Put, Hwf.
Qed.

(** Scenario 4, on a new store. *)
Lemma Put_no_expiry_witness :
  expires (Put NewStore "k" 7%nat 0 200) = expires NewStore
  ∧ ((∀ a deadline, ¬ recordOf (Put NewStore "k" 7%nat 0 200) "k" a deadline) →
     GetExpiry (Put NewStore "k" 7%nat 0 200) "k" = (0, false)).
Proof.
  apply (Put_no_expiry NewStore "k" 7%nat 0 200).
  - exact wf_NewStore.
  - lia.
Defined.

End StoreProofs.

(** * Further properties of the store *)
Module StoreFacts.
Import Store StoreProofs.

(** The key table after a step, for the round trips below. *)
Lemma store_Put s k v d now : store (Put s k v d now) = <[k := v]> (store s).
Proof. unfold Put. by destruct (0 <? d). Qed.

(** X1.  What [Put] stores under a key is what [Get] finds there,
    whatever the duration; [Delete] then answers [true] and [Get] finds
    nothing any more.  Keys other than [k] are answered as before the
    [Put]. *)
Theorem Put_Get_Delete (s : Store) (k : string) (v : T) (d now now' : Z) :
  (Get (Put s k v d now) k now').2 = (Some v, true)
  ∧ (Delete (Put s k v d now) k).2 = true
  ∧ (Get (Delete (Put s k v d now) k).1 k now').2 = (None, false)
  ∧ ∀ k', k' ≠ k →
      (Get (Put s k v d now) k' now').2 = (Get s k' now').2
      ∧ (Get (Delete (Put s k v d now) k).1 k' now').2 = (Get s k' now').2.
Proof.
  unfold Get, Delete. rewrite !store_Put, lookup_insert_eq. simpl.
  rewrite lookup_delete_eq. repeat split; try done.
  - rewrite lookup_insert_ne by done. by destruct (store s !! k').
  - rewrite lookup_delete_ne, lookup_insert_ne by done.
    by destruct (store s !! k').
Qed.

(** X2.  On a store built through the public interface, [GetExpiry] finds
    no deadline, for any key and after any sequence of calls: the address
    it looks up is the address of a variable of its own. *)
Theorem GetExpiry_never_finds (ops : list op) (k : string) :
  GetExpiry (run ops) k = (0, false).
Proof. apply GetExpiry_miss, wf_run. Qed.

Lemma expires_step s o :
  wf s →
  expires (step s o)
  = if records s o then <[newVar s := deadlineOf o]> (expires s) else expires s.
Proof.
  intros Hwf. destruct o as [k v d now|k now|k|k d now]; simpl.
  - unfold Put. by destruct (0 <? d).
  - unfold Get. by destruct (store s !! k).
  - unfold Delete. by destruct (store s !! k).
  - unfold SetExpiry. by destruct (store s !! k).
Qed.

(** X3.  The expiry table only grows.  A [Put] with a positive duration
    and a [SetExpiry] on a key that is present add one record each, under
    an address that held none; no call removes a record or changes one,
    [Delete] and a later [Put] on the same key included. *)
Theorem expires_only_grows (ops : list op) (o : op) :
  expires (run ops) ⊆ expires (run (ops ++ [o]))
  ∧ base.size (expires (run (ops ++ [o])))
    = (base.size (expires (run ops))
       + if records (run ops) o then 1 else 0)%nat.
Proof.
  unfold run. rewrite foldl_app. simpl.
  fold (run ops). pose proof (wf_run ops) as Hwf.
  rewrite (expires_step _ _ Hwf).
  pose proof (newVar_no_record _ Hwf) as Hnew.
  destruct (records (run ops) o).
  - split.
    + by apply insert_subseteq.
    + rewrite map_size_insert_None by done. lia.
  - split; [done|lia].
Qed.

(** X4.  [SetExpiry] has no sentinel: on a key that is present it
    records [now + d] for every [d], a deadline that has passed when [d]
    is negative; the record belongs to the key and sits at an address that
    held none.  On a key that is absent it does nothing. *)
Theorem SetExpiry_records (s : Store) (k : string) (d now : Z) :
  wf s → 0 ≤ now < 2 ^ 63 → - now ≤ d < 2 ^ 63 →
  match store s !! k with
  | Some v =>
      recordOf (SetExpiry s k d now) k (newVar s) (now + d)
      ∧ expires s !! newVar s = None
      ∧ store (SetExpiry s k d now) = store s
  | None => SetExpiry s k d now = s
  end.
Proof.
  intros Hwf Hnow Hd. unfold SetExpiry.
  destruct (store s !! k) as [v|] eqn:Hk; [|done].
  split; [|split]; [|by apply newVar_no_record|done].
  exists v. simpl. rewrite Hk, !lookup_insert_eq. repeat split.
  f_equal. unfold uint64.
  rewrite <- Zplus_mod. apply Z.mod_small. lia.
Qed.

(** A key holding the handle 7, and a duration of one millisecond back. *)
Lemma SetExpiry_records_witness :
  recordOf (SetExpiry (Put NewStore "k" 7%nat 0 100) "k" (-1) 5000) "k"
    (newVar (Put NewStore "k" 7%nat 0 100)) (5000 + -1)
  ∧ expires (Put NewStore "k" 7%nat 0 100)
      !! newVar (Put NewStore "k" 7%nat 0 100) = None
  ∧ store (SetExpiry (Put NewStore "k" 7%nat 0 100) "k" (-1) 5000)
    = store (Put NewStore "k" 7%nat 0 100).
Proof.
  apply (SetExpiry_records (Put NewStore "k" 7%nat 0 100) "k" (-1) 5000).
  - apply wf_Put, wf_NewStore.
  - lia.
  - lia.
Defined.

End StoreFacts.

(** * Properties of the linked list *)
Module DListProofs.
Section WithElement.
Context {T : Type}.
Implicit Types (b : DList.List T) (l : list (addr * T))
  (h : gmap addr (DList.ListNode T)) (p q : option addr).

Lemma lastAddr_cons p a x l : DList.lastAddr p ((a, x) :: l) = DList.lastAddr (Some a) l.
Proof.
  unfold DList.lastAddr. destruct l as [|[a' x'] l]; [done|].
  rewrite last_cons. by destruct (last _) as [[]|].
Qed.

Lemma links_unfold h p a x l q :
  DList.links h p ((a, x) :: l) q
  ↔ h !! a = Some (DList.mkListNode x (DList.firstAddr q l) p)
    ∧ DList.links h (Some a) l q.
Proof. simpl. by destruct l as [|[]]. Qed.

Lemma links_app h p l1 l2 q :
  DList.links h p (l1 ++ l2) q
  ↔ DList.links h p l1 (DList.firstAddr q l2) ∧ DList.links h (DList.lastAddr p l1) l2 q.
Proof.
  revert p. induction l1 as [|[a x] l1 IH]; intros p.
  - simpl. unfold DList.lastAddr; simpl. tauto.
  - rewrite <- app_comm_cons, !links_unfold, IH, lastAddr_cons.
    assert (DList.firstAddr q (l1 ++ l2) = DList.firstAddr (DList.firstAddr q l2) l1) as ->
      by by destruct l1 as [|[]].
    tauto.
Qed.

Lemma links_frame h h' p l q :
  (∀ a, a ∈ l.*1 → h' !! a = h !! a) →
  DList.links h p l q → DList.links h' p l q.
Proof.
  revert p. induction l as [|[a x] l IH]; intros p Hfr; [done|].
  rewrite !links_unfold. intros [Ha Hl]. split.
  - rewrite Hfr; [done|]. simpl. set_solver.
  - apply IH; [|done]. intros a' Ha'. apply Hfr. simpl. set_solver.
Qed.

(** Changing [prev] of the first node, or [next] of the last one. *)
Lemma links_set_prev h p p' a x l q :
  a ∉ l.*1 →
  DList.links h p ((a, x) :: l) q →
  DList.links (<[a := DList.mkListNode x (DList.firstAddr q l) p']> h) p' ((a, x) :: l) q.
Proof.
  intros Hni. rewrite !links_unfold. intros [Ha Hl]. split.
  - by rewrite lookup_insert_eq.
  - eapply links_frame; [|done]. intros a' Ha'.
    rewrite lookup_insert_ne; [done|]. by intros ->.
Qed.

Lemma links_set_next h p a x l q q' :
  a ∉ l.*1 →
  DList.links h p (l ++ [(a, x)]) q →
  DList.links (<[a := DList.mkListNode x q' (DList.lastAddr p l)]> h) p (l ++ [(a, x)]) q'.
Proof.
  intros Hni. rewrite !links_app. simpl. intros [Hl [Ha _]]. split.
  - eapply links_frame; [|done]. intros a' Ha'.
    rewrite lookup_insert_ne; [done|]. by intros ->.
  - by rewrite lookup_insert_eq.
Qed.

Lemma links_last_lookup h p l a x q :
  DList.links h p (l ++ [(a, x)]) q →
  h !! a = Some (DList.mkListNode x q (DList.lastAddr p l)).
Proof. rewrite links_app. simpl. by intros [_ [? _]]. Qed.

Lemma Rep_empty : DList.Rep (DList.NewLists (T:=T)) [].
Proof. repeat split. constructor. Qed.

(** [append] and [prepend] of a fresh node. *)
Lemma append_spec b l el :
  DList.Rep b l →
  ∃ b', DList.append (DList.newNode b el).2 (DList.newNode b el).1 = Some b'
        ∧ DList.Rep b' (l ++ [((DList.newNode b el).1, el)]).
Proof.
  intros (Hnd & Hl & Hhd & Htl & Hsz).
  set (bn := fresh (dom (DList.nodes b))).
  assert (Hfresh : DList.nodes b !! bn = None)
    by (apply not_elem_of_dom, is_fresh).
  assert (Hin : ∀ a, a ∈ l.*1 → is_Some (DList.nodes b !! a)).
  { clear -Hl. intros a Ha. apply list_elem_of_fmap in Ha as [[a' x] [-> Hax]].
    apply list_elem_of_split in Hax as (l1 & l2 & ->).
    apply links_app in Hl as [_ Hl]. apply links_unfold in Hl as [Hl _]. eauto. }
  assert (Hni : bn ∉ l.*1).
  { intros Hbn. apply Hin in Hbn as [? ?]. congruence. }
  unfold DList.newNode, DList.append, DList.setPrev, DList.setNext; simpl.
  fold bn. rewrite lookup_insert_eq; simpl.
  destruct (decide (l = [])) as [->|Hne].
  - simpl in *. rewrite Htl, Hhd. simpl. eexists; split; [done|].
    repeat split; simpl; try done.
    + apply NoDup_singleton.
    + by rewrite lookup_insert_eq.
    + lia.
  - destruct (exists_last Hne) as (l0 & [a x] & ->).
    rewrite last_snoc in Htl. simpl in Htl. rewrite Htl. simpl.
    assert (Hab : a ≠ bn).
    { intros ->. apply Hni. rewrite fmap_app. set_solver. }
    rewrite !lookup_insert_ne by done.
    rewrite (links_last_lookup _ _ _ _ _ _ Hl). simpl.
    rewrite insert_insert_eq.
    eexists; split; [done|].
    rewrite fmap_app in Hnd. apply NoDup_app in Hnd as (Hnd0 & Hnd1 & _).
    repeat split; simpl.
    + rewrite !fmap_app. simpl. rewrite <- app_assoc. simpl.
      apply NoDup_app. split; [done|]. split.
      * intros a' Ha' Hin'. apply elem_of_cons in Hin' as [->|Hin'].
        -- apply (Hnd1 a Ha'). set_solver.
        -- apply list_elem_of_singleton in Hin' as ->. apply Hni.
           rewrite fmap_app. set_solver.
      * apply NoDup_cons. split; [set_solver|apply NoDup_singleton].
    + apply links_app. split.
      * apply (links_set_next _ _ a x l0 None (Some bn)).
        { intros Ha. apply (Hnd1 a Ha). set_solver. }
        eapply links_frame; [|exact Hl].
        intros a' Ha'. rewrite lookup_insert_ne; [done|].
        intros <-. by apply Hni.
      * simpl. split; [|done].
        rewrite lookup_insert_ne by done. rewrite lookup_insert_eq.
        do 2 f_equal. unfold DList.lastAddr. by rewrite last_snoc.
    + rewrite Hhd. by destruct l0 as [|[]].
    + by rewrite last_snoc.
    + rewrite Hsz, !length_app. simpl. lia.
Qed.

Lemma links_in_heap h p l q a :
  DList.links h p l q → a ∈ l.*1 → is_Some (h !! a).
Proof.
  intros Hl Ha. apply list_elem_of_fmap in Ha as [[a' x] [-> Hax]].
  apply list_elem_of_split in Hax as (l1 & l2 & ->).
  apply links_app in Hl as [_ Hl]. apply links_unfold in Hl as [Hl _]. eauto.
Qed.

Lemma prepend_spec b l el :
  DList.Rep b l →
  ∃ b', DList.prepend (DList.newNode b el).2 (DList.newNode b el).1 = Some b'
        ∧ DList.Rep b' (((DList.newNode b el).1, el) :: l).
Proof.
  intros (Hnd & Hl & Hhd & Htl & Hsz).
  set (bn := fresh (dom (DList.nodes b))).
  assert (Hfresh : DList.nodes b !! bn = None)
    by (apply not_elem_of_dom, is_fresh).
  assert (Hni : bn ∉ l.*1).
  { intros Hbn. eapply links_in_heap in Hbn as [? ?]; [|done]. congruence. }
  unfold DList.newNode, DList.prepend, DList.setPrev, DList.setNext; simpl.
  fold bn. rewrite lookup_insert_eq; simpl. rewrite insert_insert_eq.
  destruct l as [|[a x] l].
  - simpl in *. rewrite Htl, Hhd. simpl. eexists; split; [done|].
    repeat split; simpl; try done.
    + apply NoDup_singleton.
    + by rewrite lookup_insert_eq.
    + lia.
  - simpl in Hhd. rewrite Hhd. simpl.
    assert (Hab : a ≠ bn).
    { intros ->. apply Hni. simpl. set_solver. }
    rewrite lookup_insert_ne by done.
    pose proof Hl as Hl'. apply links_unfold in Hl' as [Ha _]. rewrite Ha. simpl.
    eexists; split; [done|].
    simpl in Hnd. apply NoDup_cons in Hnd as [Hna Hnd].
    repeat split; simpl.
    + apply NoDup_cons. split; [done|]. by apply NoDup_cons.
    + rewrite lookup_insert_ne by done. by rewrite lookup_insert_eq.
    + rewrite lookup_insert_eq. do 2 f_equal.
    + eapply links_frame; [|apply links_unfold in Hl as [_ Hl]; exact Hl].
      intros a' Ha'. rewrite !lookup_insert_ne; [done| |].
      * intros <-. apply Hni. simpl. set_solver.
      * by intros <-.
    + rewrite Htl. destruct (last ((a, x) :: l)) eqn:E; [done|].
      by apply last_None in E.
    + rewrite Hsz. simpl length. lia.
Qed.

(** [LPop] on a list that holds at least one element. *)
Lemma LPop_spec b a x l :
  DList.Rep b ((a, x) :: l) →
  ∃ b', DList.LPop b = Some (b', (x, bool_decide (l = []), None))
        ∧ DList.Rep b' l.
Proof.
  intros (Hnd & Hl & Hhd & Htl & Hsz).
  simpl in Hnd. apply NoDup_cons in Hnd as [Hna Hnd].
  pose proof Hl as Hl'. apply links_unfold in Hl' as [Ha Hl'].
  unfold DList.LPop, DList.delete. simpl in Hhd. rewrite Hhd. simpl.
  rewrite Ha. simpl. rewrite Ha. simpl.
  rewrite decide_True by done.
  destruct l as [|[a' x'] l].
  - simpl in *. rewrite Htl, decide_True by done. simpl.
    eexists; split.
    + do 3 f_equal. rewrite Hsz. by rewrite !bool_decide_true by lia.
    + repeat split; simpl; try done. lia.
  - simpl DList.firstAddr. unfold DList.setPrev. simpl.
    assert (Hlast : DList.tail b ≠ Some a).
    { rewrite Htl. rewrite last_cons_cons. intros Heq. apply Hna.
      destruct (last ((a', x') :: l)) as [[a0 x0]|] eqn:Hlast; [|done].
      simpl in Heq. injection Heq as ->.
      apply last_Some_elem_of in Hlast.
      apply list_elem_of_fmap. by exists (a, x0). }
    rewrite decide_False by congruence.
    pose proof Hl' as Hl''. apply links_unfold in Hl'' as [Ha' Hl''].
    rewrite Ha'. simpl. eexists; split.
    + do 3 f_equal. rewrite Hsz. simpl length.
      by rewrite bool_decide_false by lia.
    + repeat split; simpl; try done.
      * rewrite lookup_insert_eq. by destruct l as [|[]].
      * eapply links_frame; [|exact Hl''].
        intros a0 Ha0. rewrite lookup_insert_ne; [done|].
        intros <-. simpl in Hnd. by apply NoDup_cons in Hnd as [? _].
      * rewrite Hsz. simpl length. lia.
Qed.

(** [RPop] on a list that holds at least one element. *)
Lemma RPop_spec b a x l :
  DList.Rep b (l ++ [(a, x)]) →
  ∃ b', DList.RPop b = Some (b', (x, bool_decide (l = []), None))
        ∧ DList.Rep b' l.
Proof.
  intros (Hnd & Hl & Hhd & Htl & Hsz).
  rewrite fmap_app in Hnd. apply NoDup_app in Hnd as (Hnd & Hna & _).
  assert (Hni : a ∉ l.*1). { intros Hin. apply (Hna a Hin). simpl. set_solver. }
  pose proof (links_last_lookup _ _ _ _ _ _ Hl) as Ha.
  unfold DList.RPop, DList.delete. rewrite last_snoc in Htl. simpl in Htl.
  rewrite Htl. simpl. rewrite Ha. simpl.
  rewrite (decide_True (P := Some a = Some a)) by done.
  destruct l as [|[a' x'] l _] using rev_ind.
  - simpl in *. rewrite Hhd, decide_True by done. unfold DList.lastAddr. simpl.
    rewrite Ha. simpl.
    eexists; split.
    + do 3 f_equal. rewrite Hsz. by rewrite !bool_decide_true by lia.
    + repeat split; simpl; try done. lia.
  - assert (Hfirst : Some a ≠ DList.head b).
    { rewrite Hhd. intros Heq. apply Hni.
      destruct l as [|[a0 x0] l]; simpl in Heq; injection Heq as ->;
        rewrite fmap_app; simpl; set_solver. }
    rewrite decide_False by done.
    assert (Hlo : DList.lastAddr None (l ++ [(a', x')]) = Some a')
      by (unfold DList.lastAddr; by rewrite last_snoc).
    rewrite Hlo in *. simpl. unfold DList.setNext.
    apply links_app in Hl as [Hl _]. simpl in Hl.
    pose proof (links_last_lookup _ _ _ _ _ _ Hl) as Ha'.
    rewrite Ha'. simpl.
    assert (Haa : a' ≠ a).
    { intros ->. apply Hni. rewrite fmap_app. simpl. set_solver. }
    rewrite lookup_insert_ne by done. rewrite Ha. simpl.
    eexists; split.
    + do 3 f_equal. rewrite Hsz, !length_app. simpl length.
      rewrite !bool_decide_false; [done| |lia].
      intros Heq. by apply app_eq_nil in Heq as [_ ?].
    + repeat split; simpl; try done.
      * apply (links_set_next _ _ a' x' l (Some a) None); [|done].
        rewrite fmap_app in Hnd. apply NoDup_app in Hnd as (_ & Hnd & _).
        intros Hin. apply (Hnd a' Hin). simpl. set_solver.
      * rewrite Hhd. by destruct l as [|[] [|]].
      * by rewrite last_snoc.
      * rewrite Hsz, !length_app. simpl length. lia.
Qed.

(** The lists that [LPush] and [RPush] build are represented: [LPush]
    adds at the tail end, [RPush] at the head end. *)
Lemma LPush_spec els b l :
  DList.Rep b l →
  ∃ b' l', DList.LPush b els = Some b' ∧ DList.Rep b' (l ++ l') ∧ l'.*2 = els.
Proof.
  revert b l. induction els as [|el els IH]; intros b l HRep.
  - exists b, []. by rewrite app_nil_r.
  - destruct (append_spec b l el HRep) as (b1 & Happ & HRep1).
    destruct (IH _ _ HRep1) as (b' & l' & Hpush & HRep' & Hels).
    exists b', (((DList.newNode b el).1, el) :: l'). split; [|split].
    + simpl. simpl in Happ. by rewrite Happ.
    + by rewrite <- app_assoc in HRep'.
    + simpl. by f_equal.
Qed.

Lemma RPush_spec els b l :
  DList.Rep b l →
  ∃ b' l', DList.RPush b els = Some b' ∧ DList.Rep b' (l' ++ l)
           ∧ l'.*2 = reverse els.
Proof.
  revert b l. induction els as [|el els IH]; intros b l HRep.
  - by exists b, [].
  - destruct (prepend_spec b l el HRep) as (b1 & Happ & HRep1).
    destruct (IH _ _ HRep1) as (b' & l' & Hpush & HRep' & Hels).
    exists b', (l' ++ [((DList.newNode b el).1, el)]). split; [|split].
    + simpl. simpl in Happ. by rewrite Happ.
    + by rewrite <- app_assoc.
    + rewrite fmap_app, Hels, reverse_cons. done.
Qed.

(** A push that fails on its first value leaves an empty list in the
    store, on which [LPOP] and [RPOP] panic. *)
Lemma pop_after_failed_push (convertArgToType : string → option T)
    (key bad : string) (now now' : Z) :
  convertArgToType bad = None →
  ∃ e msg,
    ListEval.LPUSH convertArgToType ListEval.NewEval [key; bad] now
    = Some (e, ListEval.Err msg)
    ∧ ListEval.LPOP e [key] now' = None
    ∧ ListEval.RPOP e [key] now' = None.
Proof.
  intros Hbad.
  unfold ListEval.LPUSH, ListEval.getOrCreateList, Store.Get.
  cbn [ListEval.NewEval ListEval.store ListEval.objects Store.NewStore Store.store].
  rewrite lookup_empty. cbn [negb ListEval.pushLoop]. rewrite Hbad.
  cbn [mbind option_bind]. eexists _, _. split; [done|].
  unfold ListEval.LPOP, ListEval.RPOP, ListEval.getList, Store.Get, Store.Put.
  change (0 <? ListEval.defaultExpiry) with false.
  cbn [ListEval.store ListEval.objects Store.store].
  rewrite lookup_insert_eq. cbn [negb ListEval.asList ListEval.objects].
  rewrite lookup_insert_eq. done.
Qed.

(** C10.  On a list that holds at least one element, [LPop] removes and
    returns the element at the head and [RPop] the one at the tail, with a
    flag that is true exactly when the list has become empty, and a nil
    error.  Both panic on a list that is empty, as the list of [NewLists]
    is, and as the list is that [LPUSH] leaves in the store when its
    first value does not convert: [LPOP] and [RPOP] on its key reach the
    panic. *)
Theorem pop_total_on_nonempty (b : DList.List T) (l : list (addr * T))
    (convertArgToType : string → option T) (key bad : string) (now now' : Z) :
  DList.Rep b l → convertArgToType bad = None →
  (∀ a x l', l = (a, x) :: l' →
     ∃ b', DList.LPop b = Some (b', (x, bool_decide (l' = []), None))
           ∧ DList.Rep b' l')
  ∧ (∀ a x l', l = l' ++ [(a, x)] →
     ∃ b', DList.RPop b = Some (b', (x, bool_decide (l' = []), None))
           ∧ DList.Rep b' l')
  ∧ (l = [] → DList.LPop b = None ∧ DList.RPop b = None)
  ∧ DList.LPop (DList.NewLists (T:=T)) = None
  ∧ DList.RPop (DList.NewLists (T:=T)) = None
  ∧ ∃ e msg,
      ListEval.LPUSH convertArgToType ListEval.NewEval [key; bad] now
      = Some (e, ListEval.Err msg)
      ∧ ListEval.LPOP e [key] now' = None
      ∧ ListEval.RPOP e [key] now' = None.
Proof.
  intros HRep Hbad. split; [|split; [|split; [|split; [done|split; [done|]]]]].
  - intros a x l' ->. by apply (LPop_spec b a x l').
  - intros a x l' ->. by apply (RPop_spec b a x l').
  - intros ->. destruct HRep as (_ & _ & Hhd & Htl & _).
    unfold DList.LPop, DList.RPop. simpl in Hhd, Htl. by rewrite Hhd, Htl.
  - by apply pop_after_failed_push.
Qed.

End WithElement.

Lemma Rep_twoElements : DList.Rep DList.twoElements [(0%nat, 10); (1%nat, 20)].
Proof.
  repeat split; try (by vm_compute).
  apply (bool_decide_unpack _). by vm_compute.
Qed.

(** At the list of [LPush(10, 20)], with a converter that accepts the
    numeral 10 only. *)
Lemma pop_total_on_nonempty_witness :
  (∀ a x l', [(0%nat, 10); (1%nat, 20)] = (a, x) :: l' →
     ∃ b', DList.LPop DList.twoElements
           = Some (b', (x, bool_decide (l' = []), None))
           ∧ DList.Rep b' l')
  ∧ (∀ a x l', [(0%nat, 10); (1%nat, 20)] = l' ++ [(a, x)] →
     ∃ b', DList.RPop DList.twoElements
           = Some (b', (x, bool_decide (l' = []), None))
           ∧ DList.Rep b' l')
  ∧ ([(0%nat, 10); (1%nat, 20)] = [] →
     DList.LPop DList.twoElements = None ∧ DList.RPop DList.twoElements = None)
  ∧ DList.LPop (DList.NewLists (T:=Z)) = None
  ∧ DList.RPop (DList.NewLists (T:=Z)) = None
  ∧ ∃ e msg,
      ListEval.LPUSH (λ s, if String.eqb s "10" then Some 10 else None)
        ListEval.NewEval ["k"; "x"] 100
      = Some (e, ListEval.Err msg)
      ∧ ListEval.LPOP e ["k"] 200 = None
      ∧ ListEval.RPOP e ["k"] 200 = None.
Proof.
  apply (pop_total_on_nonempty DList.twoElements [(0%nat, 10); (1%nat, 20)]
           (λ s, if String.eqb s "10" then Some 10 else None) "k" "x" 100 200).
  - exact Rep_twoElements.
  - reflexivity.
Defined.

End DListProofs.

(** * Further properties of the linked list *)
Module DListFacts.
Import DListProofs.
Section WithElement.
Context {T : Type}.
Implicit Types (b : DList.List T) (l : list (addr * T))
  (h : gmap addr (DList.ListNode T)) (p q : option addr).

Lemma Rep_head_list b l : DList.Rep b l → DList.head b = DList.firstAddr None l.
Proof. intros (_ & _ & -> & _). by destruct l as [|[]]. Qed.

Lemma Rep_tail_list b l : DList.Rep b l → DList.tail b = DList.lastAddr None l.
Proof.
  intros (_ & _ & _ & -> & _). unfold DList.lastAddr.
  by destruct (last l) as [[]|].
Qed.

Lemma Rep_size_list b l : DList.Rep b l → DList.size b = Z.of_nat (length l).
Proof. by intros (_ & _ & _ & _ & ->). Qed.

Lemma firstAddr_app q l1 l2 :
  DList.firstAddr q (l1 ++ l2) = DList.firstAddr (DList.firstAddr q l2) l1.
Proof. by destruct l1 as [|[]]. Qed.

Lemma lastAddr_app p l1 l2 :
  DList.lastAddr p (l1 ++ l2) = DList.lastAddr (DList.lastAddr p l1) l2.
Proof.
  revert p. induction l1 as [|[a x] l1 IH]; intros p; [done|].
  by rewrite <- app_comm_cons, !lastAddr_cons, IH.
Qed.

Lemma lastAddr_snoc p l a x : DList.lastAddr p (l ++ [(a, x)]) = Some a.
Proof. by rewrite lastAddr_app. Qed.

(** The pointer walks. *)
Lemma walkNext_links h p l q n :
  DList.links h p l q → (n ≤ length l)%nat →
  DList.walkNext h (DList.firstAddr q l) n = Some (DList.firstAddr q (drop n l)).
Proof.
  revert p l. induction n as [|n IH]; intros p l Hl Hn; [done|].
  destruct l as [|[a x] l]; [simpl in Hn; lia|].
  apply links_unfold in Hl as [Ha Hl]. simpl. rewrite Ha. simpl.
  apply (IH (Some a)); [done|]. simpl in Hn. lia.
Qed.

Lemma collect_links h p l q n (i start : Z) (els : list T) :
  DList.links h p l q → (n ≤ length l)%nat →
  DList.collect h (DList.firstAddr q l) i n start els
  = Some (els ++ drop (Z.to_nat (start - i)) (take n l.*2)).
Proof.
  revert p l i els. induction n as [|n IH]; intros p l i els Hl Hn.
  - simpl. by rewrite take_0, drop_nil, app_nil_r.
  - destruct l as [|[a x] l]; [simpl in Hn; lia|].
    destruct (proj1 (links_unfold _ _ _ _ _ _) Hl) as [Ha Hl'].
    cbn [DList.firstAddr DList.collect mbind option_bind]. rewrite Ha.
    cbn [mbind option_bind DList.next DList.element].
    rewrite (IH (Some a)); [|done|simpl in Hn; lia]. f_equal.
    destruct (Z.leb_spec start i) as [Hle|Hlt].
    + replace (Z.to_nat (start - (i + 1))) with 0%nat by lia.
      replace (Z.to_nat (start - i)) with 0%nat by lia.
      simpl. by rewrite <- app_assoc.
    + replace (Z.to_nat (start - i)) with (S (Z.to_nat (start - (i + 1)))) by lia.
      done.
Qed.

Lemma links_lookup h p l q (k : nat) a x :
  DList.links h p l q → l !! k = Some (a, x) →
  DList.firstAddr q (drop k l) = Some a
  ∧ ∃ pv, h !! a = Some (DList.mkListNode x (DList.firstAddr q (drop (S k) l)) pv).
Proof.
  revert p l. induction k as [|k IH]; intros p l Hl Hk.
  - destruct l as [|[a' x'] l]; [done|]. injection Hk as -> ->.
    destruct (proj1 (links_unfold _ _ _ _ _ _) Hl) as [Ha _].
    split; [done|]. by exists p.
  - destruct l as [|[a' x'] l]; [done|].
    destruct (proj1 (links_unfold _ _ _ _ _ _) Hl) as [_ Hl'].
    apply (IH (Some a') l Hl' Hk).
Qed.

Lemma lookup_snd l (k : nat) x :
  l.*2 !! k = Some x → ∃ a, l !! k = Some (a, x).
Proof.
  rewrite list_lookup_fmap. destruct (l !! k) as [[a y]|]; [|done].
  intros [= ->]. by exists a.
Qed.

Section WithZero.
Context (zero : T).

(** X5.  [LIndex] on a list of [n] elements: an index from [0] to [n - 1]
    counts from the head, one from [-n] to [-1] counts from the tail, and
    the element at this position comes back with a nil error; every
    other index yields the zero value and the error, the empty list
    included.  No index makes the call panic. *)
Theorem LIndex_spec b l (index : Z) :
  DList.Rep b l →
  let n := Z.of_nat (length l) in
  let pos := if bool_decide (index < 0) then n + index else index in
  (∀ x, 0 ≤ pos → l.*2 !! Z.to_nat pos = Some x →
        DList.LIndex zero b index = Some (x, None))
  ∧ (¬ (0 ≤ pos < n) →
     DList.LIndex zero b index = Some (zero, Some "index out of range")).
Proof.
  intros HRep n pos. pose proof HRep as (Hnd & Hl & _).
  unfold DList.LIndex. rewrite (Rep_size_list _ _ HRep), (Rep_head_list _ _ HRep).
  fold n.
  assert (Hpos : (if index <? 0 then n + index else index) = pos).
  { unfold pos. destruct (Z.ltb_spec index 0).
    - by rewrite bool_decide_true.
    - rewrite bool_decide_false; [done|lia]. }
  rewrite Hpos. split.
  - intros x Hp Hx.
    pose proof (lookup_lt_Some _ _ _ Hx) as Hlt. rewrite length_fmap in Hlt.
    destruct (lookup_snd _ _ _ Hx) as [a Ha].
    destruct (links_lookup _ _ _ _ _ _ _ Hl Ha) as [Hfirst [pv Hnode]].
    destruct (Z.ltb_spec pos 0); [lia|].
    destruct (Z.leb_spec n pos); [lia|]. simpl.
    destruct (Z.eqb_spec pos 0) as [Hz|Hnz].
    + rewrite Hz in Hfirst. simpl in Hfirst. rewrite drop_0 in Hfirst.
      rewrite Hfirst. simpl. by rewrite Hnode.
    + rewrite (walkNext_links _ _ _ _ _ Hl) by lia.
      simpl. rewrite Hfirst. simpl. by rewrite Hnode.
  - intros Hout.
    destruct (Z.ltb_spec pos 0); [done|].
    destruct (Z.leb_spec n pos); [done|lia].
Qed.

End WithZero.

(** X6.  [LRange] refuses a negative [start], a negative [stop] and
    [start > stop]; else it returns the elements at the positions from
    [start] to [stop], as many of them as the list has, in the order of
    the list.  It does not panic. *)
Theorem LRange_spec b l (start stop : Z) :
  DList.Rep b l →
  DList.LRange b start stop
  = Some (if bool_decide (0 ≤ start ≤ stop)
          then (drop (Z.to_nat start) (take (Z.to_nat (stop + 1)) l.*2), None)
          else ([], Some "invalid range")).
Proof.
  intros HRep. pose proof HRep as (Hnd & Hl & _).
  unfold DList.LRange. rewrite (Rep_size_list _ _ HRep), (Rep_head_list _ _ HRep).
  destruct (Z.ltb_spec start 0); simpl.
  { rewrite bool_decide_false; [done|lia]. }
  destruct (Z.ltb_spec stop 0); simpl.
  { rewrite bool_decide_false; [done|lia]. }
  destruct (Z.ltb_spec stop start); simpl.
  { rewrite bool_decide_false; [done|lia]. }
  rewrite bool_decide_true by lia.
  rewrite (collect_links _ _ _ _ _ _ _ _ Hl).
  - simpl. do 3 f_equal. rewrite Z.sub_0_r. f_equal.
    destruct (Z.leb_spec (Z.of_nat (length l)) stop); [|done].
    rewrite !take_ge; [done| |]; rewrite length_fmap; lia.
  - destruct (Z.leb_spec (Z.of_nat (length l)) stop); lia.
Qed.

Lemma Rep_intro b l :
  NoDup l.*1 → DList.links (DList.nodes b) None l None →
  DList.head b = DList.firstAddr None l → DList.tail b = DList.lastAddr None l →
  DList.size b = Z.of_nat (length l) →
  DList.Rep b l.
Proof.
  intros Hnd Hl Hhd Htl Hsz. repeat split; try done.
  - rewrite Hhd. by destruct l as [|[]].
  - rewrite Htl. unfold DList.lastAddr. by destruct (last l) as [[]|].
Qed.

Lemma firstAddr_elem l a : DList.firstAddr None l = Some a → a ∈ l.*1.
Proof. destruct l as [|[a' x] l]; [done|]. intros [= ->]. simpl. set_solver. Qed.

Lemma lastAddr_elem l a : DList.lastAddr None l = Some a → a ∈ l.*1.
Proof.
  destruct l as [|[a' x] l _] using rev_ind; [done|].
  rewrite lastAddr_snoc. intros [= ->]. rewrite fmap_app. simpl. set_solver.
Qed.

(** Changing [next] of the last node of a list, or [prev] of the first
    one, as [delete] does around the node it takes out. *)
Lemma relink_next h l q q' :
  NoDup l.*1 → DList.links h None l q →
  ∃ h1, match DList.lastAddr None l with
        | Some t => DList.setNext h t q'
        | None => Some h
        end = Some h1
        ∧ DList.links h1 None l q'
        ∧ ∀ c, c ∉ l.*1 → h1 !! c = h !! c.
Proof.
  intros Hnd Hl. destruct l as [|[t y] l _] using rev_ind.
  - by exists h.
  - rewrite lastAddr_snoc. unfold DList.setNext.
    rewrite (links_last_lookup _ _ _ _ _ _ Hl). simpl.
    rewrite fmap_app in Hnd. apply NoDup_app in Hnd as (_ & Hdis & _).
    eexists; split; [done|]. split.
    + apply (links_set_next _ _ _ _ _ q); [|done].
      intros Hin. apply (Hdis _ Hin). simpl. set_solver.
    + intros c Hc. rewrite lookup_insert_ne; [done|].
      intros <-. apply Hc. rewrite fmap_app. simpl. set_solver.
Qed.

Lemma relink_prev h p l p' :
  NoDup l.*1 → DList.links h p l None →
  ∃ h2, match DList.firstAddr None l with
        | Some f => DList.setPrev h f p'
        | None => Some h
        end = Some h2
        ∧ DList.links h2 p' l None
        ∧ ∀ c, c ∉ l.*1 → h2 !! c = h !! c.
Proof.
  intros Hnd Hl. destruct l as [|[f y] l].
  - by exists h.
  - destruct (proj1 (links_unfold _ _ _ _ _ _) Hl) as [Hf _].
    cbn [DList.firstAddr]. unfold DList.setPrev. rewrite Hf. simpl.
    simpl in Hnd. apply NoDup_cons in Hnd as [Hni _].
    eexists; split; [done|]. split.
    + by apply (links_set_prev _ p).
    + intros c Hc. rewrite lookup_insert_ne; [done|].
      intros <-. apply Hc. simpl. set_solver.
Qed.

(** [delete] of any node of the list.  The node taken out keeps its
    fields. *)
Lemma delete_spec b l1 a x l2 :
  DList.Rep b (l1 ++ (a, x) :: l2) →
  ∃ b', DList.delete b a = Some b'
        ∧ DList.Rep b' (l1 ++ l2)
        ∧ DList.nodes b' !! a
          = Some (DList.mkListNode x (DList.firstAddr None l2)
                    (DList.lastAddr None l1))
        ∧ dom (DList.nodes b') = dom (DList.nodes b).
Proof.
  intros HRep. pose proof HRep as (Hnd & Hl & _ & _ & Hsz).
  rewrite fmap_app, fmap_cons in Hnd. simpl in Hnd.
  apply NoDup_app in Hnd as (Hnd1 & Hdis & Hnd2).
  apply NoDup_cons in Hnd2 as [Hna2 Hnd2].
  assert (Hna1 : a ∉ l1.*1).
  { intros Hin. apply (Hdis _ Hin). set_solver. }
  assert (Hdis' : ∀ c, c ∈ l1.*1 → c ∉ l2.*1).
  { intros c Hin Hin2. apply (Hdis _ Hin). set_solver. }
  apply links_app in Hl as [Hl1 Hl2].
  destruct (proj1 (links_unfold _ _ _ _ _ _) Hl2) as [Ha Hl2'].
  cbn [DList.firstAddr] in Hl1.
  destruct (relink_next _ _ _ (DList.firstAddr None l2) Hnd1 Hl1)
    as (h1 & Hh1 & Hl1' & Hfr1).
  assert (Hl2'' : DList.links h1 (Some a) l2 None).
  { eapply links_frame; [|exact Hl2']. intros c Hc. apply Hfr1.
    intros Hin. by apply (Hdis' c). }
  destruct (relink_prev _ _ _ (DList.lastAddr None l1) Hnd2 Hl2'')
    as (h2 & Hh2 & Hl2f & Hfr2).
  unfold DList.delete. rewrite Ha. cbn [mbind option_bind DList.prev DList.next].
  rewrite Hh1. cbn [mbind option_bind].
  rewrite (Hfr1 a Hna1), Ha. cbn [mbind option_bind DList.prev DList.next].
  rewrite Hh2. cbn [mbind option_bind].
  eexists; split; [done|]. split; [|split].
  - apply Rep_intro; cbn [DList.nodes DList.head DList.tail DList.size].
    + rewrite fmap_app. apply NoDup_app. by repeat split.
    + apply links_app. split; [|done].
      eapply links_frame; [|exact Hl1']. intros c Hc. apply Hfr2.
      by apply Hdis'.
    + rewrite (Rep_head_list _ _ HRep), !firstAddr_app. cbn [DList.firstAddr].
      destruct l1 as [|[c y] l1].
      * simpl. by rewrite decide_True.
      * simpl. rewrite decide_False; [done|].
        intros [= ->]. apply Hna1. simpl. set_solver.
    + rewrite (Rep_tail_list _ _ HRep), !lastAddr_app.
      destruct l2 as [|[c y] l2 _] using rev_ind.
      * unfold DList.lastAddr at 1 3. simpl. by rewrite decide_True.
      * rewrite app_comm_cons, !lastAddr_snoc.
        rewrite decide_False; [done|].
        intros [= ->]. apply Hna2. rewrite fmap_app. simpl. set_solver.
    + rewrite Hsz, !length_app. simpl. lia.
  - cbn [DList.nodes]. by rewrite (Hfr2 a Hna2), (Hfr1 a Hna1).
  - cbn [DList.nodes].
    assert (Hd1 : dom h1 = dom (DList.nodes b)).
    { destruct (DList.lastAddr None l1) as [t|]; [|congruence].
      unfold DList.setNext in Hh1.
      destruct (DList.nodes b !! t) as [nt|] eqn:Ht; [|done].
      injection Hh1 as <-. rewrite dom_insert_L.
      apply elem_of_dom_2 in Ht. set_solver. }
    rewrite <- Hd1.
    destruct (DList.firstAddr None l2) as [f|]; [|congruence].
    unfold DList.setPrev in Hh2.
    destruct (h1 !! f) as [nf|] eqn:Hf; [|done].
    injection Hh2 as <-. rewrite dom_insert_L.
    apply elem_of_dom_2 in Hf. set_solver.
Qed.

Lemma links_set_element h p l1 a x l2 q x' :
  a ∉ l1.*1 → a ∉ l2.*1 →
  DList.links h p (l1 ++ (a, x) :: l2) q →
  DList.links
    (<[a := DList.mkListNode x' (DList.firstAddr q l2) (DList.lastAddr p l1)]> h)
    p (l1 ++ (a, x') :: l2) q.
Proof.
  intros Hn1 Hn2. rewrite !links_app. intros [Hl1 Hl2].
  destruct (proj1 (links_unfold _ _ _ _ _ _) Hl2) as [Ha Hl2'].
  split.
  - eapply links_frame; [|exact Hl1]. intros c Hc.
    rewrite lookup_insert_ne; [done|]. by intros <-.
  - apply links_unfold. split; [by rewrite lookup_insert_eq|].
    eapply links_frame; [|exact Hl2']. intros c Hc.
    rewrite lookup_insert_ne; [done|]. by intros <-.
Qed.

(** X7.  [LSet] on a list of [n] elements: at an index from [0] to
    [n - 1] the element is replaced in its node, and the list is
    otherwise as it was; any other index, the negative ones included, is
    refused and the list is left alone.  It does not panic. *)
Theorem LSet_spec b l (index : Z) (el : T) :
  DList.Rep b l →
  (∀ a x, 0 ≤ index → l !! Z.to_nat index = Some (a, x) →
     ∃ b', DList.LSet b index el = Some (b', None)
           ∧ DList.Rep b' (<[Z.to_nat index := (a, el)]> l))
  ∧ (¬ (0 ≤ index < Z.of_nat (length l)) →
     DList.LSet b index el = Some (b, Some "index out of range")).
Proof.
  intros HRep. pose proof HRep as (Hnd & Hl & Hhd & Htl & Hsz).
  unfold DList.LSet. rewrite Hsz, (Rep_head_list _ _ HRep). split.
  - intros a x Hp Hx.
    pose proof (lookup_lt_Some _ _ _ Hx) as Hlt.
    destruct (links_lookup _ _ _ _ _ _ _ Hl Hx) as [Hfirst [pv Hnode]].
    destruct (Z.ltb_spec index 0); [lia|].
    destruct (Z.leb_spec (Z.of_nat (length l)) index); [lia|]. simpl.
    rewrite (walkNext_links _ _ _ _ _ Hl) by lia.
    simpl. rewrite Hfirst. simpl. rewrite Hnode. simpl.
    eexists; split; [done|].
    apply list_elem_of_split_length in Hx as (l1 & l2 & -> & Hlen).
    rewrite Hlen in Hnode |- *. rewrite insert_app_r_alt by lia.
    rewrite Nat.sub_diag. simpl.
    rewrite fmap_app, fmap_cons in Hnd. simpl in Hnd.
    apply NoDup_app in Hnd as (Hnd1 & Hdis & Hnd2).
    apply NoDup_cons in Hnd2 as [Hna2 Hnd2].
    assert (Hna1 : a ∉ l1.*1).
    { intros Hin. apply (Hdis _ Hin). set_solver. }
    pose proof (links_set_element _ _ _ _ _ _ _ el Hna1 Hna2 Hl) as Hl'.
    pose proof Hl as Hl0. apply links_app in Hl0 as [_ Hl0].
    destruct (proj1 (links_unfold _ _ _ _ _ _) Hl0) as [Ha _].
    rewrite Ha in Hnode. injection Hnode as Hnx <-.
    apply Rep_intro; cbn [DList.nodes DList.head DList.tail DList.size].
    + rewrite fmap_app, fmap_cons. simpl.
      apply NoDup_app. repeat split; [done|done|]. by apply NoDup_cons.
    + by rewrite <- Hnx.
    + by rewrite !firstAddr_app.
    + rewrite (Rep_tail_list _ _ HRep), !lastAddr_app.
      by rewrite !lastAddr_cons.
    + by rewrite !length_app.
  - intros Hout.
    destruct (Z.ltb_spec index 0); [done|].
    destruct (Z.leb_spec (Z.of_nat (length l)) index); [done|lia].
Qed.

Section WithEqual.
Context (equal : T → T → bool).

(** The loop of [LRem] does to the list what [remSeq] does to the
    sequence. *)
Lemma remLoop_spec (count : Z) (el : T) l2 : ∀ fuel b l1 (i removed : Z),
  DList.Rep b (l1 ++ l2) →
  i = Z.of_nat (length l1) + removed → 0 ≤ removed →
  (length l2 < fuel)%nat →
  ∃ b',
    DList.remLoop equal fuel b (DList.firstAddr None l2) i count el removed
    = Some (b', (DList.remSeq equal count el removed l2).2)
    ∧ DList.Rep b' (l1 ++ (DList.remSeq equal count el removed l2).1).
Proof.
  induction l2 as [|[a x] l2 IH]; intros fuel b l1 i removed HRep Hi Hrem Hfuel.
  - destruct fuel as [|f]; [simpl in Hfuel; lia|]. simpl.
    rewrite (Rep_size_list _ _ HRep), app_nil_r.
    destruct (Z.ltb_spec i (Z.of_nat (length l1))); [lia|].
    exists b. split; [done|]. by rewrite app_nil_r in HRep.
  - destruct fuel as [|f]; [simpl in Hfuel; lia|].
    cbn [DList.remLoop DList.remSeq DList.firstAddr].
    rewrite (Rep_size_list _ _ HRep), length_app.
    assert (Htest : (i <? Z.of_nat (length l1 + length ((a, x) :: l2)))
                    = (removed <? Z.of_nat (length ((a, x) :: l2)))).
    { destruct (Z.ltb_spec i (Z.of_nat (length l1 + length ((a, x) :: l2))));
        destruct (Z.ltb_spec removed (Z.of_nat (length ((a, x) :: l2)))); lia. }
    rewrite Htest.
    destruct (removed <? Z.of_nat (length ((a, x) :: l2))); [|by exists b].
    pose proof HRep as (_ & Hl & _).
    apply links_app in Hl as [_ Hl].
    destruct (proj1 (links_unfold _ _ _ _ _ _) Hl) as [Ha _].
    cbn [mbind option_bind]. rewrite Ha.
    cbn [mbind option_bind DList.element DList.next].
    destruct (equal x el).
    + destruct (delete_spec _ _ _ _ _ HRep) as (b' & Hdel & HRep' & Ha' & _).
      rewrite Hdel. cbn [mbind option_bind].
      destruct (removed + 1 =? count); [by exists b'|].
      rewrite Ha'. cbn [mbind option_bind DList.next].
      apply IH; [done|lia|lia|simpl in Hfuel; lia].
    + assert (HRep' : DList.Rep b ((l1 ++ [(a, x)]) ++ l2))
        by by rewrite <- app_assoc.
      destruct (IH f b (l1 ++ [(a, x)]) (i + 1) removed HRep')
        as (b' & Hloop & HRep'').
      { rewrite length_app. simpl. lia. }
      { done. }
      { simpl in Hfuel. lia. }
      exists b'. rewrite Hloop.
      destruct (DList.remSeq equal count el removed l2) as [k r].
      split; [done|]. by rewrite <- app_assoc in HRep''.
Qed.

(** What [remSeq] takes out and what it leaves. *)
Lemma remSeq_sound (count : Z) (el : T) l : ∀ removed,
  let res := DList.remSeq equal count el removed l in
  sublist res.1 l
  ∧ filter (λ e, equal e.2 el = false) res.1
    = filter (λ e, equal e.2 el = false) l
  ∧ res.2 = removed + Z.of_nat (length l) - Z.of_nat (length res.1)
  ∧ (removed < count → res.2 ≤ count).
Proof.
  induction l as [|[a x] l IH]; intros removed.
  - simpl. repeat split; [done|lia|lia].
  - cbn [DList.remSeq].
    destruct (removed <? Z.of_nat (length ((a, x) :: l))).
    2:{ simpl. repeat split; [done|lia|lia]. }
    destruct (equal x el) eqn:Hx.
    + destruct (removed + 1 =? count) eqn:Hc.
      * simpl. repeat split.
        -- by apply sublist_cons.
        -- rewrite filter_cons_False; [done|]. simpl. by rewrite Hx.
        -- lia.
        -- lia.
      * destruct (IH (removed + 1)) as (Hs & Hf & Hr & Hb).
        repeat split.
        -- by apply sublist_cons.
        -- rewrite Hf, (filter_cons_False _ (a, x)); [done|]. simpl. by rewrite Hx.
        -- rewrite Hr. simpl length. lia.
        -- intros Hlt. apply Hb. apply Z.eqb_neq in Hc. lia.
    + destruct (IH removed) as (Hs & Hf & Hr & Hb).
      destruct (DList.remSeq equal count el removed l) as [k r].
      simpl in *. repeat split.
      * by apply sublist_skip.
      * rewrite !filter_cons_True by done. by rewrite Hf.
      * lia.
      * done.
Qed.

(** X8.  [LRem] takes out elements that [equal] finds equal to [el],
    and no other: what is left is the list without some of these, in
    the order it had.  It returns the number of elements taken out,
    which is at most [count] when [count] is positive.  It does not
    panic. *)
Theorem LRem_spec b l (count : Z) (el : T) :
  DList.Rep b l →
  ∃ b' l' (removed : Z),
    DList.LRem equal b count el = Some (b', removed)
    ∧ DList.Rep b' l'
    ∧ sublist l' l
    ∧ filter (λ e, equal e.2 el = false) l'
      = filter (λ e, equal e.2 el = false) l
    ∧ removed = Z.of_nat (length l) - Z.of_nat (length l')
    ∧ (0 < count → removed ≤ count).
Proof.
  intros HRep. unfold DList.LRem.
  rewrite (Rep_head_list _ _ HRep), (Rep_size_list _ _ HRep).
  destruct (remLoop_spec count el l (S (Z.to_nat (Z.of_nat (length l)))) b [] 0 0)
    as (b' & Hloop & HRep'); [done|done|done|lia|].
  destruct (remSeq_sound count el l 0) as (Hs & Hf & Hr & Hb).
  exists b', (DList.remSeq equal count el 0 l).1,
         (DList.remSeq equal count el 0 l).2.
  split; [done|]. split; [done|]. split; [done|]. split; [done|].
  split; [lia|done].
Qed.

(** X9.  [LRem] with count 1 takes out the first element that [equal]
    finds equal to [el], and returns 1. *)
Theorem LRem_first b l1 a x l2 (el : T) :
  DList.Rep b (l1 ++ (a, x) :: l2) →
  Forall (λ e, equal e.2 el = false) l1 → equal x el = true →
  ∃ b', DList.LRem equal b 1 el = Some (b', 1) ∧ DList.Rep b' (l1 ++ l2).
Proof.
  intros HRep Hl1 Hx. unfold DList.LRem.
  rewrite (Rep_head_list _ _ HRep), (Rep_size_list _ _ HRep).
  destruct (remLoop_spec 1 el (l1 ++ (a, x) :: l2)
              (S (Z.to_nat (Z.of_nat (length (l1 ++ (a, x) :: l2))))) b [] 0 0)
    as (b' & Hloop & HRep'); [done|done|done|lia|].
  assert (Hseq : DList.remSeq equal 1 el 0 (l1 ++ (a, x) :: l2) = (l1 ++ l2, 1)).
  { clear -Hl1 Hx. induction l1 as [|[c y] l1 IH].
    - cbn [app DList.remSeq]. simpl length.
      destruct (Z.ltb_spec 0 (Z.of_nat (S (length l2)))); [|lia].
      by rewrite Hx.
    - apply Forall_cons in Hl1 as [Hy Hl1]. simpl in Hy.
      rewrite <- app_comm_cons. cbn [DList.remSeq].
      destruct (Z.ltb_spec 0 (Z.of_nat (length ((c, y) :: l1 ++ (a, x) :: l2))));
        [|simpl in *; lia].
      by rewrite Hy, (IH Hl1). }
  rewrite Hseq in Hloop, HRep'. by exists b'.
Qed.

(** On elements that are all equal to [el], with a count that does not
    stop the loop. *)
Lemma remSeq_all (count : Z) (el : T) l : ∀ removed,
  Forall (λ e, equal e.2 el = true) l → 0 ≤ removed → count ≤ removed →
  let t := Z.to_nat ((Z.max 0 (Z.of_nat (length l) - removed) + 1) / 2) in
  DList.remSeq equal count el removed l = (drop t l, removed + Z.of_nat t).
Proof.
  induction l as [|[a x] l IH]; intros removed Hall Hrem Hcount t.
  - simpl. rewrite drop_nil. f_equal.
    assert (t = 0%nat) as -> by (unfold t; simpl length; zify; Z.div_mod_to_equations; lia).
    lia.
  - apply Forall_cons in Hall as [Hx Hall]. simpl in Hx.
    cbn [DList.remSeq].
    destruct (Z.ltb_spec removed (Z.of_nat (length ((a, x) :: l)))) as [Hlt|Hge].
    + rewrite Hx. destruct (Z.eqb_spec (removed + 1) count); [lia|].
      rewrite (IH (removed + 1)) by (done || lia).
      assert (Ht : t = S (Z.to_nat
                     ((Z.max 0 (Z.of_nat (length l) - (removed + 1)) + 1) / 2))).
      { unfold t. simpl length in *. zify. Z.div_mod_to_equations. lia. }
      rewrite Ht. simpl drop. f_equal. lia.
    + assert (t = 0%nat) as ->
        by (unfold t; simpl length in *; zify; Z.div_mod_to_equations; lia).
      simpl. f_equal. lia.
Qed.

(** X10.  The test of the loop of [LRem] reads the size that [delete]
    counts down, so the loop stops half way: on a list of [n] elements
    that are all equal to [el], a call with a count of zero or less takes
    out the first [(n + 1) / 2] of them and leaves the others. *)
Theorem LRem_stops_half_way b l (count : Z) (el : T) :
  DList.Rep b l → Forall (λ e, equal e.2 el = true) l → count ≤ 0 →
  ∃ b', DList.LRem equal b count el
        = Some (b', (Z.of_nat (length l) + 1) / 2)
        ∧ DList.Rep b' (drop (Z.to_nat ((Z.of_nat (length l) + 1) / 2)) l).
Proof.
  intros HRep Hall Hcount. unfold DList.LRem.
  rewrite (Rep_head_list _ _ HRep), (Rep_size_list _ _ HRep).
  destruct (remLoop_spec count el l (S (Z.to_nat (Z.of_nat (length l)))) b [] 0 0)
    as (b' & Hloop & HRep'); [done|done|done|lia|].
  rewrite (remSeq_all count el l 0 Hall) in Hloop, HRep' by (done || lia).
  rewrite Z.sub_0_r, Z.max_r in Hloop, HRep' by lia.
  cbn [fst snd] in Hloop, HRep'. exists b'. split; [|done].
  rewrite Hloop. do 2 f_equal.
  zify. Z.div_mod_to_equations. lia.
Qed.

(** [LRem] on a list of one element that is equal to [el]. *)
Lemma LRem_only b a x (count : Z) (el : T) :
  DList.Rep b [(a, x)] → equal x el = true →
  ∃ b', DList.LRem equal b count el = Some (b', 1) ∧ DList.Rep b' [].
Proof.
  intros HRep Hx. unfold DList.LRem.
  rewrite (Rep_head_list _ _ HRep), (Rep_size_list _ _ HRep).
  destruct (remLoop_spec count el [(a, x)] (S (Z.to_nat (Z.of_nat 1))) b [] 0 0)
    as (b' & Hloop & HRep'); [done|done|done|simpl; lia|].
  assert (Hseq : DList.remSeq equal count el 0 [(a, x)] = ([], 1)).
  { cbn [DList.remSeq]. rewrite Hx. simpl length.
    destruct (Z.ltb_spec 0 (Z.of_nat 1)); [|lia].
    by destruct (0 + 1 =? count). }
  rewrite Hseq in Hloop, HRep'. by exists b'.
Qed.

End WithEqual.

Lemma Rep_clear b : DList.Rep (DList.clear b) [].
Proof. repeat split. constructor. Qed.

(** X11.  [LTrim] refuses the ranges that [LRange] refuses and leaves
    the list alone; else the list holds afterwards what [LRange] would
    have returned, in the same order, and nothing when [start] is past
    the end.  It does not panic. *)
Theorem LTrim_spec b l (start stop : Z) :
  DList.Rep b l →
  (0 ≤ start ≤ stop →
   ∃ b' l', DList.LTrim b start stop = Some (b', None)
            ∧ DList.Rep b' l'
            ∧ l'.*2 = drop (Z.to_nat start) (take (Z.to_nat (stop + 1)) l.*2))
  ∧ (¬ (0 ≤ start ≤ stop) →
     DList.LTrim b start stop = Some (b, Some "invalid range")).
Proof.
  intros HRep. pose proof HRep as (Hnd & Hl & _).
  unfold DList.LTrim. rewrite (Rep_size_list _ _ HRep), (Rep_head_list _ _ HRep).
  split.
  - intros Hr.
    destruct (Z.ltb_spec start 0); [lia|].
    destruct (Z.ltb_spec stop 0); [lia|].
    destruct (Z.ltb_spec stop start); [lia|]. simpl.
    rewrite (collect_links _ _ _ _ _ _ _ _ Hl).
    2:{ destruct (Z.leb_spec (Z.of_nat (length l)) stop); lia. }
    cbn [mbind option_bind app]. rewrite Z.sub_0_r.
    match goal with |- context [DList.LPush _ ?els] =>
      destruct (LPush_spec els _ _ (Rep_clear b)) as (b' & l' & Hpush & HRep' & Hels)
    end.
    rewrite Hpush. cbn [mbind option_bind].
    exists b', l'. split; [done|]. split; [done|]. rewrite Hels. f_equal.
    destruct (Z.leb_spec (Z.of_nat (length l)) stop); [|done].
    rewrite !take_ge; [done| |]; rewrite length_fmap; lia.
  - intros Hout.
    destruct (Z.ltb_spec start 0); [done|].
    destruct (Z.ltb_spec stop 0); [done|].
    destruct (Z.ltb_spec stop start); [done|lia].
Qed.

(** The recursion of [deepCopyNode] along a list. *)
Lemma deepCopyNode_spec l : ∀ fuel h p prevCopy a x,
  DList.links h p ((a, x) :: l) None → (S (length l) < fuel)%nat →
  ∃ h' l2,
    DList.deepCopyNode fuel h (Some a) prevCopy
    = Some (h', DList.firstAddr None l2)
    ∧ l2.*2 = ((a, x) :: l).*2
    ∧ DList.links h' prevCopy l2 None
    ∧ NoDup l2.*1
    ∧ (∀ c, c ∈ l2.*1 → c ∉ dom h)
    ∧ (∀ c, c ∈ dom h → h' !! c = h !! c).
Proof.
  induction l as [|[a' x'] l IH]; intros fuel h p prevCopy a x Hl Hfuel.
  - destruct fuel as [|f]; [lia|].
    destruct (proj1 (links_unfold _ _ _ _ _ _) Hl) as [Ha _].
    cbn [DList.deepCopyNode mbind option_bind]. rewrite Ha.
    cbn [mbind option_bind DList.next DList.element DList.firstAddr].
    unfold DList.deepCopyElement.
    set (c := fresh (dom h)).
    assert (Hc : c ∉ dom h) by apply is_fresh.
    exists (<[c := DList.mkListNode x None prevCopy]> h), [(c, x)].
    split; [done|]. split; [done|]. split.
    { simpl. by rewrite lookup_insert_eq. }
    split; [apply NoDup_singleton|]. split.
    + intros d Hd. simpl in Hd. apply list_elem_of_singleton in Hd. by subst.
    + intros d Hd. rewrite lookup_insert_ne; [done|]. by intros <-.
  - destruct fuel as [|f]; [lia|].
    destruct (proj1 (links_unfold _ _ _ _ _ _) Hl) as [Ha Hl'].
    cbn [DList.deepCopyNode mbind option_bind]. rewrite Ha.
    cbn [mbind option_bind DList.next DList.element DList.firstAddr].
    unfold DList.deepCopyElement.
    set (c := fresh (dom h)).
    assert (Hc : c ∉ dom h) by apply is_fresh.
    set (h1 := <[c := DList.mkListNode x None prevCopy]> h).
    assert (Hl1 : DList.links h1 (Some a) ((a', x') :: l) None).
    { eapply links_frame; [|exact Hl']. intros d Hd.
      unfold h1. rewrite lookup_insert_ne; [done|]. intros <-.
      apply Hc. apply elem_of_dom. by apply (links_in_heap _ _ _ _ _ Hl'). }
    destruct (IH f h1 (Some a) (Some c) a' x' Hl1)
      as (h2 & l2 & Hcopy & Hels & Hl2 & Hnd2 & Hfresh2 & Hold2).
    { simpl in Hfuel |- *. lia. }
    rewrite Hcopy. cbn [mbind option_bind].
    assert (Hc1 : c ∈ dom h1) by (unfold h1; rewrite dom_insert; set_solver).
    unfold DList.setNext. rewrite (Hold2 c Hc1).
    unfold h1 at 1. rewrite lookup_insert_eq.
    cbn [mbind option_bind DList.element DList.prev].
    assert (Hcl2 : c ∉ l2.*1).
    { intros Hin. by apply (Hfresh2 c Hin). }
    exists (<[c := DList.mkListNode x (DList.firstAddr None l2) prevCopy]> h2),
           ((c, x) :: l2).
    split; [done|]. split; [by rewrite !fmap_cons, Hels|]. split.
    { apply links_unfold. split; [by rewrite lookup_insert_eq|].
      eapply links_frame; [|exact Hl2]. intros d Hd.
      rewrite lookup_insert_ne; [done|]. by intros <-. }
    split; [rewrite fmap_cons; by apply NoDup_cons|]. split.
    + intros d Hd. rewrite fmap_cons in Hd. apply elem_of_cons in Hd as [->|Hd].
      * done.
      * intros Hd'. apply (Hfresh2 d Hd). unfold h1. rewrite dom_insert.
        set_solver.
    + intros d Hd. assert (d ≠ c) by (by intros ->).
      rewrite lookup_insert_ne by done.
      rewrite Hold2 by (unfold h1; rewrite dom_insert; set_solver).
      unfold h1. by rewrite lookup_insert_ne.
Qed.

Lemma toLast_links l : ∀ fuel h p a x,
  DList.links h p ((a, x) :: l) None → (length l < fuel)%nat →
  DList.toLast fuel h a = DList.lastAddr None ((a, x) :: l).
Proof.
  induction l as [|[a' x'] l IH]; intros fuel h p a x Hl Hfuel.
  - destruct fuel as [|f]; [lia|].
    destruct (proj1 (links_unfold _ _ _ _ _ _) Hl) as [Ha _].
    simpl. by rewrite Ha.
  - destruct fuel as [|f]; [simpl in Hfuel; lia|].
    destruct (proj1 (links_unfold _ _ _ _ _ _) Hl) as [Ha Hl'].
    cbn [DList.toLast mbind option_bind]. rewrite Ha.
    cbn [mbind option_bind DList.next DList.firstAddr].
    rewrite (IH f h (Some a) a' x' Hl') by (simpl in Hfuel; lia).
    by rewrite !lastAddr_cons.
Qed.

Lemma links_length h p l q :
  NoDup l.*1 → DList.links h p l q → (length l ≤ base.size h)%nat.
Proof.
  intros Hnd Hl.
  rewrite <- (length_fmap fst l), <- (size_list_to_set (C := gset addr)) by done.
  rewrite <- size_dom. apply subseteq_size.
  intros a Ha. apply elem_of_list_to_set in Ha.
  apply elem_of_dom. by apply (links_in_heap _ _ _ _ _ Hl).
Qed.

(** X12.  [DeepCopy] returns a list of the same elements in the same
    order, made of nodes that did not exist before; the nodes of the
    list that is copied are left as they are.  On the empty list it
    returns an empty list. *)
Theorem DeepCopy_spec b l :
  DList.Rep b l →
  ∃ b' l',
    DList.DeepCopy b = Some b'
    ∧ DList.Rep b' l'
    ∧ l'.*2 = l.*2
    ∧ (∀ c, c ∈ l'.*1 → c ∉ dom (DList.nodes b))
    ∧ (∀ c, c ∈ dom (DList.nodes b) → DList.nodes b' !! c = DList.nodes b !! c).
Proof.
  intros HRep. pose proof HRep as (Hnd & Hl & _ & _ & Hsz).
  unfold DList.DeepCopy. rewrite (Rep_head_list _ _ HRep).
  destruct l as [|[a x] l].
  - simpl. eexists _, []. split; [done|]. split; [by apply Rep_intro|].
    split; [done|]. split; [|done]. intros c Hc. by apply elem_of_nil in Hc.
  - cbn [DList.firstAddr].
    destruct (deepCopyNode_spec l (S (base.size (DList.nodes b)))
                (DList.nodes b) None None a x Hl)
      as (h' & l2 & Hcopy & Hels & Hl2 & Hnd2 & Hfresh & Hold).
    { pose proof (links_length _ _ _ _ Hnd Hl) as Hlen. simpl in Hlen. lia. }
    rewrite Hcopy. cbn [mbind option_bind].
    destruct l2 as [|[c y] l2]; [done|].
    cbn [DList.firstAddr mbind option_bind].
    rewrite (toLast_links _ _ _ _ _ _ Hl2).
    2:{ pose proof (links_length _ _ _ _ Hnd2 Hl2) as Hlen. simpl in Hlen. lia. }
    assert (Hlast : ∃ t, DList.lastAddr None ((c, y) :: l2) = Some t).
    { destruct l2 as [|e l2 _] using rev_ind; [by exists c|].
      destruct e as [t z]. exists t.
      by rewrite app_comm_cons, lastAddr_snoc. }
    destruct Hlast as [t Ht]. rewrite Ht. cbn [mbind option_bind].
    eexists _, ((c, y) :: l2). split; [done|]. split; [|done].
    apply Rep_intro; cbn [DList.nodes DList.head DList.tail DList.size]; try done.
    rewrite Hsz. rewrite <- (length_fmap snd ((a, x) :: l)), <- Hels.
    by rewrite length_fmap.
Qed.

Lemma LRange_from_0 b l (stop : Z) :
  DList.Rep b l → 0 ≤ stop →
  DList.LRange b 0 stop = Some (take (Z.to_nat (stop + 1)) l.*2, None).
Proof.
  intros HRep Hstop. pose proof HRep as (Hnd & Hl & _).
  unfold DList.LRange.
  rewrite (Rep_size_list _ _ HRep), (Rep_head_list _ _ HRep).
  destruct (Z.ltb_spec stop 0); [lia|]. simpl.
  rewrite (collect_links _ _ _ _ _ _ _ _ Hl).
  2:{ destruct (Z.leb_spec (Z.of_nat (length l)) stop); lia. }
  simpl. do 2 f_equal.
  destruct (Z.leb_spec (Z.of_nat (length l)) stop); [|done].
  rewrite !take_ge; [done| |]; rewrite length_fmap; lia.
Qed.

Lemma LRange_whole b l :
  DList.Rep b l → DList.LRange b 0 (DList.LLen b) = Some (l.*2, None).
Proof.
  intros HRep. rewrite (LRange_from_0 _ _ _ HRep).
  - rewrite take_ge; [done|]. unfold DList.LLen.
    rewrite (Rep_size_list _ _ HRep), length_fmap. lia.
  - unfold DList.LLen. rewrite (Rep_size_list _ _ HRep). lia.
Qed.

(** A range that starts past the end empties the list. *)
Lemma LTrim_past_end b l (start stop : Z) :
  DList.Rep b l → Z.of_nat (length l) ≤ start ≤ stop →
  ∃ b', DList.LTrim b start stop = Some (b', None) ∧ DList.Rep b' [].
Proof.
  intros HRep Hr. pose proof HRep as (Hnd & Hl & _).
  unfold DList.LTrim. rewrite (Rep_size_list _ _ HRep), (Rep_head_list _ _ HRep).
  destruct (Z.ltb_spec start 0); [lia|].
  destruct (Z.ltb_spec stop 0); [lia|].
  destruct (Z.ltb_spec stop start); [lia|]. simpl.
  destruct (Z.leb_spec (Z.of_nat (length l)) stop); [|lia].
  rewrite (collect_links _ _ _ _ _ _ _ _ Hl) by lia.
  rewrite drop_ge by (rewrite length_take, length_fmap; lia).
  simpl. eexists; split; [done|]. apply Rep_clear.
Qed.

(** X13.  [LPush] adds its elements at the tail end, in the order they
    are given, and [RPush] at the head end, each in front of the one
    given before: [LLen] grows by their number, and [LRange] over the
    whole list shows the order. *)
Theorem push_order b l (els : list T) :
  DList.Rep b l →
  (∃ b', DList.LPush b els = Some b'
         ∧ DList.LLen b' = Z.of_nat (length l + length els)
         ∧ DList.LRange b' 0 (DList.LLen b') = Some (l.*2 ++ els, None))
  ∧ (∃ b', DList.RPush b els = Some b'
           ∧ DList.LLen b' = Z.of_nat (length l + length els)
           ∧ DList.LRange b' 0 (DList.LLen b')
             = Some (reverse els ++ l.*2, None)).
Proof.
  intros HRep. split.
  - destruct (LPush_spec els b l HRep) as (b' & l' & Hpush & HRep' & Hels).
    exists b'. split; [done|]. split.
    + unfold DList.LLen. rewrite (Rep_size_list _ _ HRep'), length_app.
      by rewrite <- Hels, length_fmap.
    + by rewrite (LRange_whole _ _ HRep'), fmap_app, Hels.
  - destruct (RPush_spec els b l HRep) as (b' & l' & Hpush & HRep' & Hels).
    exists b'. split; [done|]. split.
    + unfold DList.LLen. rewrite (Rep_size_list _ _ HRep'), length_app.
      rewrite <- (length_reverse els), <- Hels, length_fmap. f_equal. lia.
    + by rewrite (LRange_whole _ _ HRep'), fmap_app, Hels.
Qed.

(** X14.  A push at one end and a pop at the other.  After [LPush(x)]
    the element [x] is the one [RPop] returns, and after [RPush(x)] the
    one [LPop] returns, the list being then what it was; on a list that
    is not empty, [LPop] after [LPush(x)] returns the element that was
    first, and leaves [x] last. *)
Theorem push_pop b l (x : T) :
  DList.Rep b l →
  (∃ b1 b2, DList.LPush b [x] = Some b1
            ∧ DList.RPop b1 = Some (b2, (x, bool_decide (l = []), None))
            ∧ DList.Rep b2 l)
  ∧ (∃ b1 b2, DList.RPush b [x] = Some b1
              ∧ DList.LPop b1 = Some (b2, (x, bool_decide (l = []), None))
              ∧ DList.Rep b2 l)
  ∧ (∀ a y l', l = (a, y) :: l' →
       ∃ b1 b2 l2, DList.LPush b [x] = Some b1
                   ∧ DList.LPop b1 = Some (b2, (y, false, None))
                   ∧ DList.Rep b2 l2
                   ∧ l2.*2 = l'.*2 ++ [x]).
Proof.
  intros HRep.
  destruct (append_spec b l x HRep) as (b1 & Happ & HRep1).
  destruct (prepend_spec b l x HRep) as (b1' & Hpre & HRep1').
  split; [|split].
  - destruct (RPop_spec _ _ _ _ HRep1) as (b2 & Hpop & HRep2).
    exists b1, b2. split; [|done]. simpl. simpl in Happ. by rewrite Happ.
  - destruct (LPop_spec _ _ _ _ HRep1') as (b2 & Hpop & HRep2).
    exists b1', b2. split; [|done]. simpl. simpl in Hpre. by rewrite Hpre.
  - intros a y l' ->. rewrite <- app_comm_cons in HRep1.
    destruct (LPop_spec _ _ _ _ HRep1) as (b2 & Hpop & HRep2).
    exists b1, b2, (l' ++ [((DList.newNode b x).1, x)]).
    split; [|split; [|split; [exact HRep2|]]].
    + simpl. simpl in Happ. by rewrite Happ.
    + rewrite Hpop. rewrite bool_decide_false; [done|].
      intros Heq. by apply app_eq_nil in Heq as [_ ?].
    + by rewrite fmap_app.
Qed.

End WithElement.

Lemma Rep_fourSevens :
  DList.Rep DList.fourSevens [(0%nat, 7); (1%nat, 7); (2%nat, 7); (3%nat, 7)].
Proof.
  repeat split; try (by vm_compute).
  apply (bool_decide_unpack _). by vm_compute.
Qed.

(** The last element of the list of [LPush(10, 20)]. *)
Lemma LIndex_spec_witness :
  DList.LIndex 0 DList.twoElements (-1) = Some (20, None).
Proof.
  apply (proj1 (LIndex_spec 0 DList.twoElements [(0%nat, 10); (1%nat, 20)]
                  (-1) Rep_twoElements) 20).
  - simpl. lia.
  - reflexivity.
Defined.

(** The list of [LPush(10, 20)] from 0 to 5. *)
Lemma LRange_spec_witness :
  DList.LRange DList.twoElements 0 5 = Some ([10; 20], None).
Proof.
  exact (LRange_spec DList.twoElements [(0%nat, 10); (1%nat, 20)] 0 5
           Rep_twoElements).
Defined.

(** The second element of the list of [LPush(10, 20)] set to 99. *)
Lemma LSet_spec_witness :
  ∃ b', DList.LSet DList.twoElements 1 99 = Some (b', None)
        ∧ DList.Rep b' [(0%nat, 10); (1%nat, 99)].
Proof.
  apply (proj1 (LSet_spec DList.twoElements [(0%nat, 10); (1%nat, 20)] 1 99
                  Rep_twoElements) 1%nat 20).
  - lia.
  - reflexivity.
Defined.

(** The list of [LPush(10, 20)], equality of integers, two removals of 20
    asked for. *)
Lemma LRem_spec_witness :
  ∃ b' l' (removed : Z),
    DList.LRem Z.eqb DList.twoElements 2 20 = Some (b', removed)
    ∧ DList.Rep b' l'
    ∧ sublist l' [(0%nat, 10); (1%nat, 20)]
    ∧ filter (λ e, Z.eqb e.2 20 = false) l'
      = filter (λ e, Z.eqb e.2 20 = false) [(0%nat, 10); (1%nat, 20)]
    ∧ removed = Z.of_nat (length [(0%nat, 10); (1%nat, 20)])
                - Z.of_nat (length l')
    ∧ (0 < 2 → removed ≤ 2).
Proof.
  apply (LRem_spec Z.eqb DList.twoElements [(0%nat, 10); (1%nat, 20)] 2 20).
  exact Rep_twoElements.
Defined.

(** The list of [LPush(10, 20)], the first 20 removed. *)
Lemma LRem_first_witness :
  ∃ b', DList.LRem Z.eqb DList.twoElements 1 20 = Some (b', 1)
        ∧ DList.Rep b' ([(0%nat, 10)] ++ []).
Proof.
  apply (LRem_first Z.eqb DList.twoElements [(0%nat, 10)] 1%nat 20 [] 20).
  - exact Rep_twoElements.
  - repeat constructor.
  - reflexivity.
Defined.

(** Four elements equal to 7, all of them to be removed: two are. *)
Lemma LRem_stops_half_way_witness :
  ∃ b', DList.LRem Z.eqb DList.fourSevens 0 7
        = Some (b', (Z.of_nat (length [(0%nat, 7); (1%nat, 7); (2%nat, 7);
                                       (3%nat, 7)]) + 1) / 2)
        ∧ DList.Rep b'
            (drop (Z.to_nat ((Z.of_nat (length [(0%nat, 7); (1%nat, 7);
                                                (2%nat, 7); (3%nat, 7)]) + 1) / 2))
               [(0%nat, 7); (1%nat, 7); (2%nat, 7); (3%nat, 7)]).
Proof.
  apply (LRem_stops_half_way Z.eqb DList.fourSevens
           [(0%nat, 7); (1%nat, 7); (2%nat, 7); (3%nat, 7)] 0 7).
  - exact Rep_fourSevens.
  - repeat constructor.
  - lia.
Defined.

(** The list of [LPush(10, 20)] trimmed to its second element. *)
Lemma LTrim_spec_witness :
  ∃ b' l', DList.LTrim DList.twoElements 1 1 = Some (b', None)
           ∧ DList.Rep b' l'
           ∧ l'.*2 = drop (Z.to_nat 1)
                       (take (Z.to_nat (1 + 1)) [(0%nat, 10); (1%nat, 20)].*2).
Proof.
  apply (proj1 (LTrim_spec DList.twoElements [(0%nat, 10); (1%nat, 20)] 1 1
                  Rep_twoElements)).
  lia.
Defined.

(** A copy of the list of [LPush(10, 20)]. *)
Lemma DeepCopy_spec_witness :
  ∃ b' l',
    DList.DeepCopy DList.twoElements = Some b'
    ∧ DList.Rep b' l'
    ∧ l'.*2 = [(0%nat, 10); (1%nat, 20)].*2
    ∧ (∀ c, c ∈ l'.*1 → c ∉ dom (DList.nodes DList.twoElements))
    ∧ (∀ c, c ∈ dom (DList.nodes DList.twoElements) →
         DList.nodes b' !! c = DList.nodes DList.twoElements !! c).
Proof.
  apply (DeepCopy_spec DList.twoElements [(0%nat, 10); (1%nat, 20)]).
  exact Rep_twoElements.
Defined.

(** 30 and 40 pushed onto the list of [LPush(10, 20)]. *)
Lemma push_order_witness :
  (∃ b', DList.LPush DList.twoElements [30; 40] = Some b'
         ∧ DList.LLen b'
           = Z.of_nat (length [(0%nat, 10); (1%nat, 20)] + length [30; 40])
         ∧ DList.LRange b' 0 (DList.LLen b')
           = Some ([(0%nat, 10); (1%nat, 20)].*2 ++ [30; 40], None))
  ∧ (∃ b', DList.RPush DList.twoElements [30; 40] = Some b'
           ∧ DList.LLen b'
             = Z.of_nat (length [(0%nat, 10); (1%nat, 20)] + length [30; 40])
           ∧ DList.LRange b' 0 (DList.LLen b')
             = Some (reverse [30; 40] ++ [(0%nat, 10); (1%nat, 20)].*2, None)).
Proof.
  apply (push_order DList.twoElements [(0%nat, 10); (1%nat, 20)] [30; 40]).
  exact Rep_twoElements.
Defined.

(** 30 pushed onto the list of [LPush(10, 20)], at either end. *)
Lemma push_pop_witness :
  (∃ b1 b2, DList.LPush DList.twoElements [30] = Some b1
            ∧ DList.RPop b1
              = Some (b2, (30, bool_decide ([(0%nat, 10); (1%nat, 20)] = []),
                           None))
            ∧ DList.Rep b2 [(0%nat, 10); (1%nat, 20)])
  ∧ (∃ b1 b2, DList.RPush DList.twoElements [30] = Some b1
              ∧ DList.LPop b1
                = Some (b2, (30, bool_decide ([(0%nat, 10); (1%nat, 20)] = []),
                             None))
              ∧ DList.Rep b2 [(0%nat, 10); (1%nat, 20)])
  ∧ (∀ a y l', [(0%nat, 10); (1%nat, 20)] = (a, y) :: l' →
       ∃ b1 b2 l2, DList.LPush DList.twoElements [30] = Some b1
                   ∧ DList.LPop b1 = Some (b2, (y, false, None))
                   ∧ DList.Rep b2 l2
                   ∧ l2.*2 = l'.*2 ++ [30]).
Proof.
  apply (push_pop DList.twoElements [(0%nat, 10); (1%nat, 20)] 30).
  exact Rep_twoElements.
Defined.

End DListFacts.

(** * Properties of the list commands *)
Module ListEvalFacts.
Import ListEval DListProofs DListFacts StoreFacts.
Section WithElement.
Context {T : Type}.
Implicit Types (e : Eval (T:=T)) (b : DList.List T) (l : list (addr * T))
  (vals vs : list T) (strs : list string).

(** The evaluator after [e.store.Get(key)]. *)
Lemma getList_found e key now h b :
  Store.store (store e) !! key = Some h → objects e !! h = Some (ObjList b) →
  ∃ e1, getList e key now = (e1, Ok h)
        ∧ objects e1 = objects e
        ∧ Store.store (store e1) = Store.store (store e)
        ∧ asList e1 (Some h) = Some b.
Proof.
  intros Hk Hh. unfold getList, Store.Get. rewrite Hk.
  cbn [negb asList]. rewrite Hh.
  eexists; split; [done|]. cbn [objects store Store.store asList].
  by rewrite Hh.
Qed.

Lemma getList_absent e key now :
  absent e key → getList e key now = (e, Err "no such key").
Proof.
  unfold absent, getList, Store.Get. intros ->. by destruct e.
Qed.

Lemma getOrCreateList_found e key now h b :
  Store.store (store e) !! key = Some h → objects e !! h = Some (ObjList b) →
  ∃ e1, getOrCreateList e key now = (e1, Ok h)
        ∧ objects e1 = objects e
        ∧ Store.store (store e1) = Store.store (store e).
Proof.
  intros Hk Hh. unfold getOrCreateList, Store.Get. rewrite Hk.
  cbn [negb asList]. rewrite Hh. by eexists.
Qed.

Lemma getOrCreateList_absent e key now :
  absent e key →
  ∃ e1 h, getOrCreateList e key now = (e1, Ok h)
          ∧ objects e1 !! h = Some (ObjList DList.NewLists)
          ∧ Store.store (store e1) !! key = Some h.
Proof.
  unfold absent, getOrCreateList, Store.Get. intros ->. cbn [negb].
  eexists _, _. split; [done|]. cbn [objects store].
  by rewrite lookup_insert_eq, store_Put, lookup_insert_eq.
Qed.

Section WithConvert.
Context (convertArgToType : string → option T).

Lemma pushLoop_spec strs : ∀ vs e h b l,
  objects e !! h = Some (ObjList b) → DList.Rep b l →
  Forall2 (λ s v, convertArgToType s = Some v) strs vs →
  ∃ e' b' l',
    pushLoop convertArgToType e h strs = Some (e', Ok tt)
    ∧ store e' = store e
    ∧ objects e' !! h = Some (ObjList b')
    ∧ DList.Rep b' l' ∧ l'.*2 = l.*2 ++ vs.
Proof.
  induction strs as [|s strs IH]; intros vs e h b l Hh HRep Hconv.
  - apply Forall2_nil_inv_l in Hconv as ->.
    exists e, b, l. by rewrite app_nil_r.
  - apply Forall2_cons_inv_l in Hconv as (v & vs' & Hv & Hconv & ->).
    cbn [pushLoop]. rewrite Hv. cbn [asList]. rewrite Hh.
    cbn [mbind option_bind].
    destruct (LPush_spec [v] b l HRep) as (b1 & l1 & Hpush & HRep1 & Hl1).
    rewrite Hpush. cbn [mbind option_bind].
    destruct (IH vs' {| store := store e;
                        objects := <[h := ObjList b1]> (objects e) |}
                h b1 (l ++ l1))
      as (e' & b' & l' & Hloop & Hst & Hh' & HRep' & Hl'); [|done|done|].
    { cbn [objects]. by rewrite lookup_insert_eq. }
    exists e', b', l'. split; [done|]. split; [done|]. split; [done|].
    split; [done|]. rewrite Hl', fmap_app, Hl1. by rewrite <- app_assoc.
Qed.

Lemma rpushLoop_spec strs : ∀ vs e h b l,
  objects e !! h = Some (ObjList b) → DList.Rep b l →
  Forall2 (λ s v, convertArgToType s = Some v) strs vs →
  ∃ e' b' l',
    rpushLoop convertArgToType e h strs = Some (e', Ok tt)
    ∧ store e' = store e
    ∧ objects e' !! h = Some (ObjList b')
    ∧ DList.Rep b' l' ∧ l'.*2 = reverse vs ++ l.*2.
Proof.
  induction strs as [|s strs IH]; intros vs e h b l Hh HRep Hconv.
  - apply Forall2_nil_inv_l in Hconv as ->. by exists e, b, l.
  - apply Forall2_cons_inv_l in Hconv as (v & vs' & Hv & Hconv & ->).
    cbn [rpushLoop]. rewrite Hv. cbn [asList]. rewrite Hh.
    cbn [mbind option_bind].
    destruct (RPush_spec [v] b l HRep) as (b1 & l1 & Hpush & HRep1 & Hl1).
    rewrite Hpush. cbn [mbind option_bind].
    destruct (IH vs' {| store := store e;
                        objects := <[h := ObjList b1]> (objects e) |}
                h b1 (l1 ++ l))
      as (e' & b' & l' & Hloop & Hst & Hh' & HRep' & Hl'); [|done|done|].
    { cbn [objects]. by rewrite lookup_insert_eq. }
    exists e', b', l'. split; [done|]. split; [done|]. split; [done|].
    split; [done|]. rewrite Hl', fmap_app, Hl1.
    change (reverse [v]) with [v].
    by rewrite (reverse_cons vs'), <- app_assoc.
Qed.

(** X15.  [LPUSH] and [RPUSH] on a key that holds a list, or on a key
    that is absent, which then holds a new list: when every value
    converts, [LPUSH] puts the values after the elements the list has, in
    the order of the command, [RPUSH] puts them before, the last one
    first; both return the new length. *)
Theorem push_commands e key vals strs vs (now : Z) :
  holds e key vals ∨ (absent e key ∧ vals = []) →
  Forall2 (λ s v, convertArgToType s = Some v) strs vs → strs ≠ [] →
  (∃ e', LPUSH convertArgToType e (key :: strs) now
         = Some (e', Ok (Z.of_nat (length vals + length vs)))
         ∧ holds e' key (vals ++ vs))
  ∧ (∃ e', RPUSH convertArgToType e (key :: strs) now
           = Some (e', Ok (Z.of_nat (length vals + length vs)))
           ∧ holds e' key (reverse vs ++ vals)).
Proof.
  intros Hkey Hconv Hne.
  assert (Hget : ∃ e1 h b l,
            getOrCreateList e key now = (e1, Ok h)
            ∧ objects e1 !! h = Some (ObjList b)
            ∧ Store.store (store e1) !! key = Some h
            ∧ DList.Rep b l ∧ l.*2 = vals).
  { destruct Hkey as [(h & b & l & Hk & Hh & HRep & Hl)|[Habs ->]].
    - destruct (getOrCreateList_found e key now h b Hk Hh)
        as (e1 & Hg & Hobj & Hst).
      exists e1, h, b, l. rewrite Hobj, Hst. done.
    - destruct (getOrCreateList_absent e key now Habs) as (e1 & h & Hg & Hobj & Hst).
      exists e1, h, DList.NewLists, []. repeat split; try done.
      constructor. }
  destruct Hget as (e1 & h & b & l & Hg & Hobj & Hst & HRep & Hl).
  destruct strs as [|s strs]; [done|].
  split.
  - destruct (pushLoop_spec (s :: strs) vs e1 h b l Hobj HRep Hconv)
      as (e' & b' & l' & Hloop & Hst' & Hh' & HRep' & Hl').
    exists e'. unfold LPUSH. rewrite Hg, Hloop. cbn [mbind option_bind asList].
    rewrite Hh'. cbn [mbind option_bind]. split.
    + do 3 f_equal. unfold DList.LLen. rewrite (Rep_size_list _ _ HRep').
      rewrite <- (length_fmap snd l'), Hl', length_app, Hl. done.
    + exists h, b', l'. rewrite Hst', Hl', Hl. done.
  - destruct (rpushLoop_spec (s :: strs) vs e1 h b l Hobj HRep Hconv)
      as (e' & b' & l' & Hloop & Hst' & Hh' & HRep' & Hl').
    exists e'. unfold RPUSH. rewrite Hg, Hloop. cbn [mbind option_bind asList].
    rewrite Hh'. cbn [mbind option_bind]. split.
    + do 3 f_equal. unfold DList.LLen. rewrite (Rep_size_list _ _ HRep').
      rewrite <- (length_fmap snd l'), Hl', length_app, Hl, length_reverse.
      f_equal. lia.
    + exists h, b', l'. rewrite Hst', Hl', Hl. done.
Qed.

End WithConvert.

Section WithAtoi.
Context (Atoi : string → option Z).

(** X16.  Reading a key that holds a list: [LLEN] returns the number of
    its elements, and [LRANGE] from 0 to [stop] its first [stop + 1]
    elements, all of them when [stop] is past the end; the list is as it
    was. *)
Theorem read_commands e key vals (startStr stopStr : string) (stop now : Z) :
  holds e key vals → Atoi startStr = Some 0 → Atoi stopStr = Some stop →
  0 ≤ stop →
  ∃ e1, holds e1 key vals
        ∧ LLEN e [key] now = Some (e1, Ok (Z.of_nat (length vals)))
        ∧ LRANGE Atoi e [key; startStr; stopStr] now
          = Some (e1, Ok (take (Z.to_nat (stop + 1)) vals)).
Proof.
  intros (h & b & l & Hk & Hh & HRep & Hl) Hs0 Hs1 Hstop.
  destruct (getList_found e key now h b Hk Hh) as (e1 & Hg & Hobj & Hst & Has).
  exists e1. split; [|split].
  - exists h, b, l. by rewrite Hobj, Hst.
  - unfold LLEN. rewrite Hg, Has. cbn [mbind option_bind].
    unfold DList.LLen. rewrite (Rep_size_list _ _ HRep).
    by rewrite <- Hl, length_fmap.
  - unfold LRANGE. rewrite Hs0, Hs1, Hg, Has. cbn [mbind option_bind].
    rewrite (LRange_from_0 _ _ _ HRep Hstop). cbn [mbind option_bind].
    by rewrite Hl.
Qed.

End WithAtoi.

(** X17.  [LPOP] returns the first element of the list under the key and
    [RPOP] the last one, and the list loses it; when it was the only
    element, the key is deleted. *)
Theorem pop_commands e key vals (x : T) (now : Z) :
  (holds e key (x :: vals) →
   ∃ e', LPOP e [key] now = Some (e', Ok x)
         ∧ if bool_decide (vals = []) then absent e' key else holds e' key vals)
  ∧ (holds e key (vals ++ [x]) →
     ∃ e', RPOP e [key] now = Some (e', Ok x)
           ∧ if bool_decide (vals = []) then absent e' key else holds e' key vals).
Proof.
  split.
  - intros (h & b & l & Hk & Hh & HRep & Hl).
    destruct l as [|[a y] l]; [done|]. injection Hl as -> Hl.
    destruct (getList_found e key now h b Hk Hh) as (e1 & Hg & Hobj & Hst & Has).
    destruct (LPop_spec _ _ _ _ HRep) as (b' & Hpop & HRep').
    unfold LPOP. rewrite Hg, Has. cbn [mbind option_bind]. rewrite Hpop.
    cbn [mbind option_bind]. eexists; split; [done|].
    assert (Hdec : bool_decide (l = []) = bool_decide (vals = [])).
    { apply bool_decide_ext. rewrite <- Hl. by destruct l. }
    rewrite Hdec. destruct (bool_decide (vals = [])).
    + unfold absent, Store.Delete. cbn [store]. rewrite Hst, Hk. simpl.
      by rewrite lookup_delete_eq.
    + exists h, b', l. cbn [store objects]. rewrite Hst, lookup_insert_eq. done.
  - intros (h & b & l & Hk & Hh & HRep & Hl).
    destruct l as [|[a y] l _] using rev_ind.
    { by destruct vals. }
    rewrite fmap_app in Hl. apply app_inj_tail in Hl as [Hl [= ->]].
    destruct (getList_found e key now h b Hk Hh) as (e1 & Hg & Hobj & Hst & Has).
    destruct (RPop_spec _ _ _ _ HRep) as (b' & Hpop & HRep').
    unfold RPOP. rewrite Hg, Has. cbn [mbind option_bind]. rewrite Hpop.
    cbn [mbind option_bind]. eexists; split; [done|].
    assert (Hdec : bool_decide (l = []) = bool_decide (vals = [])).
    { apply bool_decide_ext. rewrite <- Hl. by destruct l. }
    rewrite Hdec. destruct (bool_decide (vals = [])).
    + unfold absent, Store.Delete. cbn [store]. rewrite Hst, Hk. simpl.
      by rewrite lookup_delete_eq.
    + exists h, b', l. cbn [store objects]. rewrite Hst, lookup_insert_eq. done.
Qed.

Section WithAll.
Context (convertArgToType : string → option T)
  (Atoi : string → option Z) (zero : T) (equal : T → T → bool).

(** X18.  On a key that is absent, the commands that read or change a
    list answer "no such key" and leave the evaluator as it is: none of
    them creates the key. *)
Theorem absent_key e key (n1 n2 : Z) (s1 s2 sv : string) (v : T) (now : Z) :
  absent e key → Atoi s1 = Some n1 → Atoi s2 = Some n2 →
  convertArgToType sv = Some v →
  LPOP e [key] now = Some (e, Err "no such key")
  ∧ RPOP e [key] now = Some (e, Err "no such key")
  ∧ LLEN e [key] now = Some (e, Err "no such key")
  ∧ LRANGE Atoi e [key; s1; s2] now = Some (e, Err "no such key")
  ∧ LINDEX Atoi zero e [key; s1] now = Some (e, Err "no such key")
  ∧ LSET convertArgToType Atoi e [key; s1; sv] now = Some (e, Err "no such key")
  ∧ LTRIM Atoi e [key; s1; s2] now = Some (e, Err "no such key")
  ∧ LREM convertArgToType Atoi equal e [key; s1; sv] now
    = Some (e, Err "no such key").
Proof.
  intros Habs H1 H2 Hv.
  unfold LPOP, RPOP, LLEN, LRANGE, LINDEX, LSET, LTRIM, LREM.
  rewrite H1, H2, Hv, (getList_absent _ _ _ Habs). done.
Qed.

End WithAll.

Lemma pop_empty e key (now : Z) :
  holds e key [] → LPOP e [key] now = None ∧ RPOP e [key] now = None.
Proof.
  intros (h & b & l & Hk & Hh & HRep & Hl).
  destruct l; [|done].
  destruct (getList_found e key now h b Hk Hh) as (e1 & Hg & Hobj & Hst & Has).
  unfold LPOP, RPOP. rewrite Hg, Has. cbn [mbind option_bind].
  unfold DList.LPop, DList.RPop.
  rewrite (Rep_head_list _ _ HRep), (Rep_tail_list _ _ HRep). done.
Qed.

Section WithEqual.
Context (convertArgToType : string → option T)
  (Atoi : string → option Z) (equal : T → T → bool).

(** X19.  [LTRIM] with a range that starts past the end, and [LREM] of
    the only element, leave an empty list under the key, where [LPOP]
    would have deleted the key: [LPOP] and [RPOP] on the key then
    panic. *)
Theorem emptied_list_panics e key vals (s1 s2 sv : string) (start stop count : Z)
    (v : T) (now now' : Z) :
  holds e key vals → Atoi s1 = Some start → Atoi s2 = Some stop →
  (Z.of_nat (length vals) ≤ start ≤ stop →
   ∃ e', LTRIM Atoi e [key; s1; s2] now = Some (e', Ok "OK")
         ∧ holds e' key []
         ∧ LPOP e' [key] now' = None ∧ RPOP e' [key] now' = None)
  ∧ (convertArgToType sv = Some v → Atoi s1 = Some count →
     (∃ x, vals = [x] ∧ equal x v = true) →
     ∃ e', LREM convertArgToType Atoi equal e [key; s1; sv] now
           = Some (e', Ok 1)
           ∧ holds e' key []
           ∧ LPOP e' [key] now' = None ∧ RPOP e' [key] now' = None).
Proof.
  intros (h & b & l & Hk & Hh & HRep & Hl) Hs1 Hs2.
  destruct (getList_found e key now h b Hk Hh) as (e1 & Hg & Hobj & Hst & Has).
  split.
  - intros Hr.
    destruct (LTrim_past_end b l start stop HRep) as (b' & Htrim & HRep').
    { by rewrite <- (length_fmap snd l), Hl. }
    unfold LTRIM. rewrite Hs1, Hs2, Hg, Has. cbn [mbind option_bind].
    rewrite Htrim. cbn [mbind option_bind].
    eexists; split; [done|].
    match goal with |- holds ?e' _ _ ∧ _ =>
      assert (Hholds : holds e' key []) end.
    { exists h, b', []. cbn [store objects]. by rewrite Hst, lookup_insert_eq. }
    split; [done|]. by apply pop_empty.
  - intros Hv Hc (x & -> & Hx).
    destruct l as [|[a y] [|? ?]]; try done. injection Hl as ->.
    destruct (LRem_only equal b a x count v HRep Hx) as (b' & Hrem & HRep').
    assert (count = start) as -> by congruence.
    unfold LREM. rewrite Hs1, Hv, Hg, Has. cbn [mbind option_bind].
    rewrite Hrem. cbn [mbind option_bind].
    eexists; split; [done|].
    match goal with |- holds ?e' _ _ ∧ _ =>
      assert (Hholds : holds e' key []) end.
    { exists h, b', []. cbn [store objects]. by rewrite Hst, lookup_insert_eq. }
    split; [done|]. by apply pop_empty.
Qed.

End WithEqual.

End WithElement.

Lemma holds_twoPushed : holds twoPushed "k" [10; 20].
Proof.
  exists 0%nat, DList.twoElements, [(0%nat, 10); (1%nat, 20)].
  split; [by vm_compute|]. split; [by vm_compute|].
  split; [exact Rep_twoElements|done].
Qed.

(** 30 and 40 pushed under the key of the list of [LPush(10, 20)]. *)
Lemma push_commands_witness :
  (∃ e', LPUSH decimal twoPushed ("k" :: ["30"; "40"]) 200
         = Some (e', Ok (Z.of_nat (length [10; 20] + length [30; 40])))
         ∧ holds e' "k" ([10; 20] ++ [30; 40]))
  ∧ (∃ e', RPUSH decimal twoPushed ("k" :: ["30"; "40"]) 200
           = Some (e', Ok (Z.of_nat (length [10; 20] + length [30; 40])))
           ∧ holds e' "k" (reverse [30; 40] ++ [10; 20])).
Proof.
  apply (push_commands decimal twoPushed "k" [10; 20] ["30"; "40"] [30; 40] 200).
  - left. exact holds_twoPushed.
  - repeat constructor.
  - done.
Defined.

(** The list of [LPush(10, 20)] read from 0 to 5. *)
Lemma read_commands_witness :
  ∃ e1, holds e1 "k" [10; 20]
        ∧ LLEN twoPushed ["k"] 200 = Some (e1, Ok (Z.of_nat (length [10; 20])))
        ∧ LRANGE decimal twoPushed ["k"; "0"; "5"] 200
          = Some (e1, Ok (take (Z.to_nat (5 + 1)) [10; 20])).
Proof.
  apply (read_commands decimal twoPushed "k" [10; 20] "0" "5" 5 200).
  - exact holds_twoPushed.
  - reflexivity.
  - reflexivity.
  - lia.
Defined.

(** The list of [LPush(10, 20)] popped at either end. *)
Lemma pop_commands_witness :
  (∃ e', LPOP twoPushed ["k"] 200 = Some (e', Ok 10)
         ∧ if bool_decide ([20] = []) then absent e' "k" else holds e' "k" [20])
  ∧ (∃ e', RPOP twoPushed ["k"] 200 = Some (e', Ok 20)
           ∧ if bool_decide ([10] = []) then absent e' "k" else holds e' "k" [10]).
Proof.
  split.
  - apply (proj1 (pop_commands twoPushed "k" [20] 10 200)).
    exact holds_twoPushed.
  - apply (proj2 (pop_commands twoPushed "k" [10] 20 200)).
    exact holds_twoPushed.
Defined.

(** The commands on a new evaluator. *)
Lemma absent_key_witness :
  LPOP (NewEval (T:=Z)) ["k"] 200 = Some (NewEval, Err "no such key")
  ∧ RPOP (NewEval (T:=Z)) ["k"] 200 = Some (NewEval, Err "no such key")
  ∧ LLEN (NewEval (T:=Z)) ["k"] 200 = Some (NewEval, Err "no such key")
  ∧ LRANGE decimal (NewEval (T:=Z)) ["k"; "0"; "5"] 200
    = Some (NewEval, Err "no such key")
  ∧ LINDEX decimal 0 NewEval ["k"; "0"] 200 = Some (NewEval, Err "no such key")
  ∧ LSET decimal decimal NewEval ["k"; "0"; "7"] 200
    = Some (NewEval, Err "no such key")
  ∧ LTRIM decimal (NewEval (T:=Z)) ["k"; "0"; "5"] 200
    = Some (NewEval, Err "no such key")
  ∧ LREM decimal decimal Z.eqb NewEval ["k"; "0"; "7"] 200
    = Some (NewEval, Err "no such key").
Proof.
  apply (absent_key decimal decimal 0 Z.eqb NewEval "k" 0 5 "0" "5" "7" 7 200);
    reflexivity.
Defined.

(** The list of [LPush(10, 20)] trimmed from 2 to 5. *)
Lemma emptied_list_panics_witness :
  ∃ e', LTRIM decimal twoPushed ["k"; "2"; "5"] 200 = Some (e', Ok "OK")
        ∧ holds e' "k" []
        ∧ LPOP e' ["k"] 300 = None ∧ RPOP e' ["k"] 300 = None.
Proof.
  apply (proj1 (emptied_list_panics decimal decimal Z.eqb twoPushed "k" [10; 20]
                  "2" "5" "7" 2 5 2 7 200 300 holds_twoPushed
                  eq_refl eq_refl)).
  simpl. lia.
Defined.

End ListEvalFacts.

(** * Properties of the set *)
Module GoSetFacts.
Import GoSet.

(** A loop that starts on a nil map ends with an error or panics. *)
Lemma fill_nil {A B} (parse : string → option B) (conv : B → A)
    (eq : A → A → bool) (type : string) (values : list string) :
  values ≠ [] →
  fill parse conv eq type values None = None
  ∨ ∃ e, fill parse conv eq type values None = Some (inl e).
Proof.
  destruct values as [|s rest]; [done|]. intros _. simpl.
  destruct (parse s); [by left|right; eauto].
Qed.

Lemma branch_nil {A B} (parse : string → option B) (conv : B → A)
    (eq : A → A → bool) (type : string) (wrap : keys A → DSInterface)
    (values : list string) :
  values ≠ [] →
  branch parse conv eq type wrap values = None
  ∨ ∃ e, branch parse conv eq type wrap values = Some (inl e).
Proof.
  intros Hne. unfold branch.
  destruct (fill_nil parse conv eq type values Hne) as [->|[e ->]];
    [by left|right; eauto].
Qed.

(** X27.  [NewSet] never returns a set.  Every branch makes its set with
    a struct literal, which leaves the map nil, and then assigns to the
    map: without values the call returns the error of the empty slice;
    with values it returns a parse error or panics, and it panics
    whenever the first value is not a numeral.  [Add] of an element to a
    set whose map is nil panics as well. *)
Theorem NewSet_never_returns (ParseInt ParseUint : string → Z → option Z)
    (ParseFloat : string → Z → option float) (float32 : float → float)
    (values : list string) :
  NewSet ParseInt ParseUint ParseFloat float32 [] = Some (inl ErrEmpty)
  ∧ (∀ set, NewSet ParseInt ParseUint ParseFloat float32 values
            ≠ Some (inr set))
  ∧ (∀ s rest, values = s :: rest →
       ParseInt s 64 = None → ParseUint s 64 = None →
       ParseFloat s 64 = None →
       NewSet ParseInt ParseUint ParseFloat float32 values = None)
  ∧ (∀ (A : Type) (eq : A → A → bool) (v : A) (vs : list A),
       Add eq None (v :: vs) = None).
Proof.
  split; [done|]. split; [|split; [|done]].
  - intros set. destruct values as [|s rest]; [done|].
    assert (Hne : s :: rest ≠ []) by done.
    unfold NewSet.
    repeat match goal with
    | |- context [match ?x with Some _ => _ | None => _ end] => destruct x
    | |- context [if ?c then _ else _] => destruct c
    end;
    match goal with
    | |- branch ?p ?c ?e ?t ?w ?v ≠ _ =>
        destruct (branch_nil p c e t w v Hne) as [->|[err ->]]; done
    end.
  - intros s rest -> Hi Hu Hf. unfold NewSet. by rewrite Hi, Hu, Hf.
Qed.

End GoSetFacts.

(** * Properties of the hash *)
Module HashFacts.
Import Hash.

(** X28.  [HSet] and [HGet].  What [HSet] stores under a field is what
    [HGet] finds there; the other fields are as they were; [HSet]
    returns 1 when the field is new and 0 when it was there, and [HLen]
    grows by what it returns. *)
Theorem HSet_HGet (h : Hash) (field : string) (value : any) :
  HGet (HSet h field value).1 field = (Some value, true)
  ∧ (∀ f, f ≠ field → HGet (HSet h field value).1 f = HGet h f)
  ∧ (HSet h field value).2 = (if HExists h field then 0 else 1)
  ∧ HLen (HSet h field value).1 = HLen h + (HSet h field value).2.
Proof.
  unfold HGet, HSet, HExists, HLen. cbn [fst snd].
  rewrite lookup_insert_eq. split; [done|]. split; [|split].
  - intros f Hf. by rewrite lookup_insert_ne.
  - by destruct (h !! field).
  - destruct (h !! field) as [v|] eqn:Hf.
    + rewrite map_size_insert_Some by eauto. lia.
    + rewrite map_size_insert_None by done. lia.
Qed.

Lemma HDelLoop_spec (fields : list string) : ∀ (h : Hash) (deleted : Z),
  (HDelLoop h deleted fields).2
  = deleted + Z.of_nat (base.size (dom h ∩ list_to_set fields : gset string))
  ∧ ∀ f, (HDelLoop h deleted fields).1 !! f
         = if decide (f ∈ fields) then None else h !! f.
Proof.
  induction fields as [|field fields IH]; intros h deleted.
  - simpl. rewrite intersection_empty_r_L, size_empty. split; [lia|done].
  - cbn [HDelLoop]. rewrite list_to_set_cons.
    destruct (h !! field) as [v|] eqn:Hf.
    + destruct (IH (delete field h) (deleted + 1)) as [Hn Hl]. split.
      * rewrite Hn, dom_delete_L.
        assert (Hm : field ∈ dom h) by (by apply elem_of_dom_2 in Hf).
        assert (Hsplit : dom h ∩ ({[field]} ∪ list_to_set fields)
                         = ({[field]} : gset string)
                           ∪ (dom h ∖ {[field]}) ∩ list_to_set fields).
        { apply set_eq. intros x. destruct (decide (x = field)); set_solver. }
        rewrite Hsplit.
        set (B := (dom h ∖ {[field]}) ∩ list_to_set fields).
        assert (Hsz : base.size (({[field]} : gset string) ∪ B) = S (base.size B)).
        { rewrite size_union by set_solver. by rewrite size_singleton. }
        rewrite Hsz. lia.
      * intros f. rewrite Hl.
        destruct (decide (f = field)) as [->|Hne].
        -- rewrite lookup_delete_eq.
           rewrite (decide_True (P := field ∈ field :: fields)) by set_solver.
           by destruct (decide (field ∈ fields)).
        -- rewrite lookup_delete_ne by done.
           destruct (decide (f ∈ fields)).
           ++ rewrite decide_True; [done|set_solver].
           ++ rewrite decide_False; [done|set_solver].
    + destruct (IH h deleted) as [Hn Hl]. split.
      * rewrite Hn.
        assert (dom h ∩ ({[field]} ∪ list_to_set fields)
                = (dom h ∩ list_to_set fields : gset string)) as ->; [|done].
        apply not_elem_of_dom in Hf. set_solver.
      * intros f. rewrite Hl.
        destruct (decide (f = field)) as [->|Hne].
        -- rewrite (decide_True (P := field ∈ field :: fields)) by set_solver.
           by destruct (decide (field ∈ fields)).
        -- destruct (decide (f ∈ fields)).
           ++ rewrite decide_True; [done|set_solver].
           ++ rewrite decide_False; [done|set_solver].
Qed.

(** X29.  [HDel] returns the number of distinct fields among its
    arguments that the hash holds, and [HLen] goes down by this number;
    none of the arguments exists afterwards, and the other fields are as
    they were. *)
Theorem HDel_spec (h : Hash) (fields : list string) :
  (HDel h fields).2
  = Z.of_nat (base.size (dom h ∩ list_to_set fields : gset string))
  ∧ HLen (HDel h fields).1 = HLen h - (HDel h fields).2
  ∧ (∀ f, f ∈ fields → HExists (HDel h fields).1 f = false)
  ∧ (∀ f, f ∉ fields → HGet (HDel h fields).1 f = HGet h f).
Proof.
  unfold HDel. destruct (HDelLoop_spec fields h 0) as [Hn Hl].
  split; [rewrite Hn; lia|]. split; [|split].
  - rewrite Hn. unfold HLen. rewrite <- !size_dom.
    assert (Hdom : dom (HDelLoop h 0 fields).1
                   = dom h ∖ (dom h ∩ list_to_set fields)).
    { apply set_eq. intros f.
      rewrite elem_of_difference, elem_of_intersection, elem_of_list_to_set.
      rewrite !elem_of_dom, Hl. destruct (decide (f ∈ fields)).
      - split; [by intros [? ?]|]. tauto.
      - tauto. }
    rewrite Hdom, size_difference by set_solver.
    assert (Hsub : dom h ∩ list_to_set fields ⊆ dom h) by set_solver.
    apply subseteq_size in Hsub. lia.
  - intros f Hf. unfold HExists. rewrite Hl. by rewrite decide_True.
  - intros f Hf. unfold HGet. rewrite Hl. by rewrite decide_False.
Qed.

Lemma int64_add (a b : Z) : int64 (int64 a + b) = int64 (a + b).
Proof.
  unfold int64. f_equal.
  replace ((a + 2 ^ 63) mod 2 ^ 64 - 2 ^ 63 + b + 2 ^ 63)
    with ((a + 2 ^ 63) mod 2 ^ 64 + b) by lia.
  rewrite Zplus_mod_idemp_l. f_equal. lia.
Qed.

(** X30.  [HIncrBy] twice is [HIncrBy] once, by the sum the machine
    computes: on a field that is absent, that holds an [int64] or that
    holds the numeral of one, the second call adds to what the first one
    stored, an [int64] in place of the numeral; on a field that holds
    anything else both calls fail and the hash stays as it is. *)
Theorem HIncrBy_twice (ParseInt : string → option Z) (h : Hash)
    (field : string) (a b : Z) :
  HIncrBy ParseInt (HIncrBy ParseInt h field a).1 field b
  = HIncrBy ParseInt h field (int64 (a + b))
  ∧ (h !! field = None →
     HIncrBy ParseInt h field a = (<[field := VInt64 (int64 a)]> h, (int64 a, None))).
Proof.
  assert (Hsum : ∀ c, int64 (int64 (c + a) + b) = int64 (c + int64 (a + b))).
  { intros c. rewrite int64_add.
    replace (c + int64 (a + b)) with (int64 (a + b) + c) by lia.
    rewrite int64_add. f_equal. lia. }
  split.
  - unfold HIncrBy.
    destruct (h !! field) as [[v|v|v|t]|] eqn:Hf; cbn [fst].
    + by rewrite lookup_insert_eq, insert_insert_eq, Hsum.
    + by rewrite Hf.
    + destruct (ParseInt v) as [n|] eqn:Hp; cbn [fst].
      * by rewrite lookup_insert_eq, insert_insert_eq, Hsum.
      * by rewrite Hf, Hp.
    + by rewrite Hf.
    + by rewrite lookup_insert_eq, insert_insert_eq, Hsum.
  - intros Hf. unfold HIncrBy. by rewrite Hf.
Qed.

End HashFacts.

(** * The order of the keys *)
Module KeyOrder.
Import SortedSet.

(** ** Floats, through their specification *)

Lemma SFcompare_antisym x y c :
  SFcompare x y = Some c → SFcompare y x = Some (CompOpp c).
Proof.
  destruct x as [[]|[]| |[] m1 e1], y as [[]|[]| |[] m2 e2]; simpl;
    intros [= <-]; try done;
    rewrite (Z.compare_antisym e1 e2);
    destruct (e1 ?= e2)%Z; simpl; try done;
    rewrite (Pos.compare_cont_antisym m1 m2 Eq); simpl;
    by rewrite ?CompOpp_involutive.
Qed.

Lemma SFcompare_Eq_l x y z c :
  SFcompare x y = Some Eq → SFcompare y z = Some c → SFcompare x z = Some c.
Proof.
  destruct x as [[]|[]| |[] m1 e1], y as [[]|[]| |[] m2 e2]; simpl;
    try done; intros Hxy;
    destruct (Z.compare_spec e1 e2) as [->| |]; try done;
    (assert (m1 = m2) as ->
       by (apply Pos.compare_eq;
           destruct (Pos.compare_cont Eq m1 m2) eqn:E; simpl in Hxy;
           congruence || done));
    done.
Qed.

Lemma SFcompare_Lt_trans x y z :
  SFcompare x y = Some Lt → SFcompare y z = Some Lt → SFcompare x z = Some Lt.
Proof.
  destruct x as [[]|[]| |[] m1 e1], y as [[]|[]| |[] m2 e2],
           z as [[]|[]| |[] m3 e3]; simpl; try done;
    intros Hxy Hyz;
    destruct (Z.compare_spec e1 e2), (Z.compare_spec e2 e3),
             (Z.compare_spec e1 e3); simplify_eq; try done; try lia;
    destruct (Pos.compare_cont Eq m1 m2) eqn:E1,
             (Pos.compare_cont Eq m2 m3) eqn:E2; simpl in *;
      simplify_eq;
    change (Pos.compare_cont Eq m1 m2) with (m1 ?= m2)%positive in E1;
    change (Pos.compare_cont Eq m2 m3) with (m2 ?= m3)%positive in E2;
    change (PosDef.Pos.compare_cont Eq m1 m3) with (m1 ?= m3)%positive;
    first
      [ apply Pos.compare_gt_iff in E1; apply Pos.compare_gt_iff in E2;
        assert ((m1 ?= m3)%positive = Gt) as ->
          by (apply Pos.compare_gt_iff; lia)
      | rewrite (Pos.lt_trans _ _ _ E1 E2 : (m1 ?= m3)%positive = Lt) ];
    done.
Qed.

Lemma SFcompare_total x y :
  SFcompare x x ≠ None → SFcompare y y ≠ None → SFcompare x y ≠ None.
Proof. by destruct x as [[]|[]| |[] m1 e1], y as [[]|[]| |[] m2 e2]. Qed.

Lemma ltb_Some x y : (x <? y)%float = true ↔ SFcompare (Prim2SF x) (Prim2SF y) = Some Lt.
Proof.
  rewrite FloatAxioms.ltb_spec. unfold SFltb.
  by destruct (SFcompare _ _) as [[]|].
Qed.

Lemma eqb_Some x y : (x =? y)%float = true ↔ SFcompare (Prim2SF x) (Prim2SF y) = Some Eq.
Proof.
  rewrite FloatAxioms.eqb_spec. unfold SFeqb.
  by destruct (SFcompare _ _) as [[]|].
Qed.

Lemma not_nan x : is_nan x = false ↔ SFcompare (Prim2SF x) (Prim2SF x) ≠ None.
Proof.
  unfold is_nan. rewrite negb_false_iff, eqb_Some. split; [congruence|].
  intros H. destruct (SFcompare _ _) as [c|] eqn:E; [|done].
  pose proof (SFcompare_antisym _ _ _ E) as E'. rewrite E in E'.
  by destruct c.
Qed.

Lemma float_lt_trans x y z :
  (x <? y)%float = true → (y <? z)%float = true → (x <? z)%float = true.
Proof. rewrite !ltb_Some. apply SFcompare_Lt_trans. Qed.

Lemma float_lt_irrefl x : (x <? x)%float = false.
Proof.
  apply not_true_is_false. rewrite ltb_Some. intros H.
  pose proof (SFcompare_antisym _ _ _ H) as H'. by rewrite H in H'.
Qed.

Lemma float_eq_sym x y : (x =? y)%float = true → (y =? x)%float = true.
Proof. rewrite !eqb_Some. intros H. by apply SFcompare_antisym in H. Qed.

Lemma float_eq_lt x y z :
  (x =? y)%float = true → (y <? z)%float = true → (x <? z)%float = true.
Proof. rewrite eqb_Some, !ltb_Some. apply SFcompare_Eq_l. Qed.

Lemma float_lt_eq x y z :
  (x <? y)%float = true → (y =? z)%float = true → (x <? z)%float = true.
Proof.
  rewrite eqb_Some, !ltb_Some. intros Hxy Hyz.
  apply SFcompare_antisym in Hxy, Hyz. simpl in *.
  pose proof (SFcompare_Eq_l _ _ _ _ Hyz Hxy) as H.
  by apply SFcompare_antisym in H.
Qed.

Lemma float_eq_trans x y z :
  (x =? y)%float = true → (y =? z)%float = true → (x =? z)%float = true.
Proof. rewrite !eqb_Some. apply SFcompare_Eq_l. Qed.

Lemma float_lt_not_eq x y : (x <? y)%float = true → (x =? y)%float = false.
Proof.
  rewrite ltb_Some. intros H. apply not_true_is_false.
  rewrite eqb_Some. congruence.
Qed.

Lemma float_total x y :
  is_nan x = false → is_nan y = false →
  (x <? y)%float = true ∨ (x =? y)%float = true ∨ (y <? x)%float = true.
Proof.
  rewrite !not_nan, !ltb_Some, eqb_Some. intros Hx Hy.
  pose proof (SFcompare_total _ _ Hx Hy) as H.
  destruct (SFcompare (Prim2SF x) (Prim2SF y)) as [[]|] eqn:E; try done; auto.
  apply SFcompare_antisym in E. auto.
Qed.

Lemma float_eq_not_nan x y : (x =? y)%float = true → is_nan x = false.
Proof.
  intros H. unfold is_nan. apply negb_false_iff.
  eapply float_eq_trans; [done|]. by apply float_eq_sym.
Qed.

(** ** Strings *)

Lemma string_compare_refl s : String.compare s s = Eq.
Proof.
  induction s as [|c s IH]; simpl; [done|].
  unfold Ascii.compare. by rewrite N.compare_refl.
Qed.

Lemma string_lt_irrefl s : String.ltb s s = false.
Proof. unfold String.ltb. by rewrite string_compare_refl. Qed.

Lemma string_compare_trans s1 s2 s3 :
  String.compare s1 s2 = Lt → String.compare s2 s3 = Lt →
  String.compare s1 s3 = Lt.
Proof.
  revert s2 s3. induction s1 as [|c1 s1 IH]; intros [|c2 s2] [|c3 s3];
    simpl; try done.
  unfold Ascii.compare.
  destruct (Ascii.N_of_ascii c1 ?= Ascii.N_of_ascii c2)%N eqn:E12; try done;
    destruct (Ascii.N_of_ascii c2 ?= Ascii.N_of_ascii c3)%N eqn:E23; try done.
  - apply N.compare_eq in E12, E23. rewrite E12, E23, N.compare_refl. apply IH.
  - intros _ _. apply N.compare_eq in E12. by rewrite E12, E23.
  - intros _ _. apply N.compare_eq in E23. by rewrite <- E23, E12.
  - intros _ _.
    by rewrite (N.lt_trans _ _ _ E12 E23
                : (Ascii.N_of_ascii c1 ?= Ascii.N_of_ascii c3)%N = Lt).
Qed.

Lemma string_lt_trans s1 s2 s3 :
  String.ltb s1 s2 = true → String.ltb s2 s3 = true → String.ltb s1 s3 = true.
Proof.
  unfold String.ltb. intros H1 H2.
  destruct (String.compare s1 s2) eqn:E1; try done.
  destruct (String.compare s2 s3) eqn:E2; try done.
  by rewrite (string_compare_trans _ _ _ E1 E2).
Qed.

Lemma string_total s1 s2 :
  s1 ≠ s2 → String.ltb s1 s2 = true ∨ String.ltb s2 s1 = true.
Proof.
  intros Hne. unfold String.ltb.
  destruct (String.compare s1 s2) eqn:E; auto.
  - by apply String.compare_eq_iff in E.
  - rewrite String.compare_antisym, E. auto.
Qed.

(** ** Keys *)

Lemma keyLt_trans k1 k2 k3 :
  keyLt k1 k2 = true → keyLt k2 k3 = true → keyLt k1 k3 = true.
Proof.
  unfold keyLt. rewrite !orb_true_iff, !andb_true_iff.
  intros [H1|[H1 H1']] [H2|[H2 H2']].
  - left. eauto using float_lt_trans.
  - left. eauto using float_lt_eq.
  - left. eauto using float_eq_lt.
  - right. eauto using float_eq_trans, string_lt_trans.
Qed.

Lemma keyLt_irrefl k : keyLt k k = false.
Proof.
  unfold keyLt. by rewrite float_lt_irrefl, string_lt_irrefl, andb_false_r.
Qed.

Lemma keyLt_asym k1 k2 : keyLt k1 k2 = true → keyLt k2 k1 = false.
Proof.
  intros H. apply not_true_is_false. intros H'.
  pose proof (keyLt_trans _ _ _ H H') as Hk. by rewrite keyLt_irrefl in Hk.
Qed.

Lemma keyLt_total k1 k2 :
  is_nan k1.1 = false → is_nan k2.1 = false → k1.2 ≠ k2.2 →
  keyLt k1 k2 = true ∨ keyLt k2 k1 = true.
Proof.
  intros Hn1 Hn2 Hne. unfold keyLt.
  destruct (float_total _ _ Hn1 Hn2) as [H|[H|H]].
  - left. by rewrite H.
  - destruct (string_total _ _ Hne) as [Hs|Hs].
    + left. by rewrite H, Hs, orb_true_r.
    + right. by rewrite (float_eq_sym _ _ H), Hs, orb_true_r.
  - right. by rewrite H.
Qed.

Lemma less_keyLt n sc m : less n sc m = keyLt (score n, member n) (sc, m).
Proof. done. Qed.

End KeyOrder.

(** * Properties of the sorted set *)
Module SortedSetProofs.
Import SortedSet KeyOrder.

Implicit Types (h : gmap addr skipListNode) (x y a : addr) (i k : nat)
  (l q r ns lo hi : list addr) (ss : SortedSet).

(** Membership in lists built with [::] and [++]. *)
Ltac list_in :=
  repeat match goal with
  | H : context [_ ∈ _ :: _] |- _ => rewrite elem_of_cons in H
  | H : context [_ ∈ _ ++ _] |- _ => rewrite elem_of_app in H
  | H : context [_ ∈ []] |- _ => rewrite elem_of_nil in H
  end;
  repeat (rewrite elem_of_cons || rewrite elem_of_app || rewrite elem_of_nil);
  intuition (subst; auto; congruence).

#[local] Arguments lastOr : simpl never.
#[local] Arguments atLevel : simpl never.

(** ** Reading and writing [forward] *)

Lemma getForward_Some h x i v :
  getForward h x i = Some v ↔ ∃ n, h !! x = Some n ∧ forward n !! i = Some v.
Proof.
  unfold getForward. destruct (h !! x) as [n|]; simpl.
  - split; [eauto|]. by intros (? & [= <-] & ?).
  - split; [done|]. by intros (? & ? & ?).
Qed.

Lemma getForward_is_Some h x i :
  is_Some (getForward h x i) ↔ (i < height h x)%nat.
Proof.
  unfold getForward, height. destruct (h !! x) as [n|]; simpl.
  - apply lookup_lt_is_Some.
  - split; [by intros [? ?]|lia].
Qed.

Lemma height_pos_in_heap h a : (0 < height h a)%nat → is_Some (h !! a).
Proof. unfold height. destruct (h !! a); [eauto|lia]. Qed.

Lemma getForward_in_heap h x i v : getForward h x i = Some v → is_Some (h !! x).
Proof. rewrite getForward_Some. intros (? & ? & ?); eauto. Qed.

Lemma sameNodes_refl h : sameNodes h h.
Proof. by split. Qed.

Lemma sameNodes_trans h1 h2 h3 :
  sameNodes h1 h2 → sameNodes h2 h3 → sameNodes h1 h3.
Proof.
  intros [Hd1 H1] [Hd2 H2]. split; [congruence|].
  intros a. destruct (H1 a), (H2 a). split; congruence.
Qed.

Lemma setForward_spec h x i v :
  (i < height h x)%nat →
  ∃ h', setForward h x i v = Some h'
        ∧ sameNodes h h'
        ∧ ∀ a j, getForward h' a j
                 = if decide (a = x ∧ j = i) then Some v else getForward h a j.
Proof.
  unfold setForward, height. intros Hi.
  destruct (h !! x) as [n|] eqn:Hx; [|lia]. simpl.
  rewrite decide_True by done. eexists; split; [done|]. split; [split|].
  - rewrite dom_insert_L. apply elem_of_dom_2 in Hx. set_solver.
  - intros a. unfold keyOf, height.
    destruct (decide (a = x)) as [->|Hne].
    + rewrite lookup_insert_eq, Hx. simpl. by rewrite length_insert.
    + by rewrite lookup_insert_ne.
  - intros a j. unfold getForward.
    destruct (decide (a = x)) as [->|Hne].
    + rewrite lookup_insert_eq, Hx. simpl.
      destruct (decide (j = i)) as [->|Hji].
      * rewrite decide_True by done. by apply list_lookup_insert_eq.
      * rewrite decide_False by tauto. by apply list_lookup_insert_ne.
    + rewrite lookup_insert_ne by done. by rewrite decide_False by tauto.
Qed.

(** ** Lists along one level *)

Lemma lastOr_snoc x l y : lastOr x (l ++ [y]) = y.
Proof. unfold lastOr. by rewrite foldl_app. Qed.

Lemma lastOr_app x l1 l2 : lastOr x (l1 ++ l2) = lastOr (lastOr x l1) l2.
Proof. unfold lastOr. by rewrite foldl_app. Qed.

Lemma lastOr_cons x y l : lastOr x (y :: l) = lastOr y l.
Proof. done. Qed.

Lemma lastOr_elem x l : lastOr x l ∈ x :: l.
Proof.
  revert x. induction l as [|y l IH]; intros x.
  - set_solver.
  - rewrite lastOr_cons. specialize (IH y). set_solver.
Qed.

Lemma chain_seg h i x l : chain h i x l → seg h i x l.
Proof.
  revert x. induction l as [|y l IH]; intros x; simpl; [done|].
  intros [? ?]; split; auto.
Qed.

Lemma chain_app h i x l1 l2 :
  chain h i x (l1 ++ l2) ↔ seg h i x l1 ∧ chain h i (lastOr x l1) l2.
Proof.
  revert x. induction l1 as [|y l1 IH]; intros x; simpl.
  - tauto.
  - rewrite IH, lastOr_cons. tauto.
Qed.

Lemma chain_in_heap h i x l a : chain h i x l → a ∈ x :: l → is_Some (h !! a).
Proof.
  revert x. induction l as [|y l IH]; intros x; simpl.
  - intros Hx Ha. apply list_elem_of_singleton in Ha as ->.
    by eapply getForward_in_heap.
  - intros [Hx Hl] Ha. apply elem_of_cons in Ha as [->|Ha].
    + by eapply getForward_in_heap.
    + by apply (IH y).
Qed.

Lemma chain_ext h h' i x l :
  (∀ a, a ∈ x :: l → getForward h' a i = getForward h a i) →
  chain h i x l → chain h' i x l.
Proof.
  revert x. induction l as [|y l IH]; intros x Hext; simpl.
  - intros <-. apply Hext. set_solver.
  - intros [Hx Hl]. split.
    + rewrite <- Hx. apply Hext. set_solver.
    + apply IH; [|done]. intros a Ha. apply Hext. set_solver.
Qed.

(** [seg] does not read the last node. *)
Lemma seg_ext h h' i x l :
  NoDup (x :: l) →
  (∀ a, a ∈ x :: l → a ≠ lastOr x l → getForward h' a i = getForward h a i) →
  seg h i x l → seg h' i x l.
Proof.
  revert x. induction l as [|y l IH]; intros x Hnd Hext; simpl; [done|].
  intros [Hx Hl]. apply NoDup_cons in Hnd as [Hxl Hnd]. split.
  - rewrite <- Hx. apply Hext; [set_solver|].
    rewrite lastOr_cons. intros ->. apply Hxl, lastOr_elem.
  - apply IH; [done| |done]. intros a Ha Hne. apply Hext; [set_solver|done].
Qed.

(** The list after [y], hung after another node [x]. *)
Lemma chain_rehang h h' i x y l :
  getForward h' x i = getForward h y i →
  (∀ a, a ∈ l → getForward h' a i = getForward h a i) →
  chain h i y l → chain h' i x l.
Proof.
  intros Hx Hext. destruct l as [|z l]; simpl.
  - by rewrite Hx.
  - intros [Hy Hl]. split; [by rewrite Hx|].
    eapply chain_ext; [|done]. done.
Qed.

(** The list from a node in the middle of it. *)
Lemma chain_from_elem h i x0 l r x :
  chain h i x0 (l ++ r) → x ∈ x0 :: l →
  ∃ q, chain h i x (q ++ r) ∧ lastOr x q = lastOr x0 l
       ∧ (∀ a, a ∈ q → a ∈ l) ∧ (List.length q ≤ List.length l)%nat.
Proof.
  intros Hc Hx. apply list_elem_of_split in Hx as (pre & q & Heq).
  exists q. destruct pre as [|x0' pre]; simpl in Heq.
  - injection Heq as -> ->. done.
  - injection Heq as <- ->.
    rewrite <- app_assoc in Hc. apply chain_app in Hc as [_ Hc].
    simpl in Hc. destruct Hc as [_ Hc].
    split; [done|]. split; [|split].
    + by rewrite lastOr_app.
    + intros a Ha. set_solver.
    + rewrite length_app. simpl. lia.
Qed.

Lemma chain_nil_inv h i x l : chain h i x l → getForward h x i = Some None → l = [].
Proof. destruct l; simpl; [done|]. intros [-> _]. done. Qed.

(** ** Levels *)

Lemma atLevel_app h i l1 l2 : atLevel h i (l1 ++ l2) = atLevel h i l1 ++ atLevel h i l2.
Proof. unfold atLevel. by rewrite filter_app. Qed.

Lemma atLevel_elem h i l a : a ∈ atLevel h i l ↔ (i < height h a)%nat ∧ a ∈ l.
Proof. unfold atLevel. by rewrite list_elem_of_filter. Qed.

Lemma atLevel_ext h h' i l :
  (∀ a, a ∈ l → height h' a = height h a) → atLevel h' i l = atLevel h i l.
Proof.
  induction l as [|a l IH]; intros Hext; [done|].
  unfold atLevel in *. rewrite !filter_cons, IH by set_solver.
  rewrite (Hext a) by set_solver. done.
Qed.

Lemma atLevel_nil h i l :
  (∀ a, a ∈ l → (height h a ≤ i)%nat) → atLevel h i l = [].
Proof.
  induction l as [|a l IH]; intros Hle; [done|].
  unfold atLevel in *. rewrite filter_cons, IH by set_solver.
  rewrite decide_False; [done|]. specialize (Hle a). set_solver by lia.
Qed.

Lemma atLevel_zero h l :
  (∀ a, a ∈ l → (1 ≤ height h a)%nat) → atLevel h 0 l = l.
Proof.
  induction l as [|a l IH]; intros Hle; [done|].
  unfold atLevel in *. rewrite filter_cons, IH by set_solver.
  rewrite decide_True; [done|]. specialize (Hle a). set_solver by lia.
Qed.

Lemma predAt_elem h hdr lo i : predAt h hdr lo i ∈ hdr :: atLevel h i lo.
Proof. apply lastOr_elem. Qed.

Lemma predAt_below h hdr lo i :
  predAt h hdr lo (S i) ∈ hdr :: atLevel h i lo.
Proof.
  pose proof (predAt_elem h hdr lo (S i)) as H.
  apply elem_of_cons in H as [->|H]; [set_solver|].
  apply atLevel_elem in H as [? ?].
  apply elem_of_cons. right. apply atLevel_elem. split; [lia|done].
Qed.

(** ** What [Rep] gives *)

Lemma Rep_in_heap ss ns a :
  Rep ss ns → a ∈ header ss :: ns → is_Some (heap ss !! a).
Proof.
  intros HR Ha. apply height_pos_in_heap.
  apply elem_of_cons in Ha as [->|Ha].
  - rewrite (rep_header _ _ HR). unfold maxLevel. lia.
  - apply (rep_heights _ _ HR) in Ha. lia.
Qed.

Lemma Rep_size ss ns :
  Rep ss ns → (S (List.length ns) ≤ base.size (heap ss))%nat.
Proof.
  intros HR. rewrite <- size_dom.
  change (S (List.length ns)) with (List.length (header ss :: ns)).
  rewrite <- (size_list_to_set (C:=gset addr)) by apply (rep_nodup _ _ HR).
  apply subseteq_size. intros a Ha. apply elem_of_list_to_set in Ha.
  apply elem_of_dom. by eapply Rep_in_heap.
Qed.

Lemma Rep_level0 ss ns : Rep ss ns → atLevel (heap ss) 0 ns = ns.
Proof.
  intros HR. apply atLevel_zero. intros a Ha.
  apply (rep_heights _ _ HR) in Ha. lia.
Qed.

Lemma Rep_above ss ns i :
  Rep ss ns → (level ss ≤ i)%nat → atLevel (heap ss) i ns = [].
Proof.
  intros HR Hi. apply atLevel_nil. intros a Ha.
  apply (rep_heights _ _ HR) in Ha. lia.
Qed.

(** ** Searching *)

(** A sorted list splits into the nodes that pass the test of the
    searches and the nodes that do not. *)
Lemma split_sorted h sc m ns :
  ascending (keyOf h <$> ns) →
  ∃ lo hi, ns = lo ++ hi
           ∧ Forall (λ a, lessAt h sc m a = true) lo
           ∧ Forall (λ a, lessAt h sc m a = false) hi.
Proof.
  induction ns as [|a ns IH]; intros Hs.
  - by exists [], [].
  - rewrite fmap_cons in Hs. apply StronglySorted_cons in Hs as [Ha Hs].
    destruct (lessAt h sc m a) eqn:Hlt.
    + destruct (IH Hs) as (lo & hi & -> & Hlo & Hhi).
      exists (a :: lo), hi. split; [done|]. split; [|done].
      by constructor.
    + exists [], (a :: ns). split; [done|]. split; [constructor|].
      constructor; [done|].
      apply Forall_forall. intros b Hb.
      rewrite Forall_forall in Ha.
      specialize (Ha (keyOf h b)).
      apply not_true_is_false. intros Hb'.
      assert (keyLt (keyOf h a) (sc, m) = true); [|unfold lessAt in Hlt; congruence].
      eapply keyLt_trans; [|exact Hb'].
      apply Ha. by apply list_elem_of_fmap_2.
Qed.

Lemma advance_chain h i sc m q : ∀ x r fuel,
  chain h i x (q ++ r) →
  Forall (λ a, lessAt h sc m a = true) q →
  Forall (λ a, lessAt h sc m a = false) r →
  (List.length q < fuel)%nat →
  advance fuel h i sc m x = Some (lastOr x q).
Proof.
  induction q as [|y q IH]; intros x r fuel Hc Hq Hr Hfuel.
  - destruct fuel as [|fuel]; [lia|]. simpl in *.
    destruct r as [|y r]; simpl in Hc.
    + by rewrite Hc.
    + destruct Hc as [Hx Hc]. rewrite Hx. simpl.
      destruct (chain_in_heap _ _ _ _ y Hc) as [ny Hy]; [set_solver|].
      rewrite Hy. simpl. apply Forall_cons in Hr as [Hr _].
      unfold lessAt, keyOf in Hr. rewrite Hy in Hr.
      by rewrite less_keyLt, Hr.
  - destruct fuel as [|fuel]; [simpl in Hfuel; lia|].
    simpl in Hc. destruct Hc as [Hx Hc]. simpl. rewrite Hx. simpl.
    destruct (chain_in_heap _ _ _ _ y Hc) as [ny Hy]; [set_solver|].
    rewrite Hy. simpl. apply Forall_cons in Hq as [Hy' Hq].
    unfold lessAt, keyOf in Hy'. rewrite Hy in Hy'.
    rewrite less_keyLt, Hy'. rewrite lastOr_cons.
    eapply IH; eauto. simpl in Hfuel. lia.
Qed.

Lemma search_S h sc m i x update :
  search h sc m (S i) x update
  = x' ← advance (fuelOf h) h i sc m x;
    update' ← setUpdate update i x';
    search h sc m i x' update'.
Proof. done. Qed.

Section Search.
Context (ss : SortedSet) (lo hi : list addr) (sc : float) (m : string).
Hypothesis HR : Rep ss (lo ++ hi).
Hypothesis Hlo : Forall (λ a, lessAt (heap ss) sc m a = true) lo.
Hypothesis Hhi : Forall (λ a, lessAt (heap ss) sc m a = false) hi.

Lemma advance_level i x :
  (i < maxLevel)%nat →
  x ∈ header ss :: atLevel (heap ss) i lo →
  advance (fuelOf (heap ss)) (heap ss) i sc m x
  = Some (predAt (heap ss) (header ss) lo i).
Proof.
  intros Hi Hx.
  pose proof (rep_chain _ _ HR i Hi) as Hc. rewrite atLevel_app in Hc.
  destruct (chain_from_elem _ _ _ _ _ _ Hc Hx) as (q & Hq & Hlast & Hsub & Hlen).
  unfold predAt. rewrite <- Hlast.
  eapply advance_chain; [exact Hq| | |].
  - apply Forall_forall. intros a Ha. rewrite Forall_forall in Hlo.
    apply Hlo. apply Hsub in Ha. by apply atLevel_elem in Ha as [_ ?].
  - apply Forall_forall. intros a Ha. rewrite Forall_forall in Hhi.
    apply Hhi. by apply atLevel_elem in Ha as [_ ?].
  - pose proof (Rep_size _ _ HR) as Hsz. unfold fuelOf.
    pose proof (length_filter (λ a, (i < height (heap ss) a)%nat) lo) as Hf.
    fold (atLevel (heap ss) i lo) in Hf.
    rewrite length_app in Hsz. lia.
Qed.

(** The outer loop leaves in [update[i]], for every level [i] below
    the one it starts at, the node the new key goes after. *)
Lemma search_levels k : ∀ x update,
  (k ≤ maxLevel)%nat →
  x ∈ header ss :: atLevel (heap ss) k lo →
  List.length update = maxLevel →
  ∃ update',
    search (heap ss) sc m k x update = Some update'
    ∧ List.length update' = maxLevel
    ∧ (∀ i, (i < k)%nat →
         update' !! i = Some (Some (predAt (heap ss) (header ss) lo i)))
    ∧ (∀ i, (k ≤ i)%nat → update' !! i = update !! i).
Proof.
  induction k as [|i IH]; intros x update Hk Hx Hlen.
  - exists update. simpl. split; [done|]. split; [done|]. split; [|done].
    intros; lia.
  - rewrite search_S.
    assert (Hx' : x ∈ header ss :: atLevel (heap ss) i lo).
    { apply elem_of_cons in Hx as [->|Hx]; [set_solver|].
      apply atLevel_elem in Hx as [? ?].
      apply elem_of_cons. right. apply atLevel_elem. split; [lia|done]. }
    rewrite (advance_level i x) by (done || lia). simpl.
    unfold setUpdate. rewrite decide_True by lia. simpl.
    destruct (IH (predAt (heap ss) (header ss) lo i)
                (<[i := Some (predAt (heap ss) (header ss) lo i)]> update))
      as (update' & Hs & Hlen' & Hlow & Hhigh).
    + lia.
    + apply predAt_elem.
    + by rewrite length_insert.
    + exists update'. split; [done|]. split; [done|]. split.
      * intros j Hj. destruct (decide (j = i)) as [->|Hne].
        -- rewrite Hhigh by lia. apply list_lookup_insert_eq. lia.
        -- apply Hlow. lia.
      * intros j Hj. rewrite Hhigh by lia.
        apply list_lookup_insert_ne. lia.
Qed.

Lemma search_spec :
  ∃ update,
    search (heap ss) sc m (level ss) (header ss) (replicate maxLevel None)
    = Some update
    ∧ List.length update = maxLevel
    ∧ (∀ i, (i < level ss)%nat →
         update !! i = Some (Some (predAt (heap ss) (header ss) lo i)))
    ∧ (∀ i, (level ss ≤ i < maxLevel)%nat → update !! i = Some None).
Proof.
  pose proof (rep_level _ _ HR) as Hlev.
  destruct (search_levels (level ss) (header ss) (replicate maxLevel None))
    as (update & Hs & Hlen & Hlow & Hhigh).
  - lia.
  - set_solver.
  - apply length_replicate.
  - exists update. split; [done|]. split; [done|]. split; [done|].
    intros i Hi. rewrite Hhigh by lia. apply lookup_replicate_2. lia.
Qed.

(** Above the current level the node to go after is the header. *)
Lemma predAt_above i :
  (level ss ≤ i)%nat → predAt (heap ss) (header ss) lo i = header ss.
Proof.
  intros Hi. unfold predAt.
  pose proof (Rep_above _ _ i HR Hi) as Hnil.
  rewrite atLevel_app in Hnil. apply app_eq_nil in Hnil as [-> _]. done.
Qed.

(** On each level, the list from the header goes through the nodes of
    [lo], stops over at [predAt], and goes on through the nodes of
    [hi]. *)
Lemma chain_split i :
  (i < maxLevel)%nat →
  seg (heap ss) i (header ss) (atLevel (heap ss) i lo)
  ∧ chain (heap ss) i (predAt (heap ss) (header ss) lo i)
      (atLevel (heap ss) i hi).
Proof.
  intros Hi. pose proof (rep_chain _ _ HR i Hi) as Hc.
  rewrite atLevel_app in Hc. by apply chain_app in Hc.
Qed.

Lemma predAt_in_heap i : is_Some (heap ss !! predAt (heap ss) (header ss) lo i).
Proof.
  clear Hlo Hhi. apply (Rep_in_heap _ _ _ HR).
  pose proof (predAt_elem (heap ss) (header ss) lo i) as H.
  apply elem_of_cons in H as [->|H]; [set_solver|].
  apply atLevel_elem in H as [_ H]. set_solver.
Qed.

Lemma predAt_height i :
  (i < maxLevel)%nat →
  (i < height (heap ss) (predAt (heap ss) (header ss) lo i))%nat.
Proof.
  intros Hi. apply getForward_is_Some.
  destruct (chain_split i Hi) as [_ Hc].
  destruct (atLevel (heap ss) i hi); simpl in Hc; [eauto|].
  destruct Hc as [-> _]. eauto.
Qed.

End Search.

(** ** Inserting *)

Lemma randomLevelLoop_bounds tests : ∀ (r : nat → bool) lvl,
  (1 ≤ lvl ≤ maxLevel)%nat →
  (1 ≤ (randomLevelLoop tests r lvl).1 ≤ maxLevel)%nat.
Proof.
  induction tests as [|t IH]; intros rd lvl Hl; simpl; [done|].
  destruct (rd O); simpl; [|done].
  case_bool_decide; simpl; [|done]. apply IH. lia.
Qed.

Lemma randomLevel_bounds (rd : nat → bool) :
  (1 ≤ (randomLevel rd).1 ≤ maxLevel)%nat.
Proof. apply randomLevelLoop_bounds. unfold maxLevel. lia. Qed.

Lemma raiseLoop_spec hdr cnt : ∀ update i,
  List.length update = maxLevel → (i + cnt ≤ maxLevel)%nat →
  ∃ update',
    raiseLoop update hdr i cnt = Some update'
    ∧ List.length update' = maxLevel
    ∧ (∀ j, (i ≤ j < i + cnt)%nat → update' !! j = Some (Some hdr))
    ∧ (∀ j, ¬ (i ≤ j < i + cnt)%nat → update' !! j = update !! j).
Proof.
  induction cnt as [|c IH]; intros update i Hlen Hi; simpl.
  - exists update. split; [done|]. split; [done|]. split; [|done].
    intros; lia.
  - unfold setUpdate. rewrite decide_True by lia. simpl.
    destruct (IH (<[i := Some hdr]> update) (S i))
      as (update' & Hr & Hlen' & Hin & Hout).
    + by rewrite length_insert.
    + lia.
    + exists update'. split; [done|]. split; [done|]. split.
      * intros j Hj. destruct (decide (j = i)) as [->|Hne].
        -- rewrite Hout by lia. apply list_lookup_insert_eq. lia.
        -- apply Hin. lia.
      * intros j Hj. rewrite Hout by lia. apply list_lookup_insert_ne. lia.
Qed.

(** What [linkLoop] leaves in the heap: on the levels it runs over, the
    new node points where the node before it did, and that node points
    to the new node; nothing else changes. *)
Lemma linkLoop_spec update n (u : nat → addr) cnt : ∀ h i,
  (∀ j, (i ≤ j < i + cnt)%nat →
     update !! j = Some (Some (u j)) ∧ u j ≠ n ∧ (j < height h (u j))%nat) →
  (i + cnt ≤ height h n)%nat →
  ∃ h',
    linkLoop h update n i cnt = Some h'
    ∧ sameNodes h h'
    ∧ ∀ a j,
        getForward h' a j
        = if decide (i ≤ j < i + cnt)%nat then
            if decide (a = n) then getForward h (u j) j
            else if decide (a = u j) then Some (Some n)
            else getForward h a j
          else getForward h a j.
Proof.
  induction cnt as [|c IH]; intros h i Hu Hn.
  - exists h. split; [done|]. split; [apply sameNodes_refl|].
    intros a j. by rewrite decide_False by lia.
  - destruct (Hu i) as (Hui & Hne & Hhi); [lia|].
    cbn [linkLoop]. unfold getUpdate. rewrite Hui. simpl.
    apply getForward_is_Some in Hhi as [v Hv]. rewrite Hv. simpl.
    destruct (setForward_spec h n i v) as (h1 & -> & Hs1 & Hg1); [lia|]. simpl.
    destruct (setForward_spec h1 (u i) i (Some n)) as (h2 & -> & Hs2 & Hg2).
    { destruct Hs1 as [_ Hs1]. destruct (Hs1 (u i)) as [_ ->].
      apply getForward_is_Some. eauto. }
    simpl.
    pose proof (sameNodes_trans _ _ _ Hs1 Hs2) as Hs12.
    destruct (IH h2 (S i)) as (h' & Hl & Hs' & Hg').
    + intros j Hj. destruct (Hu j) as (? & ? & ?); [lia|].
      split; [done|]. split; [done|].
      destruct Hs12 as [_ Hs12]. by destruct (Hs12 (u j)) as [_ ->].
    + destruct Hs12 as [_ Hs12]. destruct (Hs12 n) as [_ ->]. lia.
    + exists h'. split; [done|]. split; [by eapply sameNodes_trans|].
      intros a j. rewrite Hg'.
      destruct (decide (j = i)) as [->|Hji].
      * rewrite decide_False by lia. rewrite decide_True by lia.
        rewrite Hg2, Hg1.
        destruct (decide (a = n)) as [->|Han].
        -- rewrite decide_False by (intros [? _]; done).
           by rewrite decide_True.
        -- destruct (decide (a = u i)) as [->|Hau].
           ++ by rewrite decide_True.
           ++ rewrite decide_False by tauto. by rewrite decide_False by tauto.
      * rewrite !Hg2, !Hg1.
        rewrite !(decide_False (P := _ ∧ j = i)) by tauto.
        destruct (decide (S i ≤ j < S i + c)%nat).
        -- by rewrite (decide_True (P := (i ≤ j < i + S c)%nat)) by lia.
        -- by rewrite (decide_False (P := (i ≤ j < i + S c)%nat)) by lia.
Qed.

Lemma alloc_node h n nd :
  h !! n = None →
  (∀ a, a ≠ n →
     keyOf (<[n := nd]> h) a = keyOf h a
     ∧ height (<[n := nd]> h) a = height h a
     ∧ ∀ j, getForward (<[n := nd]> h) a j = getForward h a j)
  ∧ keyOf (<[n := nd]> h) n = (score nd, member nd)
  ∧ height (<[n := nd]> h) n = List.length (forward nd)
  ∧ ∀ j, getForward (<[n := nd]> h) n j = forward nd !! j.
Proof.
  intros Hn. unfold keyOf, height, getForward. split.
  - intros a Ha. by rewrite lookup_insert_ne.
  - by rewrite lookup_insert_eq.
Qed.

(** The heap [insertNode] leaves, level by level. *)
Lemma insertNode_heap ss lo hi sc m :
  Rep ss (lo ++ hi) →
  Forall (λ a, lessAt (heap ss) sc m a = true) lo →
  Forall (λ a, lessAt (heap ss) sc m a = false) hi →
  let n := fresh (dom (heap ss)) in
  let lvl := (randomLevel (rnd ss)).1 in
  ∃ h',
    insertNode ss sc m
    = Some {| dict := <[m := n]> (dict ss); header := header ss;
              level := if decide (level ss < lvl)%nat then lvl else level ss;
              length := length ss + 1; rnd := (randomLevel (rnd ss)).2;
              heap := h' |}
    ∧ dom h' = {[n]} ∪ dom (heap ss)
    ∧ (∀ a, a ≠ n → keyOf h' a = keyOf (heap ss) a
                     ∧ height h' a = height (heap ss) a)
    ∧ keyOf h' n = (sc, m)
    ∧ height h' n = lvl
    ∧ ∀ a j,
        getForward h' a j
        = if decide (j < lvl)%nat then
            if decide (a = n)
            then getForward (heap ss) (predAt (heap ss) (header ss) lo j) j
            else if decide (a = predAt (heap ss) (header ss) lo j)
                 then Some (Some n)
                 else getForward (heap ss) a j
          else if decide (a = n) then None else getForward (heap ss) a j.
Proof.
  intros HR Hlo Hhi n lvl.
  pose proof (rep_level _ _ HR) as Hlev.
  pose proof (randomLevel_bounds (rnd ss)) as Hlvl. fold lvl in Hlvl.
  assert (Hn : heap ss !! n = None) by apply not_elem_of_dom, is_fresh.
  destruct (search_spec ss lo hi sc m HR Hlo Hhi)
    as (update & Hs & Hlen & Hlow & Hhigh).
  unfold insertNode. rewrite Hs. simpl.
  destruct (randomLevel (rnd ss)) as [lvl0 rnd'] eqn:Hrl. simpl in lvl.
  subst lvl. simpl.
  set (u := predAt (heap ss) (header ss) lo).
  assert (∃ update2,
             (if decide (level ss < lvl0)%nat
              then raiseLoop update (header ss) (level ss) (lvl0 - level ss)
              else Some update) = Some update2
             ∧ ∀ j, (j < lvl0)%nat → update2 !! j = Some (Some (u j)))
    as (update2 & -> & Hu2).
  { case_decide as Hcmp.
    - destruct (raiseLoop_spec (header ss) (lvl0 - level ss) update (level ss))
        as (update2 & Hr & _ & Hin & Hout); [done|lia|].
      exists update2. split; [done|]. intros j Hj.
      destruct (decide (j < level ss)%nat).
      + rewrite Hout by lia. by apply Hlow.
      + rewrite Hin by lia. unfold u.
        by rewrite (predAt_above ss lo hi HR) by lia.
    - exists update. split; [done|]. intros j Hj. apply Hlow. lia. }
  simpl.
  destruct (alloc_node (heap ss) n (newSkipListNode lvl0 sc m) Hn)
    as (Hold & Hkey & Hheight & Hfwd).
  simpl in Hkey, Hheight, Hfwd. rewrite length_replicate in Hheight.
  assert (Hun : ∀ j, u j ≠ n).
  { intros j Heq. destruct (predAt_in_heap ss lo hi HR j) as [? Hin].
    fold u in Hin. rewrite Heq in Hin. congruence. }
  change (fresh (dom (heap ss))) with n.
  destruct (linkLoop_spec update2 n u lvl0
              (<[n := newSkipListNode lvl0 sc m]> (heap ss)) 0)
    as (h' & -> & [Hdom Hsame] & Hg).
  { intros j Hj. split; [apply Hu2; lia|]. split; [done|].
    destruct (Hold (u j) (Hun j)) as (_ & -> & _).
    apply (predAt_height ss lo hi HR). lia. }
  { lia. }
  simpl. exists h'. split; [done|]. split; [|split; [|split; [|split]]].
  - rewrite Hdom. by rewrite dom_insert_L.
  - intros a Ha. destruct (Hsame a) as [-> ->].
    by destruct (Hold a Ha) as (-> & -> & _).
  - by destruct (Hsame n) as [-> _].
  - by destruct (Hsame n) as [_ ->].
  - intros a j. rewrite Hg. simpl.
    destruct (decide (j < lvl0)%nat) as [Hj|Hj].
    + rewrite decide_True by lia.
      destruct (decide (a = n)) as [->|Han].
      * by destruct (Hold (u j) (Hun j)) as (_ & _ & ->).
      * destruct (decide (a = u j)); [done|].
        by destruct (Hold a Han) as (_ & _ & ->).
    + rewrite decide_False by lia.
      destruct (decide (a = n)) as [->|Han].
      * rewrite Hfwd. apply lookup_replicate_None. lia.
      * by destruct (Hold a Han) as (_ & _ & ->).
Qed.

Lemma fmap_keyOf_ext h h' l :
  (∀ a, a ∈ l → keyOf h' a = keyOf h a) → keyOf h' <$> l = keyOf h <$> l.
Proof.
  intros H. apply Forall_fmap_ext_1, Forall_forall. intros a Ha. by apply H.
Qed.

Lemma NoDup_atLevel h i hdr l : NoDup (hdr :: l) → NoDup (hdr :: atLevel h i l).
Proof.
  rewrite !NoDup_cons. intros [Hh Hl]. split.
  - rewrite atLevel_elem. tauto.
  - by apply NoDup_filter.
Qed.

(** [insertNode] of a member that is not in the set, with a score that
    is a number: the new node goes between the nodes with a smaller key
    and the others, on every level it takes part in. *)
Lemma insertNode_spec ss ns sc m :
  Rep ss ns → dict ss !! m = None → is_nan sc = false →
  let n := fresh (dom (heap ss)) in
  ∃ ss' lo hi,
    insertNode ss sc m = Some ss'
    ∧ ns = lo ++ hi
    ∧ Rep ss' (lo ++ n :: hi)
    ∧ keyOf (heap ss') n = (sc, m)
    ∧ (∀ a, a ≠ n → keyOf (heap ss') a = keyOf (heap ss) a)
    ∧ dict ss' = <[m := n]> (dict ss)
    ∧ dom (heap ss') = {[n]} ∪ dom (heap ss)
    ∧ header ss' = header ss.
Proof.
  intros HR Hm Hsc n.
  destruct (split_sorted (heap ss) sc m ns (rep_sorted _ _ HR))
    as (lo & hi & -> & Hlo & Hhi).
  destruct (insertNode_heap ss lo hi sc m HR Hlo Hhi)
    as (h' & Hins & Hdom & Hold & Hkey & Hheight & Hg).
  fold n in Hins, Hdom, Hold, Hkey, Hheight, Hg.
  set (lvl := (randomLevel (rnd ss)).1) in *.
  set (u := predAt (heap ss) (header ss) lo) in *.
  pose proof (rep_level _ _ HR) as Hlev.
  pose proof (randomLevel_bounds (rnd ss)) as Hlvl. fold lvl in Hlvl.
  assert (Hn : heap ss !! n = None) by apply not_elem_of_dom, is_fresh.
  assert (Hfresh : ∀ a, a ∈ header ss :: lo ++ hi → a ≠ n).
  { intros a Ha ->. destruct (Rep_in_heap _ _ _ HR Ha). congruence. }
  assert (Hun : ∀ j, u j ≠ n).
  { intros j Heq. destruct (predAt_in_heap ss lo hi HR j) as [? Hin].
    fold u in Hin. rewrite Heq in Hin. congruence. }
  assert (Hgt : Forall (λ a, keyLt (sc, m) (keyOf (heap ss) a) = true) hi).
  { apply Forall_forall. intros a Ha. rewrite Forall_forall in Hhi.
    specialize (Hhi a Ha). unfold lessAt in Hhi.
    destruct (keyLt_total (sc, m) (keyOf (heap ss) a)) as [?|Habs];
      [done| | |done|congruence].
    - apply (rep_nan _ _ HR). list_in.
    - simpl. intros Heq.
      assert (dict ss !! m = Some a); [|congruence].
      apply (rep_dict _ _ HR). split; [list_in|done]. }
  assert (HatL : ∀ i l, (∀ a, a ∈ l → a ∈ lo ++ hi) →
                   atLevel h' i l = atLevel (heap ss) i l).
  { intros i l Hl. apply atLevel_ext. intros a Ha.
    apply Hold, Hfresh. apply elem_of_cons. right. by apply Hl. }
  assert (Hat : ∀ i, atLevel h' i (lo ++ n :: hi)
                     = atLevel (heap ss) i lo
                       ++ (if decide (i < lvl)%nat then [n] else [])
                       ++ atLevel (heap ss) i hi).
  { intros i. rewrite atLevel_app.
    change (n :: hi) with ([n] ++ hi). rewrite atLevel_app.
    rewrite (HatL i lo), (HatL i hi) by (intros; list_in). do 2 f_equal.
    unfold atLevel. rewrite filter_cons, filter_nil, Hheight.
    by destruct (decide (i < lvl)%nat). }
  eexists _, lo, hi. split; [exact Hins|]. split; [done|].
  split; [|split; [done|]; split; [intros a Ha; by apply Hold|done]].
  pose proof (rep_nodup _ _ HR) as Hnd.
  constructor; simpl.
  - (* distinct *)
    apply NoDup_cons in Hnd as [Hh Hnd]. apply NoDup_app in Hnd as (Hl1 & Hl12 & Hl2).
    apply NoDup_cons. split.
    + assert (header ss ≠ n) by (apply Hfresh; list_in). list_in.
    + apply NoDup_app. split; [done|]. split.
      * intros a Ha Hin. apply elem_of_cons in Hin as [->|Hin].
        -- apply (Hfresh n); [list_in|done].
        -- by apply (Hl12 a).
      * apply NoDup_cons. split; [|done].
        intros Hin. apply (Hfresh n); [list_in|done].
  - (* header *)
    destruct (Hold (header ss)) as [_ ->]; [apply Hfresh; list_in|].
    apply (rep_header _ _ HR).
  - (* level *)
    case_decide; lia.
  - (* heights *)
    intros a Ha.
    assert (a = n ∨ a ∈ lo ++ hi) as [->|Hin] by list_in.
    + rewrite Hheight. case_decide; lia.
    + destruct (Hold a) as [_ ->]; [apply Hfresh; list_in|].
      pose proof (rep_heights _ _ HR a Hin). case_decide; lia.
  - (* levels *)
    intros i Hi. rewrite Hat.
    destruct (chain_split ss lo hi HR i Hi) as [Hseg Hc]. fold u in Hc.
    pose proof (NoDup_atLevel (heap ss) i _ _ Hnd) as Hndi.
    rewrite atLevel_app in Hndi.
    assert (Hui : u i ∈ header ss :: atLevel (heap ss) i lo) by apply predAt_elem.
    assert (Hhi_ne : ∀ a, a ∈ atLevel (heap ss) i hi → a ≠ n ∧ a ≠ u i).
    { intros a Ha. split.
      - apply Hfresh. apply atLevel_elem in Ha. list_in.
      - intros ->. rewrite app_comm_cons in Hndi.
        apply NoDup_app in Hndi as (_ & Hdisj & _). by apply (Hdisj (u i)). }
    apply chain_app. split.
    + eapply seg_ext; [| |exact Hseg].
      * rewrite app_comm_cons in Hndi. by apply NoDup_app in Hndi as (? & _).
      * intros a Ha Hne. rewrite Hg.
        assert (a ≠ n).
        { apply Hfresh. apply elem_of_cons in Ha as [->|Ha]; [list_in|].
          apply atLevel_elem in Ha. list_in. }
        fold (predAt (heap ss) (header ss) lo i) in Hne. fold u in Hne.
        repeat case_decide; done.
    + fold (predAt (heap ss) (header ss) lo i). fold u.
      destruct (decide (i < lvl)%nat) as [Hil|Hil]; simpl.
      * split.
        -- rewrite Hg. rewrite decide_True by done.
           rewrite decide_False by apply Hun.
           by rewrite decide_True.
        -- eapply chain_rehang; [| |exact Hc].
           ++ rewrite Hg. rewrite decide_True by done. by rewrite decide_True.
           ++ intros a Ha. destruct (Hhi_ne a Ha). rewrite Hg.
              repeat case_decide; done.
      * eapply chain_ext; [|exact Hc].
        intros a Ha. rewrite Hg. rewrite decide_False by done.
        rewrite decide_False; [done|].
        apply elem_of_cons in Ha as [->|Ha].
        -- apply Hun.
        -- by apply Hhi_ne.
  - (* order *)
    pose proof (rep_sorted _ _ HR) as Hs. unfold ascending in *.
    rewrite fmap_app in Hs. apply StronglySorted_app in Hs as (Hcross & Hs1 & Hs2).
    rewrite fmap_app, fmap_cons, Hkey.
    rewrite (fmap_keyOf_ext (heap ss) h' lo), (fmap_keyOf_ext (heap ss) h' hi);
      [|intros a Ha; apply Hold, Hfresh; list_in..].
    apply StronglySorted_app. split; [|split; [done|]].
    + intros k1 k2 Hk1 Hk2. apply elem_of_cons in Hk2 as [->|Hk2]; [|by apply Hcross].
      apply list_elem_of_fmap in Hk1 as (a & -> & Ha).
      rewrite Forall_forall in Hlo. by apply Hlo.
    + apply StronglySorted_cons. split; [|done].
      apply Forall_fmap. done.
  - (* numbers *)
    intros a Ha.
    assert (a = n ∨ a ∈ lo ++ hi) as [->|Hin] by list_in.
    + by rewrite Hkey.
    + destruct (Hold a) as [-> _]; [apply Hfresh; list_in|].
      by apply (rep_nan _ _ HR).
  - (* dict *)
    intros m' a. destruct (decide (m' = m)) as [->|Hne].
    + rewrite lookup_insert_eq. split.
      * intros [= <-]. split; [list_in|]. by rewrite Hkey.
      * intros [Ha Hm'].
        assert (a = n ∨ a ∈ lo ++ hi) as [->|Hin] by list_in; [done|].
        destruct (Hold a) as [Hk _]; [apply Hfresh; list_in|].
        rewrite Hk in Hm'.
        assert (dict ss !! m = Some a); [|congruence].
        by apply (rep_dict _ _ HR).
    + rewrite lookup_insert_ne by done. rewrite (rep_dict _ _ HR). split.
      * intros [Ha Hm']. split; [list_in|].
        destruct (Hold a) as [-> _]; [apply Hfresh; list_in|done].
      * intros [Ha Hm'].
        assert (a = n ∨ a ∈ lo ++ hi) as [->|Hin] by list_in.
        -- rewrite Hkey in Hm'. simpl in Hm'. congruence.
        -- destruct (Hold a) as [Hk _]; [apply Hfresh; list_in|].
           rewrite Hk in Hm'. done.
  - (* length *)
    rewrite (rep_length _ _ HR), !length_app. simpl. lia.
Qed.

(** ** Deleting *)

(** What [unlinkLoop] leaves in the heap: on the levels it runs over, a
    node of [update] that points to [node] points where [node] does;
    nothing else changes. *)
Lemma unlinkLoop_spec update node (u : nat → addr) cnt : ∀ h i,
  (∀ j, (i ≤ j < i + cnt)%nat →
     update !! j = Some (Some (u j)) ∧ u j ≠ node
     ∧ (j < height h (u j))%nat
     ∧ (getForward h (u j) j = Some (Some node) → (j < height h node)%nat)) →
  ∃ h',
    unlinkLoop h update node i cnt = Some h'
    ∧ sameNodes h h'
    ∧ ∀ a j,
        getForward h' a j
        = if decide ((i ≤ j < i + cnt)%nat ∧ a = u j
                     ∧ getForward h (u j) j = Some (Some node))
          then getForward h node j
          else getForward h a j.
Proof.
  induction cnt as [|c IH]; intros h i Hu.
  - exists h. split; [done|]. split; [apply sameNodes_refl|].
    intros a j. by rewrite decide_False by lia.
  - destruct (Hu i) as (Hui & Hne & Hhi & Hnode); [lia|].
    cbn [unlinkLoop]. unfold getUpdate. rewrite Hui. simpl.
    apply getForward_is_Some in Hhi as Hv. destruct Hv as [v Hv].
    rewrite Hv. simpl.
    assert (∃ h1,
               (if decide (v = Some node)
                then getForward h node i ≫= λ v0, setForward h (u i) i v0
                else Some h) = Some h1
               ∧ sameNodes h h1
               ∧ ∀ a j, getForward h1 a j
                        = if decide (j = i ∧ a = u i
                                     ∧ getForward h (u i) i = Some (Some node))
                          then getForward h node j
                          else getForward h a j)
      as (h1 & -> & Hs1 & Hg1).
    { destruct (decide (v = Some node)) as [->|Hvn].
      - destruct (proj2 (getForward_is_Some h node i) (Hnode Hv)) as [w Hw].
        rewrite Hw. simpl.
        destruct (setForward_spec h (u i) i w Hhi) as (h1 & -> & Hs1 & Hg1).
        exists h1. split; [done|]. split; [done|].
        intros a j. rewrite Hg1.
        destruct (decide (a = u i ∧ j = i)) as [[-> ->]|Hn].
        + by rewrite decide_True.
        + by rewrite decide_False by tauto.
      - exists h. split; [done|]. split; [apply sameNodes_refl|].
        intros a j. rewrite decide_False; [done|].
        intros (_ & _ & Heq). rewrite Hv in Heq. congruence. }
    simpl.
    destruct (IH h1 (S i)) as (h' & Hl & Hs' & Hg').
    + intros j Hj. destruct (Hu j) as (? & ? & ? & Hnj); [lia|].
      split; [done|]. split; [done|].
      destruct Hs1 as [_ Hs1].
      destruct (Hs1 (u j)) as [_ ->]. destruct (Hs1 node) as [_ ->].
      split; [done|]. rewrite Hg1. rewrite decide_False by lia. done.
    + exists h'. split; [done|]. split; [by eapply sameNodes_trans|].
      intros a j. rewrite Hg', !Hg1.
      destruct (decide (j = i)) as [->|Hji].
      * rewrite (decide_False (P := (S i ≤ i < S i + c)%nat ∧ _)) by lia.
        destruct (decide (a = u i ∧ getForward h (u i) i = Some (Some node)))
          as [[-> Hp]|Hn].
        -- rewrite !decide_True; [done|split; [lia|done]|done].
        -- rewrite !decide_False; [done|tauto|tauto].
      * rewrite !(decide_False (P := j = i ∧ _)) by tauto.
        destruct (decide ((S i ≤ j < S i + c)%nat ∧ a = u j
                          ∧ getForward h (u j) j = Some (Some node)))
          as [(? & ? & ?)|Hn].
        -- rewrite decide_True; [done|]. split; [lia|done].
        -- rewrite decide_False; [done|]. intros (? & ? & ?). apply Hn.
           split; [lia|done].
Qed.

Lemma shrinkLoop_spec h hdr lvl :
  (lvl ≤ height h hdr)%nat → (1 ≤ lvl)%nat →
  ∃ lvl',
    shrinkLoop h hdr lvl = Some lvl'
    ∧ (1 ≤ lvl' ≤ lvl)%nat
    ∧ ∀ p, (lvl' ≤ p < lvl)%nat → getForward h hdr p = Some None.
Proof.
  induction lvl as [|p IH]; intros Hh Hl; [lia|].
  cbn [shrinkLoop]. destruct (decide (1 < S p)%nat) as [Hp|Hp].
  - destruct (proj2 (getForward_is_Some h hdr p)) as [f Hf]; [lia|].
    rewrite Hf. simpl. destruct f as [y|].
    + exists (S p). split; [done|]. split; [lia|]. intros; lia.
    + destruct IH as (lvl' & -> & Hb & Hnil); [lia|lia|].
      exists lvl'. split; [done|]. split; [lia|].
      intros q Hq. destruct (decide (q = p)) as [->|]; [done|].
      apply Hnil. lia.
  - exists (S p). split; [done|]. split; [lia|]. intros; lia.
Qed.

Lemma keyOf_lookup h a nd : h !! a = Some nd → keyOf h a = (score nd, member nd).
Proof. unfold keyOf. by intros ->. Qed.

(** [deleteNode] of a node of the set: the node leaves every level it
    takes part in, and the level of the set goes down to the highest
    level still in use. *)
Lemma deleteNode_spec ss ns a :
  Rep ss ns → a ∈ ns →
  ∃ ss' lo hi,
    deleteNode ss a = Some ss'
    ∧ ns = lo ++ a :: hi
    ∧ Rep ss' (lo ++ hi)
    ∧ (∀ b, keyOf (heap ss') b = keyOf (heap ss) b)
    ∧ dict ss' = delete (keyOf (heap ss) a).2 (dict ss)
    ∧ dom (heap ss') = dom (heap ss)
    ∧ header ss' = header ss
    ∧ rnd ss' = rnd ss.
Proof.
  intros HR Ha.
  destruct (list_elem_of_split _ _ Ha) as (lo & hi & ->).
  destruct (Rep_in_heap ss _ a HR) as [nd Hnd]; [list_in|].
  pose proof (keyOf_lookup _ _ _ Hnd) as Hkey.
  pose proof (rep_level _ _ HR) as Hlev.
  pose proof (rep_nodup _ _ HR) as Hnodup.
  pose proof (rep_sorted _ _ HR) as Hs. unfold ascending in Hs.
  rewrite fmap_app, fmap_cons in Hs.
  apply StronglySorted_app in Hs as (Hcross & Hs1 & Hs2).
  apply StronglySorted_cons in Hs2 as [Hahi Hs2].
  assert (Hlo : Forall (λ b, lessAt (heap ss) (score nd) (member nd) b = true) lo).
  { apply Forall_forall. intros b Hb. unfold lessAt. rewrite <- Hkey.
    apply Hcross; [by apply list_elem_of_fmap_2|]. list_in. }
  assert (Hhi : Forall (λ b, lessAt (heap ss) (score nd) (member nd) b = false)
                  (a :: hi)).
  { apply Forall_cons. unfold lessAt. rewrite <- Hkey. split.
    - apply keyLt_irrefl.
    - apply Forall_forall. intros b Hb. apply keyLt_asym.
      rewrite Forall_forall in Hahi. apply Hahi. by apply list_elem_of_fmap_2. }
  destruct (search_spec ss lo (a :: hi) _ _ HR Hlo Hhi)
    as (update & Hsearch & Hlen & Hlow & _).
  set (u := predAt (heap ss) (header ss) lo) in *.
  assert (Hua : ∀ j, u j ≠ a).
  { intros j Heq. pose proof (predAt_elem (heap ss) (header ss) lo j) as Hin.
    fold (u j) in Hin. rewrite Heq in Hin.
    apply NoDup_cons in Hnodup as [Hh Hnd']. apply NoDup_app in Hnd' as (_ & Hd & _).
    apply elem_of_cons in Hin as [->|Hin]; [apply Hh; list_in|].
    apply atLevel_elem in Hin as [_ Hin]. apply (Hd a Hin). list_in. }
  assert (Hhia : ∀ i b, b ∈ atLevel (heap ss) i hi → b ≠ a ∧ b ≠ u i).
  { intros i b Hb. apply atLevel_elem in Hb as [_ Hb].
    apply NoDup_cons in Hnodup as [Hh Hnd']. apply NoDup_app in Hnd' as (_ & Hd & Hnd').
    apply NoDup_cons in Hnd' as [Hahi' _]. split; [by intros ->|].
    intros ->. pose proof (predAt_elem (heap ss) (header ss) lo i) as Hin.
    fold (u i) in Hin. apply elem_of_cons in Hin as [Heq|Hin].
    - apply Hh. rewrite <- Heq. list_in.
    - apply atLevel_elem in Hin as [_ Hin]. apply (Hd (u i) Hin). list_in. }
  assert (Hpt : ∀ i, (i < maxLevel)%nat →
            if decide (i < height (heap ss) a)%nat
            then getForward (heap ss) (u i) i = Some (Some a)
                 ∧ chain (heap ss) i a (atLevel (heap ss) i hi)
            else getForward (heap ss) (u i) i ≠ Some (Some a)
                 ∧ chain (heap ss) i (u i) (atLevel (heap ss) i hi)).
  { intros i Hi. destruct (chain_split ss lo (a :: hi) HR i Hi) as [_ Hc].
    fold u in Hc. change (a :: hi) with ([a] ++ hi) in Hc.
    rewrite atLevel_app in Hc. unfold atLevel at 1 in Hc.
    rewrite filter_cons, filter_nil in Hc.
    destruct (decide (i < height (heap ss) a)%nat); simpl in Hc; [done|].
    split; [|done].
    destruct (atLevel (heap ss) i hi) as [|b l] eqn:Hl; simpl in Hc.
    - by rewrite Hc.
    - destruct Hc as [-> _]. intros [= ->].
      destruct (Hhia i a); [rewrite Hl; list_in|done]. }
  destruct (unlinkLoop_spec update a u (level ss) (heap ss) 0)
    as (h' & Hunlink & [Hdom Hsame] & Hg).
  { intros j Hj. split; [apply Hlow; lia|]. split; [done|]. split.
    - apply (predAt_height ss lo (a :: hi) HR). lia.
    - intros Hp. specialize (Hpt j ltac:(lia)).
      destruct (decide (j < height (heap ss) a)%nat); [done|]. by destruct Hpt. }
  assert (Hhdr : height h' (header ss) = maxLevel).
  { destruct (Hsame (header ss)) as [_ ->]. apply (rep_header _ _ HR). }
  destruct (shrinkLoop_spec h' (header ss) (level ss)) as (lvl' & Hshrink & Hlvl' & Hnil);
    [lia|lia|].
  assert (∃ nd', h' !! a = Some nd' ∧ member nd' = member nd) as (nd' & Hnd' & Hmem).
  { destruct (Hsame a) as [Hk _]. rewrite Hkey in Hk. unfold keyOf in Hk.
    destruct (h' !! a) as [nd'|] eqn:E.
    - exists nd'. split; [done|]. congruence.
    - apply not_elem_of_dom in E. rewrite Hdom in E.
      by apply elem_of_dom_2 in Hnd. }
  unfold deleteNode. rewrite Hnd. cbn [mbind option_bind].
  rewrite Hsearch. cbn [mbind option_bind].
  rewrite Hunlink. cbn [mbind option_bind].
  rewrite Hshrink. cbn [mbind option_bind].
  rewrite Hnd'. cbn [mbind option_bind].
  assert (HatL : ∀ i l, atLevel h' i l = atLevel (heap ss) i l).
  { intros i l. apply atLevel_ext. intros b _. by destruct (Hsame b). }
  assert (Hlevel_i : ∀ i, (i < maxLevel)%nat →
            chain h' i (header ss) (atLevel (heap ss) i lo ++ atLevel (heap ss) i hi)).
  { intros i Hi. specialize (Hpt i Hi).
    destruct (chain_split ss lo (a :: hi) HR i Hi) as [Hseg _]. fold u in Hseg.
    pose proof (rep_chain _ _ HR i Hi) as Hc.
    pose proof (NoDup_atLevel (heap ss) i _ _ Hnodup) as Hndi.
    rewrite atLevel_app in Hndi, Hc.
    destruct (decide (i < height (heap ss) a)%nat) as [Htall|Hshort].
    - destruct Hpt as [Hp Hca].
      assert (i < level ss)%nat.
      { assert (1 ≤ height (heap ss) a ≤ level ss)%nat
          by (apply (rep_heights _ _ HR); list_in).
        lia. }
      apply chain_app. split.
      + eapply seg_ext; [| |exact Hseg].
        * rewrite app_comm_cons in Hndi. by apply NoDup_app in Hndi as (? & _).
        * intros b Hb Hne. rewrite Hg. rewrite decide_False; [done|].
          intros (_ & -> & _). by apply Hne.
      + fold (predAt (heap ss) (header ss) lo i). fold u.
        eapply chain_rehang; [| |exact Hca].
        * rewrite Hg. rewrite decide_True; [done|]. split; [lia|done].
        * intros b Hb. rewrite Hg. rewrite decide_False; [done|].
          intros (_ & -> & _). by destruct (Hhia i (u i) Hb).
    - destruct Hpt as [Hp _]. eapply chain_ext.
      + intros b _. rewrite Hg. rewrite decide_False; [done|]. tauto.
      + change (a :: hi) with ([a] ++ hi) in Hc. rewrite atLevel_app in Hc.
        unfold atLevel at 2 in Hc. rewrite filter_cons, filter_nil in Hc.
        by rewrite decide_False in Hc. }
  eexists _, lo, hi. split; [done|]. split; [done|].
  split; [|simpl; split; [by intros b; destruct (Hsame b)|];
           split; [by rewrite Hmem, Hkey|done]].
  constructor; simpl.
  - (* distinct *)
    apply NoDup_cons in Hnodup as [Hh Hnd'']. apply NoDup_app in Hnd'' as (? & Hd & Hnd'').
    apply NoDup_cons in Hnd'' as [? ?].
    apply NoDup_cons. split; [list_in|].
    apply NoDup_app. split; [done|]. split; [|done].
    intros b Hb Hb'. apply (Hd b Hb). list_in.
  - done.
  - lia.
  - (* heights *)
    intros b Hb. destruct (Hsame b) as [_ ->].
    assert (Hh : (1 ≤ height (heap ss) b ≤ level ss)%nat)
      by (apply (rep_heights _ _ HR); list_in).
    split; [lia|].
    destruct (decide (height (heap ss) b ≤ lvl')%nat) as [|Hgt]; [done|].
    exfalso.
    specialize (Hnil (height (heap ss) b - 1)%nat ltac:(lia)).
    specialize (Hlevel_i (height (heap ss) b - 1)%nat ltac:(lia)).
    apply chain_nil_inv in Hlevel_i; [|done].
    assert (b ∈ atLevel (heap ss) (height (heap ss) b - 1) lo
                ++ atLevel (heap ss) (height (heap ss) b - 1) hi) as Hin.
    { rewrite <- atLevel_app. apply atLevel_elem. split; [lia|done]. }
    rewrite Hlevel_i in Hin. by apply elem_of_nil in Hin.
  - (* levels *)
    intros i Hi. rewrite HatL, atLevel_app. by apply Hlevel_i.
  - (* order *)
    unfold ascending.
    rewrite (fmap_keyOf_ext (heap ss) h') by (intros b _; by destruct (Hsame b)).
    rewrite fmap_app. apply StronglySorted_app. split; [|done].
    intros k1 k2 Hk1 Hk2. apply Hcross; [done|list_in].
  - (* numbers *)
    intros b Hb. destruct (Hsame b) as [-> _].
    apply (rep_nan _ _ HR). list_in.
  - (* dict *)
    intros m' b. rewrite Hmem.
    assert (Hda : dict ss !! member nd = Some a).
    { apply (rep_dict _ _ HR). split; [list_in|]. by rewrite Hkey. }
    assert (Hab : a ∉ lo ++ hi).
    { apply NoDup_cons in Hnodup as [_ Hn]. apply NoDup_app in Hn as (_ & Hd & Hn).
      apply NoDup_cons in Hn as [? _]. intros Hin.
      apply elem_of_app in Hin as [Hin|Hin]; [|done]. apply (Hd a Hin). list_in. }
    destruct (Hsame b) as [-> _].
    destruct (decide (m' = member nd)) as [->|Hne].
    + rewrite lookup_delete_eq. split; [done|]. intros [Hb Hm'].
      assert (dict ss !! member nd = Some b) as Hdb.
      { apply (rep_dict _ _ HR). split; [list_in|done]. }
      rewrite Hda in Hdb. injection Hdb as <-. done.
    + rewrite lookup_delete_ne by done. rewrite (rep_dict _ _ HR). split.
      * intros [Hb Hm']. split; [|done].
        assert (b ≠ a) by (intros ->; rewrite Hkey in Hm'; simpl in Hm'; congruence).
        list_in.
      * intros [Hb Hm']. split; [list_in|done].
  - (* length *)
    rewrite (rep_length _ _ HR), !length_app. simpl. lia.
Qed.

(** ** The operations *)

Lemma Rep_NewSortedSet (rd : nat → bool) : Rep (NewSortedSet rd) [].
Proof.
  constructor.
  - apply NoDup_singleton.
  - unfold height, NewSortedSet. cbn [heap header].
    rewrite lookup_singleton_eq. apply length_replicate.
  - unfold maxLevel. simpl. lia.
  - intros a Ha. by apply elem_of_nil in Ha.
  - intros i Hi. change (atLevel (heap (NewSortedSet rd)) i []) with (@nil addr).
    unfold chain, getForward, NewSortedSet. cbn [heap header].
    rewrite lookup_singleton_eq. cbn [mbind option_bind newSkipListNode forward].
    by apply lookup_replicate_2.
  - constructor.
  - intros a Ha. by apply elem_of_nil in Ha.
  - intros m a. cbn [NewSortedSet dict]. rewrite lookup_empty. split; [done|].
    intros [Ha _]. by apply elem_of_nil in Ha.
  - done.
Qed.

Lemma evolves_refl ss ns : evolves ss ns ss ns.
Proof. repeat split; auto. Qed.

Lemma evolves_trans ss1 ns1 ss2 ns2 ss3 ns3 :
  evolves ss1 ns1 ss2 ns2 → evolves ss2 ns2 ss3 ns3 → evolves ss1 ns1 ss3 ns3.
Proof.
  intros (Hh1 & Hd1 & Hk1 & Hn1) (Hh2 & Hd2 & Hk2 & Hn2).
  split; [congruence|]. split; [by etrans|]. split.
  - intros b Hb. rewrite Hk2 by auto. by apply Hk1.
  - intros b Hb. destruct (Hn2 b Hb) as [Hb2|Hb2].
    + by apply Hn1.
    + right. intros Hin. apply Hb2. by apply Hd1.
Qed.

Lemma Rep_nodes_in_dom ss ns a : Rep ss ns → a ∈ ns → a ∈ dom (heap ss).
Proof.
  intros HR Ha. apply elem_of_dom. apply (Rep_in_heap _ _ _ HR).
  by apply elem_of_cons; right.
Qed.

Lemma fresh_not_in_dom h : fresh (dom h) ∉ dom h.
Proof. apply is_fresh. Qed.

Lemma insertNode_evolves ss ns sc m :
  Rep ss ns → dict ss !! m = None → is_nan sc = false →
  ∃ ss' ns',
    insertNode ss sc m = Some ss'
    ∧ Rep ss' ns'
    ∧ evolves ss ns ss' ns'
    ∧ (∀ b, b ∈ ns → b ∈ ns')
    ∧ dict ss' = <[m := fresh (dom (heap ss))]> (dict ss)
    ∧ fresh (dom (heap ss)) ∈ ns'
    ∧ keyOf (heap ss') (fresh (dom (heap ss))) = (sc, m)
    ∧ List.length ns' = S (List.length ns).
Proof.
  intros HR Hm Hsc.
  destruct (insertNode_spec ss ns sc m HR Hm Hsc)
    as (ss' & lo & hi & Hins & -> & HR' & Hkey & Hold & Hdict & Hdom & Hhdr).
  exists ss', (lo ++ fresh (dom (heap ss)) :: hi).
  split; [done|]. split; [done|]. split; [|split; [|split; [done|split; [|split]]]].
  - split; [done|]. split; [rewrite Hdom; set_solver|]. split.
    + intros b Hb. apply Hold. intros ->. by apply (fresh_not_in_dom (heap ss)).
    + intros b Hb. apply elem_of_app in Hb as [Hb|Hb]; [left; list_in|].
      apply elem_of_cons in Hb as [->|Hb]; [|left; list_in].
      right. apply fresh_not_in_dom.
  - intros b Hb. list_in.
  - list_in.
  - done.
  - rewrite !length_app. simpl. lia.
Qed.

Lemma deleteNode_evolves ss ns a :
  Rep ss ns → a ∈ ns →
  ∃ ss' ns',
    deleteNode ss a = Some ss'
    ∧ Rep ss' ns'
    ∧ evolves ss ns ss' ns'
    ∧ (∀ b, b ∈ ns → b ≠ a → b ∈ ns')
    ∧ (a ∉ ns')
    ∧ dict ss' = delete (keyOf (heap ss) a).2 (dict ss)
    ∧ dom (heap ss') = dom (heap ss)
    ∧ S (List.length ns') = List.length ns.
Proof.
  intros HR Ha.
  destruct (deleteNode_spec ss ns a HR Ha)
    as (ss' & lo & hi & Hdel & -> & HR' & Hkey & Hdict & Hdom & Hhdr & _).
  exists ss', (lo ++ hi).
  split; [done|]. split; [done|]. split; [|split; [|split; [|split; [done|split; [done|]]]]].
  - split; [done|]. split; [by rewrite Hdom|]. split; [by intros b _|].
    intros b Hb. left. list_in.
  - intros b Hb Hne. list_in.
  - pose proof (rep_nodup _ _ HR) as Hnd.
    apply NoDup_cons in Hnd as [_ Hnd]. apply NoDup_app in Hnd as (_ & Hd & Hnd).
    apply NoDup_cons in Hnd as [? _]. intros Hin.
    apply elem_of_app in Hin as [Hin|Hin]; [|done]. apply (Hd a Hin). list_in.
  - rewrite !length_app. simpl. lia.
Qed.

(** One turn of the loop of [ZAdd]. *)
Lemma ZAdd1_spec ss ns added m sc :
  Rep ss ns → is_nan sc = false →
  ∃ ss' ns',
    ZAdd1 (ss, added) (m, sc)
    = Some (ss', match dict ss !! m with
                 | None => added + 1
                 | Some _ => added
                 end)
    ∧ Rep ss' ns'
    ∧ evolves ss ns ss' ns'
    ∧ (∀ m', m' ≠ m → dict ss' !! m' = dict ss !! m')
    ∧ (∀ b, b ∈ ns → (keyOf (heap ss) b).2 ≠ m → b ∈ ns')
    ∧ addedTo ss ss' ns' m sc.
Proof.
  intros HR Hsc. unfold ZAdd1, addedTo.
  destruct (dict ss !! m) as [a|] eqn:Hm.
  - apply (rep_dict _ _ HR) in Hm as Hm'. destruct Hm' as [Ha Hma].
    destruct (Rep_in_heap ss ns a HR) as [nd Hnd]; [list_in|].
    rewrite Hnd. cbn [mbind option_bind].
    replace ((keyOf (heap ss) a).1) with (score nd)
      by (by rewrite (keyOf_lookup _ _ _ Hnd)).
    destruct (score nd =? sc)%float eqn:Heq; cbn [negb].
    + exists ss, ns. split; [done|]. split; [done|].
      split; [apply evolves_refl|]. split; [done|]. split; [done|]. done.
    + destruct (deleteNode_evolves ss ns a HR Ha)
        as (ss1 & ns1 & -> & HR1 & Hev1 & Hkeep1 & Hgone1 & Hdict1 & Hdom1 & _).
      cbn [mbind option_bind].
      rewrite Hma in Hdict1.
      destruct (insertNode_evolves ss1 ns1 sc m HR1)
        as (ss2 & ns2 & -> & HR2 & Hev2 & Hkeep2 & Hdict2 & Hin2 & Hkey2 & _);
        [by rewrite Hdict1, lookup_delete_eq|done|].
      cbn [mbind option_bind].
      exists ss2, ns2. split; [done|]. split; [done|].
      split; [by eapply evolves_trans|]. split; [|split].
      * intros m' Hne. rewrite Hdict2, Hdict1.
        by rewrite lookup_insert_ne, lookup_delete_ne by done.
      * intros b Hb Hne. apply Hkeep2, Hkeep1; [done|]. intros ->. by apply Hne.
      * exists (fresh (dom (heap ss1))).
        split; [by rewrite Hdict2, lookup_insert_eq|].
        split; [rewrite <- Hdom1; apply fresh_not_in_dom|].
        split; [done|]. split; [done|]. split.
        -- intros Hin. destruct Hev2 as (_ & _ & _ & Hn2).
           destruct (Hn2 a Hin) as [?|Hout]; [done|].
           apply Hout. rewrite Hdom1. by eapply Rep_nodes_in_dom.
        -- destruct (evolves_trans _ _ _ _ _ _ Hev1 Hev2) as (_ & _ & Hk & _).
           apply Hk. by eapply Rep_nodes_in_dom.
  - destruct (insertNode_evolves ss ns sc m HR Hm Hsc)
      as (ss1 & ns1 & -> & HR1 & Hev1 & Hkeep1 & Hdict1 & Hin1 & Hkey1 & _).
    cbn [mbind option_bind].
    exists ss1, ns1. split; [done|]. split; [done|]. split; [done|].
    split; [|split].
    + intros m' Hne. by rewrite Hdict1, lookup_insert_ne.
    + intros b Hb _. by apply Hkeep1.
    + exists (fresh (dom (heap ss))).
      split; [by rewrite Hdict1, lookup_insert_eq|].
      split; [apply fresh_not_in_dom|]. done.
Qed.

Lemma addedTo_later ss ns ss1 ns1 ss' ns' m sc :
  Rep ss ns → Rep ss1 ns1 →
  evolves ss ns ss1 ns1 → evolves ss1 ns1 ss' ns' →
  dict ss' !! m = dict ss1 !! m →
  (∀ b, b ∈ ns1 → (keyOf (heap ss1) b).2 = m → b ∈ ns') →
  addedTo ss ss1 ns1 m sc → addedTo ss ss' ns' m sc.
Proof.
  intros HR HR1 (_ & Hd1 & Hk1 & _) (_ & Hd2 & Hk2 & Hn2) Hdict Hstay.
  assert (Hnew : ∀ n, dict ss1 !! m = Some n → n ∈ ns1 →
            keyOf (heap ss1) n = (sc, m) →
            dict ss' !! m = Some n ∧ n ∈ ns' ∧ keyOf (heap ss') n = (sc, m)).
  { intros n Hn Hin Hkey. split; [congruence|]. split.
    - apply Hstay; [done|]. by rewrite Hkey.
    - rewrite Hk2; [done|]. by eapply Rep_nodes_in_dom. }
  unfold addedTo. destruct (dict ss !! m) as [a|] eqn:Hm.
  - apply (rep_dict _ _ HR) in Hm as [Ha Hma].
    pose proof (Rep_nodes_in_dom _ _ _ HR Ha) as Hadom.
    destruct ((keyOf (heap ss) a).1 =? sc)%float.
    + intros (Hdict1 & Ha1 & Hkey1). split; [congruence|]. split.
      * apply Hstay; [done|]. apply (rep_dict _ _ HR1) in Hdict1. tauto.
      * rewrite Hk2 by auto. done.
    + intros (n & Hn & Hfresh & Hin & Hkey & Hgone & Hkeya).
      destruct (Hnew n Hn Hin Hkey) as (? & ? & ?).
      exists n. repeat (split; [done|]). split.
      * intros Hin'. destruct (Hn2 a Hin') as [?|Hout]; [done|]. auto.
      * rewrite Hk2 by auto. done.
  - intros (n & Hn & Hfresh & Hin & Hkey).
    destruct (Hnew n Hn Hin Hkey) as (? & ? & ?).
    exists n. by repeat (split; [done|]).
Qed.

Lemma addedTo_earlier ss ns ss1 ns1 ss' ns' m sc :
  Rep ss ns → evolves ss ns ss1 ns1 →
  dict ss1 !! m = dict ss !! m →
  addedTo ss1 ss' ns' m sc → addedTo ss ss' ns' m sc.
Proof.
  intros HR (_ & Hd1 & Hk1 & _) Hdict. unfold addedTo. rewrite Hdict.
  destruct (dict ss !! m) as [a|] eqn:Hm.
  - apply (rep_dict _ _ HR) in Hm as [Ha Hma].
    pose proof (Rep_nodes_in_dom _ _ _ HR Ha) as Hadom.
    rewrite (Hk1 a Hadom).
    destruct ((keyOf (heap ss) a).1 =? sc)%float.
    + done.
    + intros (n & Hn & Hfresh & Hrest). exists n.
      split; [done|]. split; [|done]. intros Hin. apply Hfresh. auto.
  - intros (n & Hn & Hfresh & Hrest). exists n.
    split; [done|]. split; [|done]. intros Hin. apply Hfresh. auto.
Qed.

Lemma newMembers_cons ss m sc rest :
  newMembers ss ((m, sc) :: rest)
  = (match dict ss !! m with None => 1 | Some _ => 0 end) + newMembers ss rest.
Proof.
  unfold newMembers. rewrite filter_cons. simpl.
  destruct (dict ss !! m) eqn:E.
  - rewrite decide_False by done. lia.
  - rewrite decide_True by done. simpl. lia.
Qed.

Lemma newMembers_ext ss ss' pairs :
  (∀ p, p ∈ pairs → dict ss' !! p.1 = dict ss !! p.1) →
  newMembers ss' pairs = newMembers ss pairs.
Proof.
  induction pairs as [|[m sc] rest IH]; intros Hext; [done|].
  rewrite !newMembers_cons, IH.
  - pose proof (Hext (m, sc)) as Hm. simpl in Hm.
    rewrite Hm; [done|]. by apply elem_of_cons; left.
  - intros p Hp. apply Hext. by apply elem_of_cons; right.
Qed.

(** The loop of [ZAdd], over a map walked in any order. *)
Lemma ZAddLoop_spec pairs : ∀ ss ns added,
  Rep ss ns → NoDup pairs.*1 → Forall (λ p, is_nan p.2 = false) pairs →
  ∃ ss' ns',
    ZAddLoop (ss, added) pairs = Some (ss', added + newMembers ss pairs)
    ∧ Rep ss' ns'
    ∧ evolves ss ns ss' ns'
    ∧ (∀ m', m' ∉ pairs.*1 → dict ss' !! m' = dict ss !! m')
    ∧ (∀ b, b ∈ ns → (keyOf (heap ss) b).2 ∉ pairs.*1 → b ∈ ns')
    ∧ ∀ m sc, (m, sc) ∈ pairs → addedTo ss ss' ns' m sc.
Proof.
  induction pairs as [|[m sc] rest IH]; intros ss ns added HR Hnd Hnan.
  - exists ss, ns. split; [simpl; f_equal; f_equal; unfold newMembers; simpl; lia|].
    split; [done|]. split; [apply evolves_refl|]. split; [done|]. split; [done|].
    intros m sc Hin. by apply elem_of_nil in Hin.
  - rewrite fmap_cons in Hnd. apply NoDup_cons in Hnd as [Hm Hnd].
    apply Forall_cons in Hnan as [Hsc Hnan]. simpl in Hsc, Hm.
    destruct (ZAdd1_spec ss ns added m sc HR Hsc)
      as (ss1 & ns1 & Hstep & HR1 & Hev1 & Hdict1 & Hstay1 & Hadd1).
    destruct (IH ss1 ns1 (match dict ss !! m with None => added + 1 | Some _ => added end)
                HR1 Hnd Hnan)
      as (ss' & ns' & Hloop & HR' & Hev' & Hdict' & Hstay' & Hadd').
    assert (Hrest : ∀ p, p ∈ rest → p.1 ≠ m).
    { intros p Hp Heq. apply Hm. rewrite <- Heq. by apply list_elem_of_fmap_2. }
    exists ss', ns'. split; [|split; [done|split; [by eapply evolves_trans|split; [|split]]]].
    + cbn [ZAddLoop]. rewrite Hstep. cbn [mbind option_bind]. rewrite Hloop.
      f_equal. f_equal. rewrite newMembers_cons.
      rewrite (newMembers_ext ss ss1) by (intros p Hp; by apply Hdict1, Hrest).
      destruct (dict ss !! m); lia.
    + intros m' Hm'. rewrite fmap_cons in Hm'. apply not_elem_of_cons in Hm' as [? ?].
      rewrite Hdict' by done. by apply Hdict1.
    + intros b Hb Hmb. rewrite fmap_cons in Hmb. apply not_elem_of_cons in Hmb as [? ?].
      apply Hstay'; [by apply Hstay1|].
      destruct Hev1 as (_ & _ & Hk1 & _). rewrite Hk1; [done|].
      by eapply Rep_nodes_in_dom.
    + intros m0 sc0 Hin. apply elem_of_cons in Hin as [[= -> ->]|Hin].
      * apply (addedTo_later ss ns ss1 ns1 ss' ns' m sc HR HR1 Hev1 Hev');
          [by apply Hdict'| |done].
        intros b Hb Hmb. apply Hstay'; [done|]. by rewrite Hmb.
      * apply (addedTo_earlier ss ns ss1 ns1 ss' ns' m0 sc0 HR Hev1);
          [|by apply Hadd'].
        apply Hdict1. by apply (Hrest (m0, sc0)).
Qed.

(** The loops keep the set in order, with or without repeated members. *)
Lemma ZAddLoop_Rep pairs : ∀ ss ns added,
  Rep ss ns → Forall (λ p, is_nan p.2 = false) pairs →
  ∃ ss' ns' added', ZAddLoop (ss, added) pairs = Some (ss', added') ∧ Rep ss' ns'.
Proof.
  induction pairs as [|[m sc] rest IH]; intros ss ns added HR Hnan.
  - by exists ss, ns, added.
  - apply Forall_cons in Hnan as [Hsc Hnan]. simpl in Hsc.
    destruct (ZAdd1_spec ss ns added m sc HR Hsc) as (ss1 & ns1 & Hstep & HR1 & _).
    destruct (IH ss1 ns1 (match dict ss !! m with None => added + 1 | Some _ => added end)
                HR1 Hnan) as (ss' & ns' & added' & Hloop & HR').
    exists ss', ns', added'. split; [|done].
    cbn [ZAddLoop]. rewrite Hstep. cbn [mbind option_bind]. exact Hloop.
Qed.

Lemma ZRemLoop_Rep members : ∀ ss ns removed,
  Rep ss ns →
  ∃ ss' ns' removed',
    ZRemLoop (ss, removed) members = Some (ss', removed') ∧ Rep ss' ns'.
Proof.
  induction members as [|m rest IH]; intros ss ns removed HR.
  - by exists ss, ns, removed.
  - cbn [ZRemLoop]. destruct (dict ss !! m) as [a|] eqn:Hm.
    + apply (rep_dict _ _ HR) in Hm as [Ha _].
      destruct (deleteNode_evolves ss ns a HR Ha) as (ss1 & ns1 & -> & HR1 & _).
      cbn [mbind option_bind]. by eapply IH.
    + by eapply IH.
Qed.

Lemma step_Rep ss ns o :
  Rep ss ns → noNaN o → ∃ ss' ns', step ss o = Some ss' ∧ Rep ss' ns'.
Proof.
  intros HR Hnan. destruct o as [ps|ms]; simpl in *.
  - destruct (ZAddLoop_Rep ps ss ns 0 HR Hnan) as (ss' & ns' & k & Hl & HR').
    exists ss', ns'. unfold ZAdd. by rewrite Hl.
  - destruct (ZRemLoop_Rep ms ss ns 0 HR) as (ss' & ns' & k & Hl & HR').
    exists ss', ns'. unfold ZRem. by rewrite Hl.
Qed.

Lemma run_Rep ops : ∀ ss ns,
  Rep ss ns → Forall noNaN ops → ∃ ss' ns', run ss ops = Some ss' ∧ Rep ss' ns'.
Proof.
  induction ops as [|o ops IH]; intros ss ns HR Hnan.
  - by exists ss, ns.
  - apply Forall_cons in Hnan as [Ho Hnan].
    destruct (step_Rep ss ns o HR Ho) as (ss1 & ns1 & Hs & HR1).
    destruct (IH ss1 ns1 HR1 Hnan) as (ss' & ns' & Hr & HR').
    exists ss', ns'. split; [|done]. simpl. by rewrite Hs.
Qed.

(** ** Traversals *)

Lemma walk_chain h i l : ∀ x fuel,
  chain h i x l → (List.length l < fuel)%nat →
  ∃ nx, getForward h x i = Some nx ∧ walk fuel h i nx = Some l.
Proof.
  induction l as [|y l IH]; intros x fuel Hc Hf; simpl in Hc.
  - exists None. split; [done|]. destruct fuel; [lia|done].
  - destruct Hc as [Hx Hc]. exists (Some y). split; [done|].
    destruct fuel as [|fuel]; [simpl in Hf; lia|].
    destruct (IH y fuel Hc) as (nx & Hy & Hw); [simpl in Hf; lia|].
    simpl. rewrite Hy. simpl. by rewrite Hw.
Qed.

Lemma traverse_Rep ss ns : Rep ss ns → traverse ss = Some ns.
Proof.
  intros HR. unfold traverse.
  pose proof (rep_chain _ _ HR 0) as Hc. rewrite (Rep_level0 _ _ HR) in Hc.
  destruct (walk_chain (heap ss) 0 ns (header ss) (fuelOf (heap ss))) as (nx & -> & Hw).
  - apply Hc. unfold maxLevel. lia.
  - pose proof (Rep_size _ _ HR). unfold fuelOf. lia.
  - done.
Qed.

Lemma entries_Rep ss ns : Rep ss ns → entries ss = Some (keyOf (heap ss) <$> ns).
Proof. intros HR. unfold entries. by rewrite (traverse_Rep _ _ HR). Qed.

Lemma members_Rep ss ns :
  Rep ss ns → members ss = Some ((keyOf (heap ss) <$> ns).*2).
Proof. intros HR. unfold members. by rewrite (entries_Rep _ _ HR). Qed.

(** ** The order of level 0 *)

(** C5 as stated fails: with a NaN score, level 0 is out of order.
    [ZAdd({"a": NaN})] and then [ZAdd({"b": 1})] leave ["b"], with score 1,
    before ["a"], with score NaN, and 1 is not less than NaN. *)
Lemma order_counterexample :
  ¬ (∀ (rd : nat → bool) (ops : list op),
       ∃ ks : list key, entriesAfter rd ops = Some ks
            ∧ Sorted (λ x1 x2 : key, keyLt x1 x2 = true) ks).
Proof.
  intros H.
  destruct (H (λ _, false) [OpZAdd [("a", nan)]; OpZAdd [("b", 1%float)]])
    as (ks & Hl & Hs).
  assert (Hc : entriesAfter (λ _, false)
                 [OpZAdd [("a", nan)]; OpZAdd [("b", 1%float)]]
               = Some [(1%float, "b"); (nan, "a")]) by (by vm_compute).
  rewrite Hc in Hl. injection Hl as <-.
  apply Sorted_inv in Hs as [_ Hhd]. apply HdRel_inv in Hhd.
  by vm_compute in Hhd.
Qed.

(** C5, amended.  After every sequence of [ZAdd] and [ZRem] on a new set
    in which no score passed to [ZAdd] is a NaN, the traversal of level 0
    ends and visits the nodes by strictly ascending (score, member): the
    scores go up, and between equal scores the members do. *)
Theorem order_invariant (rd : nat → bool) (ops : list op) :
  Forall noNaN ops →
  ∃ ks : list key, entriesAfter rd ops = Some ks ∧ ascending ks.
Proof.
  intros Hnan.
  destruct (run_Rep ops (NewSortedSet rd) [] (Rep_NewSortedSet rd) Hnan)
    as (ss & ns & Hrun & HR).
  exists (keyOf (heap ss) <$> ns). split.
  - unfold entriesAfter. rewrite Hrun. by apply entries_Rep.
  - apply (rep_sorted _ _ HR).
Qed.

(** The order after an addition of two members, a removal and an addition
    that moves a member, the first node drawn with two levels. *)
Lemma order_invariant_witness :
  ∃ ks : list key, entriesAfter (λ n, bool_decide (n = 0%nat))
         [OpZAdd [("b", 2%float); ("a", 1%float)]; OpZRem ["b"];
          OpZAdd [("c", 1%float); ("a", 3%float)]]
       = Some ks
       ∧ ascending ks.
Proof.
  apply (order_invariant (λ n, bool_decide (n = 0%nat))
           [OpZAdd [("b", 2%float); ("a", 1%float)]; OpZRem ["b"];
            OpZAdd [("c", 1%float); ("a", 3%float)]]).
  repeat constructor.
Defined.

(** ** The list and the index *)

Lemma Rep_agree ss ns : Rep ss ns → agree ss.
Proof.
  intros HR. exists ((keyOf (heap ss) <$> ns).*2).
  assert (Hnd : NoDup (keyOf (heap ss) <$> ns).*2).
  { rewrite <- list_fmap_compose. apply NoDup_fmap_2_strong.
    - intros a b Ha Hb Heq. simpl in Heq.
      assert (dict ss !! (keyOf (heap ss) a).2 = Some a) as H1
        by by apply (rep_dict _ _ HR).
      assert (dict ss !! (keyOf (heap ss) a).2 = Some b) as H2
        by by apply (rep_dict _ _ HR).
      congruence.
    - pose proof (rep_nodup _ _ HR) as H. by apply NoDup_cons in H as [_ ?]. }
  assert (Hset : list_to_set (keyOf (heap ss) <$> ns).*2 = dom (dict ss)).
  { apply set_eq. intros m. rewrite elem_of_list_to_set, elem_of_dom.
    rewrite <- list_fmap_compose, list_elem_of_fmap. split.
    - intros (a & -> & Ha). exists a. by apply (rep_dict _ _ HR).
    - intros [a Ha]. exists a. apply (rep_dict _ _ HR) in Ha as [? ?]. done. }
  split; [by apply members_Rep|]. split; [done|]. split; [done|].
  assert (Hlen : length ss = Z.of_nat (List.length (keyOf (heap ss) <$> ns).*2)).
  { rewrite !length_fmap. apply (rep_length _ _ HR). }
  split; [done|].
  rewrite Hlen. f_equal.
  rewrite <- (size_list_to_set (C:=gset string)) by done.
  rewrite Hset. apply size_dom.
Qed.

(** C6 as stated fails: with a NaN score, the list and the index part.
    After [ZAdd({"a": NaN})], [ZAdd({"b": 1})] and [ZAdd({"a": NaN})]
    again, level 0 holds ["a"] twice: the second call on ["a"] does not
    find the node to unlink, and links one more. *)
Lemma agreement_counterexample :
  ¬ (∀ (rd : nat → bool) (ops : list op),
       ∃ ss, run (NewSortedSet rd) ops = Some ss ∧ agree ss).
Proof.
  intros H.
  destruct (H (λ _, false)
              [OpZAdd [("a", nan)]; OpZAdd [("b", 1%float)]; OpZAdd [("a", nan)]])
    as (ss & Hrun & ms & Hl & Hnd & _).
  assert (Hc : run (NewSortedSet (λ _, false))
                 [OpZAdd [("a", nan)]; OpZAdd [("b", 1%float)]; OpZAdd [("a", nan)]]
               ≫= members
               = Some ["a"; "b"; "a"]) by (by vm_compute).
  rewrite Hrun in Hc. simpl in Hc. rewrite Hl in Hc. injection Hc as ->.
  apply NoDup_cons in Hnd as [Hin _]. apply Hin. list_in.
Qed.

(** C6, amended.  After every sequence of [ZAdd] and [ZRem] on a new set
    in which no score passed to [ZAdd] is a NaN, the members a traversal
    of level 0 visits are distinct and are the keys of [dict], and
    [length] is their number and the number of keys. *)
Theorem index_list_agreement (rd : nat → bool) (ops : list op) :
  Forall noNaN ops →
  ∃ ss, run (NewSortedSet rd) ops = Some ss ∧ agree ss.
Proof.
  intros Hnan.
  destruct (run_Rep ops (NewSortedSet rd) [] (Rep_NewSortedSet rd) Hnan)
    as (ss & ns & Hrun & HR).
  exists ss. split; [done|]. by eapply Rep_agree.
Qed.

(** The agreement after the same three operations. *)
Lemma index_list_agreement_witness :
  ∃ ss, run (NewSortedSet (λ n, bool_decide (n = 0%nat)))
          [OpZAdd [("b", 2%float); ("a", 1%float)]; OpZRem ["b"];
           OpZAdd [("c", 1%float); ("a", 3%float)]]
        = Some ss
        ∧ agree ss.
Proof.
  apply (index_list_agreement (λ n, bool_decide (n = 0%nat))
           [OpZAdd [("b", 2%float); ("a", 1%float)]; OpZRem ["b"];
            OpZAdd [("c", 1%float); ("a", 3%float)]]).
  repeat constructor.
Defined.

(** ** [ZAdd] *)

(** C7 as stated fails: on a set that holds a NaN score, a member whose
    score changes is not removed.  After [ZAdd({"a": NaN})] and
    [ZAdd({"b": 2})], [ZAdd({"a": 7})] links a new node for ["a"] and
    leaves the old one in the list: the search for the key (NaN, "a")
    stops at the header, which does not point to the old node. *)
Lemma ZAdd_counterexample :
  ¬ (∀ (rd : nat → bool) (ops : list op) (ss : SortedSet)
       (memberScores : list (string * float)),
       run (NewSortedSet rd) ops = Some ss → NoDup memberScores.*1 →
       ∃ ss' ns',
         ZAdd ss memberScores = Some (ss', newMembers ss memberScores)
         ∧ traverse ss' = Some ns'
         ∧ ∀ m sc, (m, sc) ∈ memberScores → addedTo ss ss' ns' m sc).
Proof.
  intros H.
  destruct (H (λ _, false) [OpZAdd [("a", nan)]; OpZAdd [("b", 2%float)]]
              afterNaN [("a", 7%float)])
    as (ss' & ns' & Hadd & Htr & Hall).
  { by vm_compute. }
  { apply NoDup_singleton. }
  specialize (Hall "a" 7%float ltac:(list_in)).
  assert (Hc : (ZAdd afterNaN [("a", 7%float)] ≫= λ res, traverse res.1)
               = Some [2; 3; 1]%nat) by (by vm_compute).
  rewrite Hadd in Hc. simpl in Hc. rewrite Htr in Hc. injection Hc as ->.
  unfold addedTo in Hall.
  assert (Hd : dict afterNaN !! "a" = @Some addr 1%nat) by (by vm_compute).
  rewrite Hd in Hall.
  assert (Hs : ((keyOf (heap afterNaN) 1%nat).1 =? 7)%float = false)
    by (by vm_compute).
  rewrite Hs in Hall. destruct Hall as (n & _ & _ & _ & _ & Hgone & _).
  apply Hgone. list_in.
Qed.

(** C7, amended.  On a set built without a NaN score, [ZAdd] of a map
    whose scores are not NaN, walked in any order, returns the number of
    members of the map that the set did not hold, and leaves a set in
    which
    - a member that was not held is held by a new node, with its score;
    - a member whose score was the one of the map already keeps its node;
    - a member whose score differed is held by a new node, with the new
      score; its old node is out of the list, with its score as it was. *)
Theorem ZAdd_spec (rd : nat → bool) (ops : list op) (ss : SortedSet)
    (memberScores : list (string * float)) :
  Forall noNaN ops → run (NewSortedSet rd) ops = Some ss →
  NoDup memberScores.*1 →
  Forall (λ p, is_nan p.2 = false) memberScores →
  ∃ ss' ns',
    ZAdd ss memberScores = Some (ss', newMembers ss memberScores)
    ∧ traverse ss' = Some ns'
    ∧ ∀ m sc, (m, sc) ∈ memberScores → addedTo ss ss' ns' m sc.
Proof.
  intros Hops Hrun Hnd Hnan.
  destruct (run_Rep ops (NewSortedSet rd) [] (Rep_NewSortedSet rd) Hops)
    as (ss0 & ns & Hrun0 & HR).
  rewrite Hrun in Hrun0. injection Hrun0 as <-.
  destruct (ZAddLoop_spec memberScores ss ns 0 HR Hnd Hnan)
    as (ss' & ns' & Hloop & HR' & _ & _ & _ & Hall).
  exists ss', ns'. split; [by rewrite <- (Z.add_0_l (newMembers _ _))|].
  split; [by apply traverse_Rep|done].
Qed.

(** On [twoLevels]: ["a"] keeps its score, ["b"] moves from 2 to 5, ["c"]
    is new. *)
Lemma ZAdd_spec_witness :
  ∃ ss' ns',
    ZAdd twoLevels [("a", 1%float); ("b", 5%float); ("c", 3%float)]
    = Some (ss', newMembers twoLevels
                   [("a", 1%float); ("b", 5%float); ("c", 3%float)])
    ∧ traverse ss' = Some ns'
    ∧ ∀ m sc, (m, sc) ∈ [("a", 1%float); ("b", 5%float); ("c", 3%float)] →
              addedTo twoLevels ss' ns' m sc.
Proof.
  apply (ZAdd_spec (λ n, bool_decide (n = O))
           [OpZAdd [("a", 1%float)]; OpZAdd [("b", 2%float)]] twoLevels
           [("a", 1%float); ("b", 5%float); ("c", 3%float)]).
  - repeat constructor.
  - by vm_compute.
  - apply (bool_decide_unpack _). by vm_compute.
  - repeat constructor.
Defined.

(** ** Ranks *)

(** The reverse rank is computed from the rank: whenever [ZRank] answers
    [r], [ZRevRank] answers [length - r - 1]. *)
Lemma ZRevRank_of_ZRank ss (m : string) (rk : Z) :
  ZRank ss m = Some (rk, true) →
  ZRevRank ss m = Some (length ss - rk - 1, true).
Proof.
  unfold ZRank, ZRevRank. destruct (dict ss !! m) as [node|]; [|done].
  destruct (findNodeIndex ss node) as [index|]; [|done]. cbn [mbind option_bind].
  destruct (decide (index = -1)); [done|]. by intros [= ->].
Qed.

(** C8, on the code.  In [twoLevels] the node of ["a"] has two levels and
    the node of ["b"] one.  The search for ["b"] passes ["a"] on level 1,
    where [findNodeIndex] does not count, and nothing on level 0: ["b"],
    second in order, gets rank 0, as ["a"] does, and reverse rank 1. *)
Theorem ZRank_counts_level0_only :
  run (NewSortedSet (λ n, bool_decide (n = O)))
    [OpZAdd [("a", 1%float)]; OpZAdd [("b", 2%float)]] = Some twoLevels
  ∧ members twoLevels = Some ["a"; "b"]
  ∧ ZCard twoLevels = 2
  ∧ ZRank twoLevels "a" = Some (0, true)
  ∧ ZRank twoLevels "b" = Some (0, true)
  ∧ ZRevRank twoLevels "b" = Some (1, true).
Proof. by vm_compute. Qed.

(** ** [ZRange] *)

Lemma chain_linked h l : ∀ x,
  chain h 0 x l → ∃ nx, getForward h x 0 = Some nx ∧ linked h nx l.
Proof.
  induction l as [|y l IH]; intros x Hc; simpl in Hc.
  - by exists None.
  - destruct Hc as [Hx Hc]. exists (Some y). split; [done|].
    split; [done|]. by apply IH.
Qed.

Lemma between_nil (lo hi pos : Z) (ks : list key) :
  hi < pos → between lo hi pos ks = [].
Proof.
  revert pos. induction ks as [|x ks IH]; intros pos Hp; simpl; [done|].
  rewrite bool_decide_false by lia. rewrite IH by lia. done.
Qed.

Lemma between_lo (lo lo' hi pos : Z) (ks : list key) :
  lo ≤ pos → lo' ≤ pos → between lo hi pos ks = between lo' hi pos ks.
Proof.
  revert pos. induction ks as [|x ks IH]; intros pos Hp Hp'; simpl; [done|].
  rewrite (IH (pos + 1)) by lia. f_equal.
  destruct (decide (pos ≤ hi)).
  - by rewrite !bool_decide_true by lia.
  - by rewrite !bool_decide_false by lia.
Qed.

Lemma rangeLoop_spec h (start stop : Z) (ws : bool) ns :
  ∀ (p : option addr) (pos : Z) fuel result,
    linked h p ns → stop + 1 - pos < Z.of_nat fuel → (0 < fuel)%nat →
    rangeLoop fuel h p pos start stop ws result
    = Some (result ++ (between start stop pos (keyOf h <$> ns) ≫= render ws)).
Proof.
  induction ns as [|y ns IH]; intros p pos fuel result Hl Hfuel Hpos;
    destruct fuel as [|fuel]; try lia; simpl in Hl.
  - subst p. simpl. by rewrite app_nil_r.
  - destruct Hl as (-> & nx & Hy & Hl). cbn [rangeLoop].
    destruct (Z.leb_spec pos stop) as [Hle|Hgt].
    + apply getForward_Some in Hy as (nd & Hnd & Hfw).
      rewrite Hnd. cbn [mbind option_bind]. rewrite Hfw. cbn [mbind option_bind].
      rewrite IH with (p := nx); [|done|lia|lia].
      f_equal. rewrite fmap_cons. cbn [between].
      rewrite (keyOf_lookup _ _ _ Hnd).
      destruct (Z.leb_spec start pos) as [Hs|Hs].
      * rewrite bool_decide_true by lia.
        rewrite bind_app.
        change ([(score nd, member nd)] ≫= render ws)
          with (render ws (score nd, member nd) ++ []).
        rewrite app_nil_r. unfold render at 2. cbn [fst snd].
        rewrite <- !app_assoc. done.
      * rewrite bool_decide_false by lia. done.
    + rewrite between_nil by lia. simpl. by rewrite app_nil_r.
Qed.

(** [ZRange] on a set in order: the members, and scores, at the positions
    from [start] to [stop] of level 0, as the specification words it. *)
Lemma ZRange_Rep ss ns (start stop : Z) (ws : bool) :
  Rep ss ns →
  ZRange ss start stop ws
  = Some (rangeByIndex (keyOf (heap ss) <$> ns) start stop ws).
Proof.
  intros HR. unfold ZRange, rangeByIndex, adjustRangeIndices.
  rewrite length_fmap, <- (rep_length _ _ HR).
  pose proof (rep_length _ _ HR) as Hlen.
  set (len := length ss) in *.
  set (start1 := if start <? 0 then len + start else start).
  set (stop1 := if stop <? 0 then len + stop else stop).
  assert ((if bool_decide (start < 0) then len + start else start) = start1) as ->.
  { unfold start1. destruct (Z.ltb_spec start 0);
      [by rewrite bool_decide_true|by rewrite bool_decide_false by lia]. }
  assert ((if bool_decide (stop < 0) then len + stop else stop) = stop1) as ->.
  { unfold stop1. destruct (Z.ltb_spec stop 0);
      [by rewrite bool_decide_true|by rewrite bool_decide_false by lia]. }
  assert ((if len <=? stop1 then len - 1 else stop1) = stop1 `min` (len - 1)) as ->.
  { destruct (Z.leb_spec len stop1); lia. }
  set (stop2 := stop1 `min` (len - 1)).
  set (start2 := if start1 <? 0 then 0 else start1).
  destruct (decide (start2 > stop2 ∨ start2 >= len)) as [Hempty|Hgo].
  - assert (bool_decide (start2 > stop2) || bool_decide (start2 >= len) = true) as ->.
    { apply orb_true_iff. rewrite !bool_decide_eq_true. done. }
    f_equal. case_bool_decide; [done|].
    rewrite between_nil; [done|]. unfold start2 in *.
    destruct (Z.ltb_spec start1 0); lia.
  - assert (bool_decide (start2 > stop2) || bool_decide (start2 >= len) = false) as ->.
    { apply orb_false_iff. rewrite !bool_decide_eq_false. lia. }
    rewrite bool_decide_false by (unfold start2 in *; destruct (Z.ltb_spec start1 0); lia).
    pose proof (rep_chain _ _ HR 0) as Hc. rewrite (Rep_level0 _ _ HR) in Hc.
    destruct (chain_linked _ _ _ (Hc ltac:(unfold maxLevel; lia))) as (nx & -> & Hl).
    cbn [mbind option_bind].
    rewrite (rangeLoop_spec _ _ _ _ ns nx 0 _ [] Hl) by lia.
    f_equal. simpl. f_equal. unfold start2.
    destruct (Z.ltb_spec start1 0); [|done]. apply between_lo; lia.
Qed.

Lemma ascending_NoDup (ks : list key) : ascending ks → NoDup ks.
Proof.
  unfold ascending. induction ks as [|x ks IH]; intros Hs; [constructor|].
  apply StronglySorted_cons in Hs as [Hx Hs]. apply NoDup_cons. split; [|auto].
  intros Hin. rewrite Forall_forall in Hx. specialize (Hx x Hin).
  by rewrite keyLt_irrefl in Hx.
Qed.

(** Two lists of keys in order that hold the same keys are the same. *)
Lemma ascending_unique (ks ks' : list key) :
  ascending ks → ascending ks' → (∀ e : key, e ∈ ks ↔ e ∈ ks') → ks = ks'.
Proof.
  intros Hs Hs' Hiff.
  apply (StronglySorted_unique_strong (λ x1 x2 : key, keyLt x1 x2 = true));
    [|done|done|].
  - intros x1 x2 _ _ H12 H21. apply keyLt_asym in H12. congruence.
  - apply NoDup_Permutation; auto using ascending_NoDup.
Qed.

(** Scenario 1: [Add({"a":1, "b":2, "c":3})] on a new set, in whatever
    order the map is walked and whatever levels are drawn, and then
    [RangeByIndex(0, -1, false)]. *)
Lemma scenario_abc (rd : nat → bool) (pairs : list (string * float)) :
  pairs ≡ₚ [("a", 1%float); ("b", 2%float); ("c", 3%float)] →
  ∃ ss, ZAdd (NewSortedSet rd) pairs = Some (ss, 3)
        ∧ ZRange ss 0 (-1) false = Some [inl "a"; inl "b"; inl "c"].
Proof.
  intros Hperm.
  assert (Hnd : NoDup pairs.*1).
  { rewrite Hperm. apply (bool_decide_unpack _). by vm_compute. }
  assert (Hnan : Forall (λ p, is_nan p.2 = false) pairs).
  { rewrite Hperm. repeat constructor. }
  destruct (ZAddLoop_spec pairs (NewSortedSet rd) [] 0 (Rep_NewSortedSet rd) Hnd Hnan)
    as (ss & ns & Hloop & HR & _ & Hdict & _ & Hall).
  assert (Hcount : newMembers (NewSortedSet rd) pairs = 3).
  { unfold newMembers. rewrite Hperm. done. }
  exists ss. split.
  { unfold ZAdd. rewrite Hloop, Hcount. done. }
  rewrite (ZRange_Rep _ _ _ _ _ HR).
  assert (Hin : ∀ m sc, (m, sc) ∈ pairs →
            ∃ n, dict ss !! m = Some n ∧ n ∈ ns ∧ keyOf (heap ss) n = (sc, m)).
  { intros m sc Hp. specialize (Hall m sc Hp). unfold addedTo in Hall.
    cbn [NewSortedSet dict] in Hall. rewrite lookup_empty in Hall.
    destruct Hall as (n & ? & _ & ? & ?). eauto. }
  assert (keyOf (heap ss) <$> ns
          = [(1%float, "a"); (2%float, "b"); (3%float, "c")]) as ->;
    [|done].
  apply ascending_unique.
  - apply (rep_sorted _ _ HR).
  - repeat constructor.
  - intros [sc m]. rewrite list_elem_of_fmap. split.
    + intros (a & Hk & Ha).
      assert (Hd : dict ss !! m = Some a).
      { apply (rep_dict _ _ HR). split; [done|]. by rewrite <- Hk. }
      destruct (decide (m ∈ pairs.*1)) as [Hm|Hm].
      * apply list_elem_of_fmap in Hm as ([m' sc'] & -> & Hp). simpl in *.
        destruct (Hin m' sc' Hp) as (n & Hn & _ & Hkn).
        assert (n = a) as -> by congruence.
        assert ((sc, m') = (sc', m')) as -> by congruence.
        rewrite Hperm in Hp. list_in.
      * rewrite (Hdict m Hm) in Hd. cbn [NewSortedSet dict] in Hd.
        by rewrite lookup_empty in Hd.
    + intros Hk.
      assert ((m, sc) ∈ pairs) as Hp by (rewrite Hperm; list_in).
      destruct (Hin m sc Hp) as (n & _ & Hn & Hkn). eauto.
Qed.

(** C9 as stated fails: on a set that holds a NaN score, [ZRange] does
    not return the members at the positions asked for, in ascending
    order.  In [afterNaNTwice] level 0 holds ("a", NaN), ("b", 1) and
    ("a", NaN) in this order, which is not ascending, and [length] is 2:
    [ZRange(0, -1, false)] answers "a", "b" and stops before the third
    node. *)
Lemma ZRange_counterexample :
  ¬ (∀ (rd : nat → bool) (ops : list op) (ss : SortedSet) (start stop : Z)
       (withScores : bool),
       run (NewSortedSet rd) ops = Some ss →
       ∃ ks : list key,
         entries ss = Some ks
         ∧ ascending ks
         ∧ ZRange ss start stop withScores
           = Some (rangeByIndex ks start stop withScores)).
Proof.
  intros H.
  destruct (H (λ _, false)
              [OpZAdd [("a", nan)]; OpZAdd [("b", 1%float)]; OpZAdd [("a", nan)]]
              afterNaNTwice 0 (-1) false)
    as (ks & Hks & _ & Hr).
  { by vm_compute. }
  assert (Hc : entries afterNaNTwice
               = Some [(nan, "a"); (1%float, "b"); (nan, "a")])
    by (by vm_compute).
  rewrite Hc in Hks. injection Hks as <-.
  by vm_compute in Hr.
Qed.

(** C9, amended.  On a set built without a NaN score, level 0 is in
    ascending (score, member) order and [ZRange] returns what the
    specification words: negative indices count from the end, [stop] is
    clamped to [length - 1], the result is empty when [start > stop] or
    [start >= length], and else it is made of the members at the
    positions from [start] to [stop], each followed by its score when
    [withScores] is set.  Scenario 1 holds whatever the order in which the
    map is walked and whatever levels are drawn. *)
Theorem ZRange_spec (rd : nat → bool) (ops : list op) (ss : SortedSet)
    (start stop : Z) (withScores : bool) (pairs : list (string * float)) :
  Forall noNaN ops → run (NewSortedSet rd) ops = Some ss →
  pairs ≡ₚ [("a", 1%float); ("b", 2%float); ("c", 3%float)] →
  (∃ ks : list key,
     entries ss = Some ks
     ∧ ascending ks
     ∧ ZRange ss start stop withScores
       = Some (rangeByIndex ks start stop withScores))
  ∧ (∃ ss3, ZAdd (NewSortedSet rd) pairs = Some (ss3, 3)
            ∧ ZRange ss3 0 (-1) false = Some [inl "a"; inl "b"; inl "c"]).
Proof.
  intros Hops Hrun Hperm. split; [|by apply scenario_abc].
  destruct (run_Rep ops (NewSortedSet rd) [] (Rep_NewSortedSet rd) Hops)
    as (ss0 & ns & Hrun0 & HR).
  rewrite Hrun in Hrun0. injection Hrun0 as <-.
  exists (keyOf (heap ss) <$> ns).
  split; [by apply entries_Rep|]. split; [apply (rep_sorted _ _ HR)|].
  by apply ZRange_Rep.
Qed.

(** On [twoLevels], from the last position to past the end, with scores;
    and scenario 1 with the map iterated as c, a, b. *)
Lemma ZRange_spec_witness :
  (∃ ks : list key,
     entries twoLevels = Some ks
     ∧ ascending ks
     ∧ ZRange twoLevels (-1) 5 true = Some (rangeByIndex ks (-1) 5 true))
  ∧ (∃ ss3, ZAdd (NewSortedSet (λ n, bool_decide (n = O)))
              [("c", 3%float); ("a", 1%float); ("b", 2%float)]
            = Some (ss3, 3)
            ∧ ZRange ss3 0 (-1) false = Some [inl "a"; inl "b"; inl "c"]).
Proof.
  apply (ZRange_spec (λ n, bool_decide (n = O))
           [OpZAdd [("a", 1%float)]; OpZAdd [("b", 2%float)]] twoLevels
           (-1) 5 true [("c", 3%float); ("a", 1%float); ("b", 2%float)]).
  - repeat constructor.
  - by vm_compute.
  - by rewrite (Permutation_cons_append _ ("c", 3%float)).
Defined.


(** * Further properties of the sorted set *)

(** ** The level of a new node *)

Lemma randomLevelLoop_spec (k : nat) : ∀ tests (r : nat → bool) lvl,
  (∀ j, (j < k)%nat → r j = true) →
  ((lvl + k < maxLevel)%nat → r k = false) →
  (lvl + k ≤ maxLevel)%nat → (k < tests)%nat →
  (randomLevelLoop tests r lvl).1 = (lvl + k)%nat.
Proof.
  induction k as [|k IH]; intros tests r lvl Htrue Hfalse Hle Htests.
  - destruct tests as [|t]; [lia|]. simpl randomLevelLoop.
    destruct (decide (lvl < maxLevel)%nat) as [Hlt|Hge].
    + rewrite Hfalse by lia. simpl. lia.
    + rewrite (bool_decide_false _ Hge), andb_false_r. simpl. lia.
  - destruct tests as [|t]; [lia|]. simpl randomLevelLoop.
    rewrite (Htrue O) by lia.
    rewrite bool_decide_true by lia. cbn [andb].
    rewrite (IH t (λ n, r (S n)) (S lvl)); [lia| | |lia|lia].
    + intros j Hj. apply Htrue. lia.
    + intros Hlt. apply Hfalse. lia.
Qed.

(** X20.  The level of a new node is one more than the number of draws
    below the probability that come first, and [maxLevel] when the first
    [maxLevel - 1] draws all are. *)
Theorem randomLevel_spec (rd : nat → bool) (k : nat) :
  (∀ j, (j < k)%nat → rd j = true) →
  ((S k < maxLevel)%nat → rd k = false) →
  (S k ≤ maxLevel)%nat →
  (randomLevel rd).1 = S k.
Proof.
  intros Htrue Hfalse Hle. unfold randomLevel.
  rewrite (randomLevelLoop_spec k); [done|done|done|done|].
  unfold maxLevel in *. lia.
Qed.

(** Two draws below the probability, then one above: three levels. *)
Lemma randomLevel_spec_witness :
  (randomLevel (λ n, bool_decide (n < 2)%nat)).1 = 3%nat.
Proof.
  apply (randomLevel_spec (λ n, bool_decide (n < 2)%nat) 2).
  - intros j Hj. by apply bool_decide_true.
  - intros _. reflexivity.
  - unfold maxLevel. lia.
Defined.

(** ** Ranks *)

(** Above level 0 the loops of [findNodeIndex] are those of the searches,
    and [rank] stays. *)
Lemma advanceRank_above fuel h i sc m : ∀ x (rank : Z),
  i ≠ O →
  advanceRank fuel h i sc m x rank
  = (λ x', (x', rank)) <$> advance fuel h i sc m x.
Proof.
  induction fuel as [|fuel IH]; intros x rank Hi; [done|].
  simpl. destruct (getForward h x i) as [[y|]|]; simpl; try done.
  destruct (h !! y) as [ny|]; simpl; [|done].
  destruct (less ny sc m); [|done].
  rewrite decide_False by done. by apply IH.
Qed.

(** On level 0 [rank] goes up by the number of nodes passed. *)
Lemma advanceRank_chain h sc m q : ∀ x r fuel (rank : Z),
  chain h 0 x (q ++ r) →
  Forall (λ a, lessAt h sc m a = true) q →
  Forall (λ a, lessAt h sc m a = false) r →
  (List.length q < fuel)%nat →
  advanceRank fuel h 0 sc m x rank
  = Some (lastOr x q, rank + Z.of_nat (List.length q)).
Proof.
  induction q as [|y q IH]; intros x r fuel rank Hc Hq Hr Hfuel.
  - destruct fuel as [|fuel]; [lia|]. simpl in *.
    rewrite Z.add_0_r.
    destruct r as [|y r]; simpl in Hc.
    + by rewrite Hc.
    + destruct Hc as [Hx Hc]. rewrite Hx. simpl.
      destruct (chain_in_heap _ _ _ _ y Hc) as [ny Hy]; [set_solver|].
      rewrite Hy. simpl. apply Forall_cons in Hr as [Hr _].
      unfold lessAt, keyOf in Hr. rewrite Hy in Hr.
      by rewrite less_keyLt, Hr.
  - destruct fuel as [|fuel]; [simpl in Hfuel; lia|].
    simpl in Hc. destruct Hc as [Hx Hc]. simpl. rewrite Hx. simpl.
    destruct (chain_in_heap _ _ _ _ y Hc) as [ny Hy]; [set_solver|].
    rewrite Hy. simpl. apply Forall_cons in Hq as [Hy' Hq].
    unfold lessAt, keyOf in Hy'. rewrite Hy in Hy'.
    rewrite less_keyLt, Hy'. rewrite lastOr_cons.
    rewrite (IH y r fuel (rank + 1)); [|done|done|done|simpl in Hfuel; lia].
    do 2 f_equal. lia.
Qed.

Lemma searchRank_S h sc m i x (rank : Z) :
  searchRank h sc m (S i) x rank
  = '(x', rank') ← advanceRank (fuelOf h) h i sc m x rank;
    searchRank h sc m i x' rank'.
Proof. done. Qed.

Section Rank.
Context (ss : SortedSet) (lo hi : list addr) (sc : float) (m : string).
Hypothesis HR : Rep ss (lo ++ hi).
Hypothesis Hlo : Forall (λ a, lessAt (heap ss) sc m a = true) lo.
Hypothesis Hhi : Forall (λ a, lessAt (heap ss) sc m a = false) hi.

(** The levels above level 0 lead to the node the search stops at on
    level 1, with the rank the loop started with. *)
Lemma searchRank_upper k : ∀ x (rank : Z),
  (1 ≤ k ≤ maxLevel)%nat →
  x ∈ header ss :: atLevel (heap ss) k lo →
  (k = 1%nat → x = predAt (heap ss) (header ss) lo 1) →
  searchRank (heap ss) sc m k x rank
  = advanceRank (fuelOf (heap ss)) (heap ss) 0 sc m
      (predAt (heap ss) (header ss) lo 1) rank.
Proof.
  induction k as [|k IH]; intros x rank Hk Hx Hone; [lia|].
  rewrite searchRank_S.
  destruct (decide (k = O)) as [->|Hk0].
  - rewrite (Hone eq_refl).
    destruct (advanceRank _ _ _ _ _ _ _) as [[x' r']|]; done.
  - assert (Hx' : x ∈ header ss :: atLevel (heap ss) k lo).
    { apply elem_of_cons in Hx as [->|Hx]; [set_solver|].
      apply atLevel_elem in Hx as [? ?].
      apply elem_of_cons. right. apply atLevel_elem. split; [lia|done]. }
    rewrite advanceRank_above by done.
    rewrite (advance_level ss lo hi sc m HR Hlo Hhi k x) by (done || lia).
    cbn [fmap option_fmap option_map mbind option_bind].
    apply IH.
    + lia.
    + apply predAt_elem.
    + by intros ->.
Qed.

End Rank.

(** [findNodeIndex] on a node of the set: the nodes before it, [lo1] up
    to the last one that has more than one level and [lo2] after it. *)
Lemma findNodeIndex_Rep ss lo1 lo2 a hi :
  Rep ss (lo1 ++ lo2 ++ a :: hi) →
  (∀ b, b ∈ lo2 → height (heap ss) b = 1%nat) →
  (lo1 = [] ∨ ∃ l t, lo1 = l ++ [t] ∧ (1 < height (heap ss) t)%nat) →
  findNodeIndex ss a = Some (Z.of_nat (List.length lo2)).
Proof.
  intros HR Hone Htall.
  assert (Ha : a ∈ header ss :: lo1 ++ lo2 ++ a :: hi) by list_in.
  destruct (Rep_in_heap _ _ _ HR Ha) as [nd Hnd].
  pose proof (keyOf_lookup _ _ _ Hnd) as Hkey.
  (* the nodes before [a] pass the test, [a] and the nodes after do not *)
  assert (HR' : Rep ss ((lo1 ++ lo2) ++ a :: hi)) by by rewrite <- app_assoc.
  pose proof (rep_sorted _ _ HR') as Hs. unfold ascending in Hs.
  rewrite fmap_app, fmap_cons in Hs.
  apply StronglySorted_app in Hs as (Hcross & Hs1 & Hs2).
  apply StronglySorted_cons in Hs2 as [Hahi Hs2].
  assert (Hlo : Forall (λ b, lessAt (heap ss) (score nd) (member nd) b = true)
                  (lo1 ++ lo2)).
  { apply Forall_forall. intros b Hb. unfold lessAt. rewrite <- Hkey.
    apply Hcross; [by apply list_elem_of_fmap_2|]. list_in. }
  assert (Hhi : Forall (λ b, lessAt (heap ss) (score nd) (member nd) b = false)
                  (a :: hi)).
  { apply Forall_cons. unfold lessAt. rewrite <- Hkey. split.
    - apply keyLt_irrefl.
    - apply Forall_forall. intros b Hb. apply keyLt_asym.
      rewrite Forall_forall in Hahi. apply Hahi.
      by apply list_elem_of_fmap_2. }
  pose proof (rep_level _ _ HR) as Hlev.
  (* the node the search stops at on level 1 *)
  assert (Hlo2 : atLevel (heap ss) 1 lo2 = []).
  { apply atLevel_nil. intros b Hb. rewrite (Hone b Hb). lia. }
  assert (Hchain : chain (heap ss) 0
                     (predAt (heap ss) (header ss) (lo1 ++ lo2) 1)
                     (lo2 ++ a :: hi)
                   ∧ lastOr (predAt (heap ss) (header ss) (lo1 ++ lo2) 1) lo2
                     = lastOr (header ss) (lo1 ++ lo2)).
  { pose proof (rep_chain _ _ HR 0) as Hc.
    rewrite (Rep_level0 _ _ HR) in Hc.
    unfold predAt. rewrite atLevel_app, Hlo2, app_nil_r.
    destruct Htall as [->|(l & t & -> & Ht)].
    - split; [|done]. apply Hc. unfold maxLevel. lia.
    - rewrite atLevel_app.
      assert (atLevel (heap ss) 1 [t] = [t]) as ->.
      { unfold atLevel. rewrite filter_cons_True by done. done. }
      rewrite lastOr_snoc. split.
      + apply chain_app in Hc as [_ Hc]; [|unfold maxLevel; lia].
        by rewrite lastOr_snoc in Hc.
      + by rewrite lastOr_app, lastOr_snoc. }
  destruct Hchain as [Hchain Hlast].
  unfold findNodeIndex. rewrite Hnd. cbn [mbind option_bind].
  rewrite (searchRank_upper ss (lo1 ++ lo2) (a :: hi) (score nd) (member nd)
             HR' Hlo Hhi (level ss) (header ss) 0); [|lia|list_in|].
  2:{ intros Hl. symmetry.
      apply (predAt_above ss (lo1 ++ lo2) (a :: hi) HR'). lia. }
  rewrite (advanceRank_chain _ _ _ lo2 _ (a :: hi)); [|done| |done|].
  2:{ apply Forall_app in Hlo as [_ ?]. done. }
  2:{ pose proof (Rep_size _ _ HR) as Hsz. unfold fuelOf.
      rewrite !length_app in Hsz. lia. }
  cbn [mbind option_bind]. rewrite Hlast.
  pose proof (rep_chain _ _ HR' 0) as Hc.
  rewrite (Rep_level0 _ _ HR') in Hc.
  apply chain_app in Hc as [_ Hc]; [|unfold maxLevel; lia].
  simpl in Hc. destruct Hc as [Hf _]. rewrite Hf. cbn [mbind option_bind].
  by rewrite decide_True.
Qed.

(** X21.  What [ZRank] counts.  On a set built without a NaN, a member is
    found, and its rank is the number of members between it and the
    nearest member before it whose node has more than one level: its
    position when no member before it has such a node, less than its
    position when one has.  [ZRevRank] is [length - rank - 1]. *)
Theorem ZRank_spec (rd : nat → bool) (ops : list op) (ss : SortedSet)
    (lo1 lo2 : list addr) (a : addr) (hi : list addr) :
  Forall noNaN ops → run (NewSortedSet rd) ops = Some ss →
  traverse ss = Some (lo1 ++ lo2 ++ a :: hi) →
  (∀ b, b ∈ lo2 → height (heap ss) b = 1%nat) →
  (lo1 = [] ∨ ∃ l t, lo1 = l ++ [t] ∧ (1 < height (heap ss) t)%nat) →
  ZRank ss (keyOf (heap ss) a).2 = Some (Z.of_nat (List.length lo2), true)
  ∧ ZRevRank ss (keyOf (heap ss) a).2
    = Some (ZCard ss - Z.of_nat (List.length lo2) - 1, true).
Proof.
  intros Hops Hrun Htr Hone Htall.
  destruct (run_Rep ops _ _ (Rep_NewSortedSet rd) Hops) as (ss' & ns & Hrun' & HR).
  rewrite Hrun in Hrun'. injection Hrun' as <-.
  rewrite (traverse_Rep _ _ HR) in Htr. injection Htr as ->.
  assert (Hd : dict ss !! (keyOf (heap ss) a).2 = Some a).
  { apply (rep_dict _ _ HR). split; [list_in|done]. }
  pose proof (findNodeIndex_Rep _ _ _ _ _ HR Hone Htall) as Hidx.
  unfold ZRank, ZRevRank, ZCard. rewrite Hd, Hidx. cbn [mbind option_bind].
  by rewrite !decide_False by lia.
Qed.

(** ** Scores *)

Lemma float_eq_refl (x : float) : is_nan x = false → (x =? x)%float = true.
Proof.
  intros Hx. destruct (float_total x x Hx Hx) as [Hlt|[Heq|Hlt]]; [|done|];
    by rewrite float_lt_irrefl in Hlt.
Qed.

Lemma ZScore_lookup ss ns m a :
  Rep ss ns → dict ss !! m = Some a →
  ZScore ss m = Some ((keyOf (heap ss) a).1, true).
Proof.
  intros HR Hd. unfold ZScore. rewrite Hd.
  assert (Ha : a ∈ ns) by (by apply (rep_dict _ _ HR) in Hd as [? _]).
  destruct (Rep_in_heap _ _ a HR) as [nd Hnd]; [list_in|].
  rewrite Hnd. cbn [mbind option_bind].
  by rewrite (keyOf_lookup _ _ _ Hnd).
Qed.

Lemma ZScore_none ss m : dict ss !! m = None → ZScore ss m = Some (0%float, false).
Proof. unfold ZScore. by intros ->. Qed.

(** The keys of [dict] after [ZAdd]. *)
Lemma size_union_pairs (d : gmap string addr) (pairs : list (string * float)) :
  NoDup pairs.*1 →
  base.size (dom d ∪ list_to_set pairs.*1 : gset string)
  = (base.size d + List.length (filter (λ p, d !! p.1 = None) pairs))%nat.
Proof.
  induction pairs as [|[m sc] pairs IH]; intros Hnd.
  - simpl. rewrite union_empty_r_L. by rewrite size_dom, Nat.add_0_r.
  - rewrite fmap_cons in Hnd. apply NoDup_cons in Hnd as [Hm Hnd].
    rewrite fmap_cons, list_to_set_cons. cbn [fst].
    destruct (d !! m) as [a|] eqn:Hd.
    + rewrite filter_cons_False by (simpl; by rewrite Hd).
      rewrite <- IH by done. f_equal.
      apply elem_of_dom_2 in Hd. set_solver.
    + rewrite filter_cons_True by done. simpl.
      rewrite Nat.add_succ_r, <- IH by done.
      assert (Hni : m ∉ dom d ∪ list_to_set pairs.*1).
      { apply not_elem_of_dom in Hd. rewrite elem_of_union, elem_of_list_to_set.
        tauto. }
      assert (dom d ∪ ({[m]} ∪ list_to_set pairs.*1)
              = ({[m]} : gset string) ∪ (dom d ∪ list_to_set pairs.*1)) as ->
        by set_solver.
      rewrite size_union by set_solver. by rewrite size_singleton.
Qed.

Lemma addedTo_in_dict ss ss' ns' m sc :
  addedTo ss ss' ns' m sc → is_Some (dict ss' !! m).
Proof.
  unfold addedTo. destruct (dict ss !! m) as [a|].
  - destruct ((keyOf (heap ss) a).1 =? sc)%float.
    + intros (-> & _). eauto.
    + intros (n & -> & _). eauto.
  - intros (n & -> & _). eauto.
Qed.

(** X22.  [ZAdd] and [ZScore].  On a set built without a NaN, after
    [ZAdd] of pairs without a NaN, [ZScore] finds each member of the
    pairs, with a score equal to the one given, and answers for every
    other member what it answered before; [ZCard] has grown by the number
    [ZAdd] returns. *)
Theorem ZAdd_then_ZScore (rd : nat → bool) (ops : list op) (ss : SortedSet)
    (memberScores : list (string * float)) :
  Forall noNaN ops → run (NewSortedSet rd) ops = Some ss →
  NoDup memberScores.*1 →
  Forall (λ p, is_nan p.2 = false) memberScores →
  ∃ ss' (added : Z),
    ZAdd ss memberScores = Some (ss', added)
    ∧ ZCard ss' = ZCard ss + added
    ∧ (∀ m sc, (m, sc) ∈ memberScores →
         ∃ sc', ZScore ss' m = Some (sc', true) ∧ (sc' =? sc)%float = true)
    ∧ (∀ m, m ∉ memberScores.*1 → ZScore ss' m = ZScore ss m).
Proof.
  intros Hops Hrun Hnd Hnan.
  destruct (run_Rep ops _ _ (Rep_NewSortedSet rd) Hops) as (ss0 & ns & Hrun' & HR).
  rewrite Hrun in Hrun'. injection Hrun' as <-.
  destruct (ZAddLoop_spec memberScores ss ns 0 HR Hnd Hnan)
    as (ss' & ns' & Hadd & HR' & Hev & Hother & _ & Hadded).
  exists ss', (0 + newMembers ss memberScores). split; [done|].
  split; [|split].
  - destruct (Rep_agree _ _ HR) as (l & _ & _ & _ & _ & Hsz).
    destruct (Rep_agree _ _ HR') as (l' & _ & _ & _ & _ & Hsz').
    unfold ZCard. rewrite Hsz, Hsz'. unfold newMembers.
    rewrite <- (size_dom (dict ss')).
    assert (Hdom : dom (dict ss') = dom (dict ss) ∪ list_to_set memberScores.*1).
    { apply set_eq. intros m.
      rewrite elem_of_union, elem_of_list_to_set, !elem_of_dom.
      destruct (decide (m ∈ memberScores.*1)) as [Hin|Hni].
      - split; [tauto|]. intros _.
        apply list_elem_of_fmap in Hin as ([m' sc] & -> & Hp).
        apply (addedTo_in_dict ss ss' ns' _ sc). by apply Hadded.
      - rewrite (Hother m Hni). tauto. }
    rewrite Hdom, (size_union_pairs _ _ Hnd). lia.
  - intros m sc Hp.
    assert (Hsc : is_nan sc = false).
    { rewrite Forall_forall in Hnan. apply (Hnan (m, sc) Hp). }
    pose proof (Hadded m sc Hp) as Ha. unfold addedTo in Ha.
    destruct (dict ss !! m) as [a|] eqn:Hd.
    + destruct ((keyOf (heap ss) a).1 =? sc)%float eqn:Heq.
      * destruct Ha as (Hd' & _ & Hk).
        exists (keyOf (heap ss) a).1.
        rewrite (ZScore_lookup _ _ _ _ HR' Hd'), Hk. done.
      * destruct Ha as (n & Hd' & _ & _ & Hk & _).
        exists sc. rewrite (ZScore_lookup _ _ _ _ HR' Hd'), Hk.
        split; [done|]. by apply float_eq_refl.
    + destruct Ha as (n & Hd' & _ & _ & Hk).
      exists sc. rewrite (ZScore_lookup _ _ _ _ HR' Hd'), Hk.
      split; [done|]. by apply float_eq_refl.
  - intros m Hni. pose proof (Hother m Hni) as Hd.
    destruct (dict ss !! m) as [a|] eqn:Hdm.
    + rewrite (ZScore_lookup _ _ _ _ HR Hdm), (ZScore_lookup _ _ _ _ HR' Hd).
      destruct Hev as (_ & _ & Hkeys & _). rewrite Hkeys; [done|].
      apply (Rep_nodes_in_dom _ ns); [done|].
      by apply (rep_dict _ _ HR) in Hdm as [? _].
    + by rewrite !ZScore_none.
Qed.

(** On [twoLevels]: ["a"] keeps its score, ["b"] moves from 2 to 5, ["c"]
    is new. *)
Lemma ZAdd_then_ZScore_witness :
  ∃ ss' (added : Z),
    ZAdd twoLevels [("a", 1%float); ("b", 5%float); ("c", 3%float)]
    = Some (ss', added)
    ∧ ZCard ss' = ZCard twoLevels + added
    ∧ (∀ m sc, (m, sc) ∈ [("a", 1%float); ("b", 5%float); ("c", 3%float)] →
         ∃ sc', ZScore ss' m = Some (sc', true) ∧ (sc' =? sc)%float = true)
    ∧ (∀ m, m ∉ [("a", 1%float); ("b", 5%float); ("c", 3%float)].*1 →
         ZScore ss' m = ZScore twoLevels m).
Proof.
  apply (ZAdd_then_ZScore (λ n, bool_decide (n = O))
           [OpZAdd [("a", 1%float)]; OpZAdd [("b", 2%float)]] twoLevels
           [("a", 1%float); ("b", 5%float); ("c", 3%float)]).
  - repeat constructor.
  - by vm_compute.
  - apply (bool_decide_unpack _). by vm_compute.
  - repeat constructor.
Defined.




(** ** Removal *)

Lemma ZRemLoop_spec (ms : list string) : ∀ ss ns (removed : Z),
  Rep ss ns →
  ∃ ss' ns',
    ZRemLoop (ss, removed) ms
    = Some (ss', removed
                 + Z.of_nat (base.size (dom (dict ss) ∩ list_to_set ms : gset string)))
    ∧ Rep ss' ns'
    ∧ (∀ m, dict ss' !! m = if decide (m ∈ ms) then None else dict ss !! m)
    ∧ (∀ b, keyOf (heap ss') b = keyOf (heap ss) b).
Proof.
  induction ms as [|m ms IH]; intros ss ns removed HR.
  - exists ss, ns. simpl. rewrite intersection_empty_r_L, size_empty.
    rewrite Z.add_0_r. split; [done|]. split; [done|]. by split.
  - cbn [ZRemLoop]. rewrite list_to_set_cons.
    destruct (dict ss !! m) as [node|] eqn:Hd.
    + pose proof Hd as Hd0. apply (rep_dict _ _ HR) in Hd0 as [Hin Hkey].
      destruct (deleteNode_spec ss ns node HR Hin)
        as (ss1 & lo & hi & Hdel & _ & HR1 & Hk1 & Hd1 & _).
      rewrite Hdel. cbn [mbind option_bind]. rewrite Hkey in Hd1.
      destruct (IH ss1 (lo ++ hi) (removed + 1) HR1)
        as (ss' & ns' & Hloop & HR' & Hd' & Hk').
      exists ss', ns'. split; [|split; [done|split]].
      * rewrite Hloop. do 2 f_equal. rewrite Hd1, dom_delete_L.
        assert (Hm : m ∈ dom (dict ss)) by (by apply elem_of_dom_2 in Hd).
        assert (Hsplit : dom (dict ss) ∩ ({[m]} ∪ list_to_set ms)
                         = ({[m]} : gset string)
                           ∪ (dom (dict ss) ∖ {[m]}) ∩ list_to_set ms).
        { apply set_eq. intros x. destruct (decide (x = m)); set_solver. }
        rewrite Hsplit.
        set (B := (dom (dict ss) ∖ {[m]}) ∩ list_to_set ms).
        assert (Hsz : base.size (({[m]} : gset string) ∪ B) = S (base.size B)).
        { rewrite size_union by set_solver. by rewrite size_singleton. }
        rewrite Hsz. lia.
      * intros m'. rewrite Hd', Hd1.
        destruct (decide (m' = m)) as [->|Hne].
        -- rewrite lookup_delete_eq. rewrite (decide_True (P := m ∈ m :: ms)) by list_in.
           by destruct (decide (m ∈ ms)).
        -- rewrite lookup_delete_ne by done.
           destruct (decide (m' ∈ ms)).
           ++ rewrite decide_True; [done|list_in].
           ++ rewrite decide_False; [done|list_in].
      * intros b. by rewrite Hk', Hk1.
    + destruct (IH ss ns removed HR) as (ss' & ns' & Hloop & HR' & Hd' & Hk').
      exists ss', ns'. split; [|split; [done|split; [|done]]].
      * rewrite Hloop.
        assert (dom (dict ss) ∩ ({[m]} ∪ list_to_set ms)
                = (dom (dict ss) ∩ list_to_set ms : gset string)) as ->; [|done].
        apply not_elem_of_dom in Hd. set_solver.
      * intros m'. rewrite Hd'.
        destruct (decide (m' = m)) as [->|Hne].
        -- rewrite (decide_True (P := m ∈ m :: ms)) by list_in.
           by destruct (decide (m ∈ ms)).
        -- destruct (decide (m' ∈ ms)).
           ++ rewrite decide_True; [done|list_in].
           ++ rewrite decide_False; [done|list_in].
Qed.

(** X24.  [ZRem] on a set built without a NaN.  It returns the number of
    distinct members among its arguments that the set holds; [ZCard] goes
    down by this number; [ZScore] finds none of the arguments afterwards,
    and answers for every other member what it answered before. *)
Theorem ZRem_spec (rd : nat → bool) (ops : list op) (ss : SortedSet)
    (ms : list string) :
  Forall noNaN ops → run (NewSortedSet rd) ops = Some ss →
  ∃ ss' (removed : Z),
    ZRem ss ms = Some (ss', removed)
    ∧ removed = Z.of_nat (base.size (dom (dict ss) ∩ list_to_set ms : gset string))
    ∧ ZCard ss' = ZCard ss - removed
    ∧ (∀ m, m ∈ ms → ZScore ss' m = Some (0%float, false))
    ∧ (∀ m, m ∉ ms → ZScore ss' m = ZScore ss m).
Proof.
  intros Hops Hrun.
  destruct (run_Rep ops _ _ (Rep_NewSortedSet rd) Hops) as (ss0 & ns & Hrun' & HR).
  rewrite Hrun in Hrun'. injection Hrun' as <-.
  destruct (ZRemLoop_spec ms ss ns 0 HR) as (ss' & ns' & Hloop & HR' & Hd' & Hk').
  eexists ss', _. split; [exact Hloop|]. split; [lia|]. split; [|split].
  - destruct (Rep_agree _ _ HR) as (l & _ & _ & _ & _ & Hsz).
    destruct (Rep_agree _ _ HR') as (l' & _ & _ & _ & _ & Hsz').
    unfold ZCard. rewrite Hsz, Hsz'. rewrite <- !size_dom.
    assert (Hdom : dom (dict ss')
                   = dom (dict ss) ∖ (dom (dict ss) ∩ list_to_set ms)).
    { apply set_eq. intros m.
      rewrite elem_of_difference, elem_of_intersection, elem_of_list_to_set.
      rewrite !elem_of_dom, Hd'. destruct (decide (m ∈ ms)).
      - split; [by intros [? ?]|]. tauto.
      - tauto. }
    rewrite Hdom, size_difference by set_solver.
    assert (Hsub : dom (dict ss) ∩ list_to_set ms ⊆ dom (dict ss)) by set_solver.
    apply subseteq_size in Hsub. lia.
  - intros m Hm. apply ZScore_none. rewrite Hd'. by rewrite decide_True.
  - intros m Hm. pose proof (Hd' m) as Hd. rewrite decide_False in Hd by done.
    destruct (dict ss !! m) as [a|] eqn:Hdm.
    + by rewrite (ZScore_lookup _ _ _ _ HR Hdm), (ZScore_lookup _ _ _ _ HR' Hd), Hk'.
    + by rewrite !ZScore_none.
Qed.

(** On [twoLevels]: ["b"] twice and a member the set does not hold. *)
Lemma ZRem_spec_witness :
  ∃ ss' (removed : Z),
    ZRem twoLevels ["b"; "x"; "b"] = Some (ss', removed)
    ∧ removed = Z.of_nat (base.size (dom (dict twoLevels)
                                     ∩ list_to_set ["b"; "x"; "b"] : gset string))
    ∧ ZCard ss' = ZCard twoLevels - removed
    ∧ (∀ m, m ∈ ["b"; "x"; "b"] → ZScore ss' m = Some (0%float, false))
    ∧ (∀ m, m ∉ ["b"; "x"; "b"] → ZScore ss' m = ZScore twoLevels m).
Proof.
  apply (ZRem_spec (λ n, bool_decide (n = O))
           [OpZAdd [("a", 1%float)]; OpZAdd [("b", 2%float)]] twoLevels
           ["b"; "x"; "b"]).
  - repeat constructor.
  - by vm_compute.
Defined.

(** In [twoLevels] the node of ["a"], at 1, has two levels; the node of
    ["b"], at 2, comes right after it. *)
Lemma ZRank_spec_witness :
  ZRank twoLevels (keyOf (heap twoLevels) 2%nat).2
  = Some (Z.of_nat (List.length (@nil addr)), true)
  ∧ ZRevRank twoLevels (keyOf (heap twoLevels) 2%nat).2
    = Some (ZCard twoLevels - Z.of_nat (List.length (@nil addr)) - 1, true).
Proof.
  apply (ZRank_spec (λ n, bool_decide (n = O))
           [OpZAdd [("a", 1%float)]; OpZAdd [("b", 2%float)]] twoLevels
           [1%nat] [] 2%nat []).
  - repeat constructor.
  - by vm_compute.
  - by vm_compute.
  - intros b Hb. by apply elem_of_nil in Hb.
  - right. exists [], 1%nat. split; [done|]. vm_compute. lia.
Defined.

(** ** Ranges *)

Lemma between_all (lo hi pos : Z) (ks : list key) :
  lo ≤ pos → pos + Z.of_nat (List.length ks) - 1 ≤ hi →
  between lo hi pos ks = ks.
Proof.
  revert pos. induction ks as [|k ks IH]; intros pos Hlo Hhi; [done|].
  simpl in *. rewrite bool_decide_true by lia.
  rewrite IH by lia. done.
Qed.

Lemma between_length (lo hi : Z) (ks : list key) : ∀ pos : Z,
  Z.of_nat (List.length (between lo hi pos ks))
  = Z.max 0 (Z.min hi (pos + Z.of_nat (List.length ks) - 1) - Z.max lo pos + 1).
Proof.
  induction ks as [|k ks IH]; intros pos.
  - simpl. lia.
  - cbn [between]. rewrite length_app, Nat2Z.inj_add, IH.
    case_bool_decide; simpl List.length; lia.
Qed.

Lemma render_length (ws : bool) (ks : list key) :
  Z.of_nat (List.length (ks ≫= render ws))
  = Z.of_nat (List.length ks) * (1 + boolToInt ws).
Proof.
  induction ks as [|k ks IH]; [done|].
  cbn [mbind list_bind]. rewrite length_app, Nat2Z.inj_add, IH.
  destruct ws; simpl; lia.
Qed.

(** X25.  [ZRange] from 0 to -1, on a set built without a NaN, returns
    every member, in the order of the traversal of level 0, each followed
    by its score when scores are asked for; and [ZCard] is their
    number. *)
Theorem ZRange_all (rd : nat → bool) (ops : list op) (ss : SortedSet) :
  Forall noNaN ops → run (NewSortedSet rd) ops = Some ss →
  ∃ ks : list key,
    entries ss = Some ks
    ∧ ZCard ss = Z.of_nat (List.length ks)
    ∧ ZRange ss 0 (-1) false = Some (inl <$> ks.*2)
    ∧ ZRange ss 0 (-1) true = Some (ks ≫= λ e : key, [inl e.2; inr e.1]).
Proof.
  intros Hops Hrun.
  destruct (run_Rep ops _ _ (Rep_NewSortedSet rd) Hops) as (ss0 & ns & Hrun' & HR).
  rewrite Hrun in Hrun'. injection Hrun' as <-.
  exists (keyOf (heap ss) <$> ns).
  split; [by apply entries_Rep|].
  split; [unfold ZCard; by rewrite (rep_length _ _ HR), length_fmap|].
  rewrite !(ZRange_Rep _ _ _ _ _ HR).
  assert (Hall : ∀ ws, rangeByIndex (keyOf (heap ss) <$> ns) 0 (-1) ws
                       = (keyOf (heap ss) <$> ns) ≫= render ws).
  { intros ws. unfold rangeByIndex.
    set (ks := keyOf (heap ss) <$> ns).
    rewrite !(bool_decide_false (0 < 0)) by lia.
    rewrite !(bool_decide_true (-1 < 0)) by lia.
    destruct ks as [|k ks'] eqn:Hks.
    - by case_bool_decide.
    - rewrite bool_decide_false by (simpl List.length; lia).
      rewrite between_all; [done|lia|simpl List.length; lia]. }
  rewrite !Hall. split; [|done]. f_equal.
  generalize (keyOf (heap ss) <$> ns). intros ks.
  induction ks as [|e ks IH]; [done|].
  rewrite !fmap_cons, <- IH. done.
Qed.

(** On [twoLevels]. *)
Lemma ZRange_all_witness :
  ∃ ks : list key,
    entries twoLevels = Some ks
    ∧ ZCard twoLevels = Z.of_nat (List.length ks)
    ∧ ZRange twoLevels 0 (-1) false = Some (inl <$> ks.*2)
    ∧ ZRange twoLevels 0 (-1) true = Some (ks ≫= λ e : key, [inl e.2; inr e.1]).
Proof.
  apply (ZRange_all (λ n, bool_decide (n = O))
           [OpZAdd [("a", 1%float)]; OpZAdd [("b", 2%float)]] twoLevels).
  - repeat constructor.
  - by vm_compute.
Defined.

(** X26.  The indices [adjustRangeIndices] returns for a set of [n]
    members are a start that is not negative and a stop below [n]; on a
    set built without a NaN, when [ZRange] does not return early, its
    result has [(stop - start + 1) * (1 + boolToInt(withScores))] elements,
    the capacity the slice is made with, and it is empty when it returns
    early. *)
Theorem ZRange_length (rd : nat → bool) (ops : list op) (ss : SortedSet)
    (start stop : Z) (withScores : bool) :
  Forall noNaN ops → run (NewSortedSet rd) ops = Some ss →
  let start' := (adjustRangeIndices start stop (ZCard ss)).1 in
  let stop' := (adjustRangeIndices start stop (ZCard ss)).2 in
  0 ≤ start' ∧ stop' < ZCard ss
  ∧ ∃ res, ZRange ss start stop withScores = Some res
           ∧ Z.of_nat (List.length res)
             = if bool_decide (start' ≤ stop' ∧ start' < ZCard ss)
               then (stop' - start' + 1) * (1 + boolToInt withScores)
               else 0.
Proof.
  intros Hops Hrun.
  destruct (run_Rep ops _ _ (Rep_NewSortedSet rd) Hops) as (ss0 & ns & Hrun' & HR).
  rewrite Hrun in Hrun'. injection Hrun' as <-.
  pose proof (rep_length _ _ HR) as Hlen.
  unfold ZCard, adjustRangeIndices. cbn [fst snd].
  set (len := length ss) in *.
  assert (Hlen0 : 0 ≤ len) by lia.
  set (start1 := if start <? 0 then len + start else start).
  set (stop1 := if stop <? 0 then len + stop else stop).
  set (start2 := if start1 <? 0 then 0 else start1).
  set (stop2 := if len <=? stop1 then len - 1 else stop1).
  split; [unfold start2; destruct (Z.ltb_spec start1 0); lia|].
  split; [unfold stop2; destruct (Z.leb_spec len stop1); lia|].
  rewrite (ZRange_Rep _ _ _ _ _ HR). eexists; split; [done|].
  unfold rangeByIndex. rewrite length_fmap, <- Hlen. fold len.
  assert ((if bool_decide (start < 0) then len + start else start) = start1) as ->.
  { unfold start1. destruct (Z.ltb_spec start 0);
      [by rewrite bool_decide_true|by rewrite bool_decide_false by lia]. }
  assert ((if bool_decide (stop < 0) then len + stop else stop) = stop1) as ->.
  { unfold stop1. destruct (Z.ltb_spec stop 0);
      [by rewrite bool_decide_true|by rewrite bool_decide_false by lia]. }
  assert (Hstop : stop1 `min` (len - 1) = stop2).
  { unfold stop2. destruct (Z.leb_spec len stop1); lia. }
  rewrite Hstop.
  assert (Hstart : start2 = Z.max 0 start1).
  { unfold start2. destruct (Z.ltb_spec start1 0); lia. }
  destruct (decide (stop2 < start1 ∨ len ≤ start1)) as [Hempty|Hgo].
  - rewrite bool_decide_true by done. rewrite bool_decide_false; [done|].
    destruct (Z.leb_spec len stop1); lia.
  - rewrite bool_decide_false by done.
    rewrite render_length, between_length, length_fmap, <- Hlen. fold len.
    case_bool_decide as Hc.
    + f_equal. lia.
    + assert (Z.min stop2 (0 + len - 1) - Z.max start1 0 + 1 ≤ 0) by lia.
      rewrite Z.max_l by lia. lia.
Qed.

(** On [twoLevels], from the last position to past the end, with
    scores. *)
Lemma ZRange_length_witness :
  0 ≤ (adjustRangeIndices (-1) 5 (ZCard twoLevels)).1
  ∧ (adjustRangeIndices (-1) 5 (ZCard twoLevels)).2 < ZCard twoLevels
  ∧ ∃ res, ZRange twoLevels (-1) 5 true = Some res
           ∧ Z.of_nat (List.length res)
             = if bool_decide
                    ((adjustRangeIndices (-1) 5 (ZCard twoLevels)).1
                     ≤ (adjustRangeIndices (-1) 5 (ZCard twoLevels)).2
                     ∧ (adjustRangeIndices (-1) 5 (ZCard twoLevels)).1
                       < ZCard twoLevels)
               then ((adjustRangeIndices (-1) 5 (ZCard twoLevels)).2
                     - (adjustRangeIndices (-1) 5 (ZCard twoLevels)).1 + 1)
                    * (1 + boolToInt true)
               else 0.
Proof.
  apply (ZRange_length (λ n, bool_decide (n = O))
           [OpZAdd [("a", 1%float)]; OpZAdd [("b", 2%float)]] twoLevels
           (-1) 5 true).
  - repeat constructor.
  - by vm_compute.
Defined.

End SortedSetProofs.
